(** * prompt-to-proof: the attestation chain, its verifier and the eval loop

    A shallow embedding of [src/attest.ts] (the chain builder), of
    [src/verify.ts] (the chain verifier) and of the attempt loop of
    [src/run.ts], together with the library functions they stand on
    ([JSON.stringify], [JSON.parse], [String.prototype.trim],
    [String.prototype.split], SHA-256 of [crypto.createHash]); and of the
    guards and the request of [src/run.ts], the reader of the event stream
    of [scripts/stream.ts], and the median and the latencies of the
    summarize script.

    Strings.  A JavaScript string is a sequence of UTF-16 code units.  The
    embedding covers the code units U+0000..U+00FF, one [ascii] per unit, so
    that a [string] of Rocq is a JavaScript string over that range.  In this
    range there are no surrogates, and the order on code units is the order
    on [ascii].

    Numbers.  The only number of a chain entry is [idx], a counter, and
    [JNum] carries an integer, which [JSON.stringify] prints in decimal and
    [JSON.parse] reads back.  The embedding covers the integers that
    JavaScript holds exactly and prints without an exponent; it has no
    fractions and no negative zero.  The sampling parameters of a request
    are rationals.

    Collaborators.  The model endpoint, the [vm] context that runs a
    candidate, the clock and the tokenizer are parameters of the run
    ([Run.World]).  The hash function is a parameter of the builder and of
    the verifier; [SHA256.sha256] is the one of the scripts, and the
    examples are evaluated with it. *)

From Stdlib Require Import ZArith Ascii Lia QArith.
From Stdlib Require String DecimalString DecimalZ DecimalN.
From stdpp Require Import base tactics option list strings sorting gmap.

(** ** SHA-256 (FIPS 180-4), as [crypto.createHash("sha256")] computes it *)

Module SHA256.
Local Open Scope Z_scope.

Definition w32 (x : Z) : Z := x mod 0x100000000.
Definition add32 (x y : Z) : Z := w32 (x + y).
Definition rotr (n x : Z) : Z := Z.lor (Z.shiftr x n) (w32 (Z.shiftl x (32 - n))).
Definition not32 (x : Z) : Z := Z.lxor x 0xffffffff.

Definition Ch (x y z : Z) : Z := Z.lxor (Z.land x y) (Z.land (not32 x) z).
Definition Maj (x y z : Z) : Z :=
  Z.lxor (Z.lxor (Z.land x y) (Z.land x z)) (Z.land y z).
Definition bsig0 (x : Z) : Z := Z.lxor (Z.lxor (rotr 2 x) (rotr 13 x)) (rotr 22 x).
Definition bsig1 (x : Z) : Z := Z.lxor (Z.lxor (rotr 6 x) (rotr 11 x)) (rotr 25 x).
Definition ssig0 (x : Z) : Z := Z.lxor (Z.lxor (rotr 7 x) (rotr 18 x)) (Z.shiftr x 3).
Definition ssig1 (x : Z) : Z := Z.lxor (Z.lxor (rotr 17 x) (rotr 19 x)) (Z.shiftr x 10).

(** The constants are taken from the first primes: the first 32 bits of
    the fractional parts of their cube roots for [K], of their square roots
    for [H0]. *)
Definition is_prime (p : Z) : bool :=
  forallb (fun d => negb (p mod (Z.of_nat d) =? 0)) (seq 2 (Z.to_nat p - 2)).

Definition primes (n : nat) : list Z :=
  firstn n (filter (fun p => is_prime p = true) (map Z.of_nat (seq 2 310))).

(** The largest [r] below [2 ^ bits] with [r ^ k <= x], bit by bit. *)
Fixpoint iroot (k : Z) (bits : nat) (x r : Z) : Z :=
  match bits with
  | O => r
  | S bits' =>
      let r' := r + 2 ^ Z.of_nat bits' in
      if r' ^ k <=? x then iroot k bits' x r' else iroot k bits' x r
  end.

Definition frac_root (k : Z) (p : Z) : Z := w32 (iroot k 36 (p * 2 ^ (32 * k)) 0).

Definition K : list Z := Eval vm_compute in map (frac_root 3) (primes 64).

Definition H0 : list Z := Eval vm_compute in map (frac_root 2) (primes 8).

(** [update(s)] hashes the UTF-8 encoding of [s]: one byte for a code unit
    below U+0080, two bytes for U+0080..U+00FF. *)
Definition utf8_unit (c : ascii) : list Z :=
  let n := Z.of_N (N_of_ascii c) in
  if n <? 0x80 then [n] else [Z.lor 0xC0 (Z.shiftr n 6); Z.lor 0x80 (Z.land n 0x3F)].

Fixpoint utf8 (s : string) : list Z :=
  match s with
  | EmptyString => []
  | String c s' => utf8_unit c ++ utf8 s'
  end.

(** Big-endian bytes of [x], [n] of them. *)
Fixpoint be_bytes (n : nat) (x : Z) : list Z :=
  match n with
  | O => []
  | S n' => Z.land (Z.shiftr x (8 * Z.of_nat n')) 0xff :: be_bytes n' x
  end.

Definition pad (msg : list Z) : list Z :=
  let len := Z.of_nat (length msg) in
  let zeros := Z.to_nat ((55 - len) mod 64) in
  msg ++ 0x80 :: repeat 0 zeros ++ be_bytes 8 (8 * len).

Fixpoint words (n : nat) (bs : list Z) : list Z :=
  match n, bs with
  | S n', b0 :: b1 :: b2 :: b3 :: bs' =>
      (Z.shiftl b0 24 + Z.shiftl b1 16 + Z.shiftl b2 8 + b3) :: words n' bs'
  | _, _ => []
  end.

(** The message schedule: [win] holds the last sixteen words, oldest first. *)
Fixpoint schedule (n : nat) (win : list Z) : list Z :=
  match n with
  | O => []
  | S n' =>
      let wt := add32 (add32 (ssig1 (nth 14 win 0)) (nth 9 win 0))
                      (add32 (ssig0 (nth 1 win 0)) (nth 0 win 0)) in
      wt :: schedule n' (tl win ++ [wt])
  end.

Record regs := Regs { ra : Z; rb : Z; rc : Z; rd : Z; re : Z; rf : Z; rg : Z; rh : Z }.

Definition round (r : regs) (kw : Z * Z) : regs :=
  let t1 := add32 (add32 (add32 (rh r) (bsig1 (re r))) (Ch (re r) (rf r) (rg r)))
                  (add32 (fst kw) (snd kw)) in
  let t2 := add32 (bsig0 (ra r)) (Maj (ra r) (rb r) (rc r)) in
  Regs (add32 t1 t2) (ra r) (rb r) (rc r) (add32 (rd r) t1) (re r) (rf r) (rg r).

Definition of_list (h : list Z) : regs :=
  Regs (nth 0 h 0) (nth 1 h 0) (nth 2 h 0) (nth 3 h 0)
       (nth 4 h 0) (nth 5 h 0) (nth 6 h 0) (nth 7 h 0).

Definition compress (h : list Z) (block : list Z) : list Z :=
  let w16 := words 16 block in
  let ws := w16 ++ schedule 48 w16 in
  let r := fold_left round (combine K ws) (of_list h) in
  zip_with add32 h [ra r; rb r; rc r; rd r; re r; rf r; rg r; rh r].

Fixpoint blocks (n : nat) (h : list Z) (bs : list Z) : list Z :=
  match n with
  | O => h
  | S n' => blocks n' (compress h (firstn 64 bs)) (skipn 64 bs)
  end.

Definition digest (msg : list Z) : list Z :=
  let p := pad msg in
  blocks (length p / 64) H0 p.

Definition hex_digit (n : Z) : ascii :=
  ascii_of_N (Z.to_N (if n <? 10 then 48 + n else 87 + n)).

Fixpoint hex_word (n : nat) (x : Z) : string :=
  match n with
  | O => EmptyString
  | S n' => String (hex_digit (Z.land (Z.shiftr x (4 * Z.of_nat n')) 0xf)) (hex_word n' x)
  end.

(** [crypto.createHash("sha256").update(s).digest("hex")] *)
Definition sha256 (s : string) : string :=
  fold_right (fun x acc => String.append (hex_word 8 x) acc) EmptyString (digest (utf8 s)).

End SHA256.


(** ** Strings of JavaScript *)

Module Str.

Definition newline : ascii := ascii_of_nat 10.
Definition dquote : ascii := ascii_of_nat 34.
Definition backslash : ascii := ascii_of_nat 92.

(** White space and line terminators of ECMAScript in U+0000..U+00FF: TAB, LF,
    VT, FF, CR, SP and NBSP.  [String.prototype.trim] strips them, and the
    class [\s] of a regular expression matches them. *)
Definition is_ws (c : ascii) : bool :=
  let n := N_of_ascii c in
  ((9 <=? n) && (n <=? 13) || (n =? 32) || (n =? 160))%N.

Fixpoint trim_start (s : string) : string :=
  match s with
  | EmptyString => EmptyString
  | String c s' => if is_ws c then trim_start s' else s
  end.

Fixpoint trim_end (s : string) : string :=
  match s with
  | EmptyString => EmptyString
  | String c s' =>
      match trim_end s' with
      | EmptyString => if is_ws c then EmptyString else String c EmptyString
      | t => String c t
      end
  end.

(** [s.trim()] *)
Definition trim (s : string) : string := trim_end (trim_start s).

(** [s.split("\n")]: the pieces between the line feeds; the empty string
    gives one empty piece. *)
Fixpoint split_nl (s : string) : list string :=
  match s with
  | EmptyString => [EmptyString]
  | String c s' =>
      if Ascii.eqb c newline then EmptyString :: split_nl s'
      else match split_nl s' with
           | l :: ls => String c l :: ls
           | [] => [String c EmptyString]
           end
  end.

(** A string in which no line feed occurs. *)
Fixpoint no_nl (s : string) : bool :=
  match s with
  | EmptyString => true
  | String c s' => negb (Ascii.eqb c newline) && no_nl s'
  end.

(** [Boolean(s)] on a string: the empty string is the only falsy one. *)
Definition truthy (s : string) : bool :=
  match s with EmptyString => false | _ => true end.

(** A text of white space and line terminators only. *)
Fixpoint all_ws (s : string) : bool :=
  match s with
  | EmptyString => true
  | String c s' => is_ws c && all_ws s'
  end.

(** [ls.join("\n")] *)
Definition join_nl (ls : list string) : string :=
  String.concat (String newline EmptyString) ls.

(** A line of a text file as a writer of lines produces it: no line feed
    inside, and no white space at either end.  The empty line is one. *)
Definition line_ok (l : string) : Prop :=
  no_nl l = true ∧ trim_start l = l ∧ trim_end l = l.

End Str.

(** ** JSON values and the objects of JavaScript that carry them *)

Module JSON.
Import Str.

(** A value that [JSON.parse] returns, or that is built from literals and
    spreads of such values.  [JObj ps] is an ordinary object whose own
    enumerable properties are [ps], in the order in which [Object.keys],
    the spread and [JSON.stringify] enumerate them. *)
#[local] Unset Elimination Schemes.
Inductive json : Type :=
| JNull
| JBool (b : bool)
| JNum (n : Z)
| JStr (s : string)
| JArr (xs : list json)
| JObj (ps : list (string * json)).
#[local] Set Elimination Schemes.

Definition props := list (string * json).

(** [Object.keys(obj)] *)
Definition keys (ps : props) : list string := map fst ps.

(** [obj[k]] on own properties; [None] is [undefined]. *)
Fixpoint get (k : string) (ps : props) : option json :=
  match ps with
  | [] => None
  | (k', v) :: ps' => if String.eqb k' k then Some v else get k ps'
  end.

Definition has_key (k : string) (ps : props) : bool :=
  match get k ps with Some _ => true | None => false end.

(** Decimal numerals without sign. *)
Definition string_of_N (n : N) : string :=
  DecimalString.NilEmpty.string_of_uint (N.to_uint n).

(** An array index is a canonical numeric string below 2^32 - 1.  The own
    property keys of an ordinary object are enumerated array indices first,
    in ascending numeric order, then the other strings in creation order. *)
Definition array_index (k : string) : option N :=
  match DecimalString.NilEmpty.uint_of_string k with
  | Some u =>
      let n := N.of_uint u in
      if String.eqb (string_of_N n) k && (n <=? 4294967294)%N then Some n else None
  | None => None
  end.

Fixpoint replace_prop (k : string) (v : json) (ps : props) : props :=
  match ps with
  | [] => []
  | (k', v') :: ps' =>
      if String.eqb k' k then (k', v) :: ps' else (k', v') :: replace_prop k v ps'
  end.

Fixpoint insert_index (n : N) (k : string) (v : json) (ps : props) : props :=
  match ps with
  | [] => [(k, v)]
  | (k', v') :: ps' =>
      match array_index k' with
      | Some m => if (m <? n)%N then (k', v') :: insert_index n k v ps'
                  else (k, v) :: ps
      | None => (k, v) :: ps
      end
  end.

(** CreateDataProperty on an ordinary object: what an object literal, a
    spread [{...o}] and [JSON.parse] do for each property. *)
Definition define_prop (k : string) (v : json) (ps : props) : props :=
  if has_key k ps then replace_prop k v ps
  else match array_index k with
       | Some n => insert_index n k v ps
       | None => ps ++ [(k, v)]
       end.

(** [a[k] = v] on an ordinary object [a] that inherits from
    [Object.prototype]: the assignment runs the inherited [__proto__]
    setter when [k] is ["__proto__"] and [a] has no own property of that
    name, and then creates no own property. *)
Definition obj_assign (k : string) (v : json) (ps : props) : props :=
  if String.eqb k "__proto__" && negb (has_key k ps) then ps
  else define_prop k v ps.

(** [{...o}]: the own enumerable properties of [o], copied in order.  A
    primitive that is spread contributes nothing; the properties of arrays
    and strings are their indices. *)
Definition own_props (v : json) : props :=
  match v with
  | JObj ps => ps
  | JArr xs => imap (fun i x => (string_of_N (N.of_nat i), x)) xs
  | JStr s =>
      imap (fun i c => (string_of_N (N.of_nat i), JStr (String c EmptyString)))
           (String.list_ascii_of_string s)
  | _ => []
  end.

Definition spread (ps : props) (into : props) : props :=
  fold_left (fun a kv => define_prop (fst kv) (snd kv) a) ps into.

(** [keys.sort()]: the default comparison orders strings by code units.
    Keys are distinct, so the sorted array does not depend on the sorting
    algorithm. *)
Definition sort (ks : list string) : list string := merge_sort String.le ks.

(** One turn of the [reduce] of [sortObj]: [a[k] = sortObj(obj[k])], with
    the values [sortObj(obj[k])] looked up in [vals]. *)
Definition assign_sorted (vals : props) (a : props) (k : string) : props :=
  match get k vals with
  | Some v => obj_assign k v a
  | None => a
  end.

(** [sortObj] of attest.ts and verify.ts.  The values [sortObj(obj[k])] are
    computed for all properties first; the fold then reads them by key. *)
Fixpoint sortObj (obj : json) : json :=
  match obj with
  | JArr xs => JArr (map sortObj xs)
  | JObj ps =>
      JObj (fold_left (assign_sorted (map (fun kv => (kv.1, sortObj kv.2)) ps))
                      (sort (keys ps)) [])
  | _ => obj
  end.

Definition is_obj (v : json) : Prop :=
  match v with JObj _ => True | _ => False end.

(** An edit of an entry: the value of its property [k] becomes [v]. *)
Definition mutate (k : string) (v : json) (entry : json) : json :=
  match entry with
  | JObj ps => JObj (replace_prop k v ps)
  | _ => entry
  end.

(** Two values that differ at most in the order in which the keys of
    their objects, at any depth, were inserted: the same keys, with values
    that are again the same in this sense.  The elements of arrays
    correspond in order. *)
#[local] Unset Elimination Schemes.
Inductive same_up_to_key_order : json → json → Prop :=
| same_null : same_up_to_key_order JNull JNull
| same_bool b : same_up_to_key_order (JBool b) (JBool b)
| same_num n : same_up_to_key_order (JNum n) (JNum n)
| same_str s : same_up_to_key_order (JStr s) (JStr s)
| same_arr xs ys :
    Forall2 same_up_to_key_order xs ys → same_up_to_key_order (JArr xs) (JArr ys)
| same_obj ps qs :
    NoDup (keys ps) → NoDup (keys qs) →
    (∀ k, option_Forall2 same_up_to_key_order (get k ps) (get k qs)) →
    same_up_to_key_order (JObj ps) (JObj qs).
#[local] Set Elimination Schemes.

(** *** [JSON.stringify] *)

Definition string_of_Z (n : Z) : string :=
  DecimalString.NilEmpty.string_of_int (Z.to_int n).

Definition hex_digit (n : N) : ascii :=
  ascii_of_N (if (n <? 10)%N then 48 + n else 87 + n).

(** QuoteJSONString on one code unit. *)
Definition escape_unit (c : ascii) : string :=
  let n := N_of_ascii c in
  if (n =? 8)%N then "\b"
  else if (n =? 9)%N then "\t"
  else if (n =? 10)%N then "\n"
  else if (n =? 12)%N then "\f"
  else if (n =? 13)%N then "\r"
  else if (n =? 34)%N then String backslash (String dquote EmptyString)
  else if (n =? 92)%N then String backslash (String backslash EmptyString)
  else if (n <? 32)%N then
    "\u00" +:+ String (hex_digit (n / 16)) (String (hex_digit (n mod 16)) EmptyString)
  else String c EmptyString.

Fixpoint escape (s : string) : string :=
  match s with
  | EmptyString => EmptyString
  | String c s' => escape_unit c +:+ escape s'
  end.

Definition quote (s : string) : string :=
  String dquote (escape s +:+ String dquote EmptyString).

Fixpoint stringify (v : json) : string :=
  match v with
  | JNull => "null"
  | JBool true => "true"
  | JBool false => "false"
  | JNum n => string_of_Z n
  | JStr s => quote s
  | JArr xs => "[" +:+ String.concat "," (map stringify xs) +:+ "]"
  | JObj ps =>
      "{" +:+ String.concat ","
                (map (fun kv => quote (fst kv) +:+ ":" +:+ stringify (snd kv)) ps)
          +:+ "}"
  end.

(** The text of one member of an object. *)
Definition member_text (kv : string * json) : string :=
  quote kv.1 +:+ ":" +:+ stringify kv.2.

(** [stable] of attest.ts and verify.ts *)
Definition stable (o : json) : string := stringify (sortObj o).

(** *** Objects as the language builds them

    The own keys of an ordinary object are distinct, and they come array
    indices first, in ascending order, then the other strings. *)

Definition key_before (k1 k2 : string) : Prop :=
  match array_index k1, array_index k2 with
  | Some m, Some n => (m < n)%N
  | Some _, None => True
  | None, Some _ => False
  | None, None => True
  end.

Global Instance key_before_dec : RelDecision key_before.
Proof.
  intros k1 k2. unfold key_before.
  destruct (array_index k1), (array_index k2); apply _.
Defined.

Definition wf_keys (ks : list string) : Prop :=
  NoDup ks ∧ StronglySorted key_before ks.

Global Instance wf_keys_dec ks : Decision (wf_keys ks).
Proof. unfold wf_keys. apply _. Defined.

#[local] Unset Elimination Schemes.
Inductive wf : json → Prop :=
| wf_null : wf JNull
| wf_bool b : wf (JBool b)
| wf_num n : wf (JNum n)
| wf_str s : wf (JStr s)
| wf_arr xs : Forall wf xs → wf (JArr xs)
| wf_obj ps : wf_keys (keys ps) → Forall (fun kv => wf kv.2) ps → wf (JObj ps).
#[local] Set Elimination Schemes.

(** The number of values, elements and members of a value: the fuel that
    reading its text back takes. *)
Fixpoint jsize (v : json) : nat :=
  match v with
  | JArr xs => S (fold_right (fun x n => S (jsize x + n)) 0 xs)
  | JObj ps => S (fold_right (fun kv n => S (jsize kv.2 + n)) 0 ps)
  | _ => 1
  end.

(** *** [JSON.parse]

    A recursive-descent reader of the JSON grammar.  [None] stands for the
    [SyntaxError] that [JSON.parse] throws, and also for a text outside the
    embedding: a number with a fraction or an exponent, a [\u] escape
    above U+00FF. *)

Definition is_json_ws (c : ascii) : bool :=
  let n := N_of_ascii c in
  ((n =? 32) || (n =? 9) || (n =? 10) || (n =? 13))%N.

Fixpoint skip_ws (s : string) : string :=
  match s with
  | EmptyString => EmptyString
  | String c s' => if is_json_ws c then skip_ws s' else s
  end.

Definition hex_val (c : ascii) : option N :=
  let n := N_of_ascii c in
  if ((48 <=? n) && (n <=? 57))%N then Some (n - 48)%N
  else if ((97 <=? n) && (n <=? 102))%N then Some (n - 87)%N
  else if ((65 <=? n) && (n <=? 70))%N then Some (n - 55)%N
  else None.

(** The character after a backslash, [u] apart. *)
Definition unescape (e : ascii) : option ascii :=
  let n := N_of_ascii e in
  if (n =? 34)%N then Some dquote
  else if (n =? 92)%N then Some backslash
  else if (n =? 47)%N then Some (ascii_of_nat 47)
  else if (n =? 98)%N then Some (ascii_of_nat 8)
  else if (n =? 102)%N then Some (ascii_of_nat 12)
  else if (n =? 110)%N then Some (ascii_of_nat 10)
  else if (n =? 114)%N then Some (ascii_of_nat 13)
  else if (n =? 116)%N then Some (ascii_of_nat 9)
  else None.

Definition cons_char (c : ascii) (r : option (string * string)) : option (string * string) :=
  match r with
  | Some (str, rest) => Some (String c str, rest)
  | None => None
  end.

(** The characters of a string literal, after its opening quote. *)
Fixpoint parse_chars (s : string) : option (string * string) :=
  match s with
  | EmptyString => None
  | String c s1 =>
      if Ascii.eqb c dquote then Some (EmptyString, s1)
      else if Ascii.eqb c backslash then
        match s1 with
        | EmptyString => None
        | String e s2 =>
            match unescape e with
            | Some ch => cons_char ch (parse_chars s2)
            | None =>
                if Ascii.eqb e "u" then
                  match s2 with
                  | String h1 (String h2 (String h3 (String h4 s3))) =>
                      match hex_val h1, hex_val h2, hex_val h3, hex_val h4 with
                      | Some a, Some b, Some x, Some y =>
                          if ((a =? 0) && (b =? 0))%N
                          then cons_char (ascii_of_N (16 * x + y)) (parse_chars s3)
                          else None
                      | _, _, _, _ => None
                      end
                  | _ => None
                  end
                else None
            end
        end
      else if (N_of_ascii c <? 32)%N then None
      else cons_char c (parse_chars s1)
  end.

Definition is_num_char (c : ascii) : bool :=
  let n := N_of_ascii c in
  ((n =? 45) || (48 <=? n) && (n <=? 57))%N.

Fixpoint span_num (s : string) : string * string :=
  match s with
  | EmptyString => (EmptyString, EmptyString)
  | String c s' =>
      if is_num_char c then let (tok, rest) := span_num s' in (String c tok, rest)
      else (EmptyString, s)
  end.

(** An integer numeral of JSON: an optional minus sign, then [0] or digits
    that do not start with [0]. *)
Definition parse_number (tok : string) : option Z :=
  match DecimalString.NilEmpty.int_of_string tok with
  | Some d =>
      let z := Z.of_int d in
      if String.eqb (string_of_Z z) tok then Some z else None
  | None => None
  end.

Fixpoint starts_with (p s : string) : option string :=
  match p, s with
  | EmptyString, _ => Some s
  | String a p', String b s' => if Ascii.eqb a b then starts_with p' s' else None
  | _, EmptyString => None
  end.

Fixpoint parse_value (fuel : nat) (s : string) {struct fuel} : option (json * string) :=
  match fuel with
  | O => None
  | S fuel' =>
      match skip_ws s with
      | EmptyString => None
      | String c r as s0 =>
          if Ascii.eqb c "n" then
            match starts_with "null" s0 with Some r' => Some (JNull, r') | None => None end
          else if Ascii.eqb c "t" then
            match starts_with "true" s0 with Some r' => Some (JBool true, r') | None => None end
          else if Ascii.eqb c "f" then
            match starts_with "false" s0 with Some r' => Some (JBool false, r') | None => None end
          else if Ascii.eqb c dquote then
            match parse_chars r with Some (str, r') => Some (JStr str, r') | None => None end
          else if Ascii.eqb c "[" then
            match starts_with "]" (skip_ws r) with
            | Some r' => Some (JArr [], r')
            | None =>
                match parse_elems fuel' r with
                | Some (xs, r') => Some (JArr xs, r')
                | None => None
                end
            end
          else if Ascii.eqb c "{" then
            match starts_with "}" (skip_ws r) with
            | Some r' => Some (JObj [], r')
            | None =>
                match parse_members fuel' [] r with
                | Some (ps, r') => Some (JObj ps, r')
                | None => None
                end
            end
          else
            let (tok, r') := span_num s0 in
            match parse_number tok with Some z => Some (JNum z, r') | None => None end
      end
  end
with parse_elems (fuel : nat) (s : string) {struct fuel} : option (list json * string) :=
  match fuel with
  | O => None
  | S fuel' =>
      match parse_value fuel' s with
      | None => None
      | Some (v, r) =>
          match skip_ws r with
          | EmptyString => None
          | String c r' =>
              if Ascii.eqb c "," then
                match parse_elems fuel' r' with
                | Some (vs, r'') => Some (v :: vs, r'')
                | None => None
                end
              else if Ascii.eqb c "]" then Some ([v], r')
              else None
          end
      end
  end
with parse_members (fuel : nat) (acc : props) (s : string) {struct fuel}
  : option (props * string) :=
  match fuel with
  | O => None
  | S fuel' =>
      match starts_with (String dquote EmptyString) (skip_ws s) with
      | None => None
      | Some r =>
          match parse_chars r with
          | None => None
          | Some (k, r1) =>
              match starts_with ":" (skip_ws r1) with
              | None => None
              | Some r2 =>
                  match parse_value fuel' r2 with
                  | None => None
                  | Some (v, r3) =>
                      let acc' := define_prop k v acc in
                      match skip_ws r3 with
                      | EmptyString => None
                      | String c r4 =>
                          if Ascii.eqb c "," then parse_members fuel' acc' r4
                          else if Ascii.eqb c "}" then Some (acc', r4)
                          else None
                      end
                  end
              end
          end
      end
  end.

(** The first character of a text, tested by [p]; the empty text passes
    when [dflt] says so. *)
Definition head_is (p : ascii → bool) (dflt : bool) (s : string) : bool :=
  match s with
  | EmptyString => dflt
  | String c _ => p c
  end.

(** The characters that begin the text of a value. *)
Definition value_start (c : ascii) : bool :=
  is_num_char c || Ascii.eqb c "n" || Ascii.eqb c "t" || Ascii.eqb c "f"
  || Ascii.eqb c dquote || Ascii.eqb c "[" || Ascii.eqb c "{".

(** A text before which a numeral ends: it is empty, or it begins with a
    character that no numeral contains. *)
Definition number_ends (s : string) : bool :=
  head_is (fun c => negb (is_num_char c)) true s.

(** [JSON.parse(text)] *)
Definition parse (text : string) : option json :=
  match parse_value (S (String.length text)) text with
  | Some (v, r) => match skip_ws r with EmptyString => Some v | _ => None end
  | None => None
  end.

(** What it is for the text of [v] to be read back: with fuel for the size
    of [v], and before any text that ends a numeral, the reader returns [v]
    and leaves that text. *)
Definition reads_back (v : json) : Prop :=
  ∀ fuel rest, jsize v ≤ fuel → number_ends rest = true →
    parse_value fuel (stringify v +:+ rest) = Some (v, rest).

End JSON.

(** ** The file system, as [fs] reads and writes it *)

Module Fs.

(** The files that exist, by path, with their contents. *)
Abbreviation t := (gmap string string).

(** [fs.writeFileSync(path, data)] *)
Definition writeFileSync (path data : string) (fs : t) : t := <[path := data]> fs.

(** [fs.appendFileSync(path, data)]: the file is created when it does not
    exist. *)
Definition appendFileSync (path data : string) (fs : t) : t :=
  <[path := default EmptyString (fs !! path) +:+ data]> fs.

(** [fs.existsSync(path)] *)
Definition existsSync (path : string) (fs : t) : bool := bool_decide (is_Some (fs !! path)).

End Fs.

(** ** attest.ts: the chain builder *)

Module Attest.
Import Str JSON.

Record TaskAttestation := {
  run_id : string;
  task_id : string;
  model : string;
  dataset_sha256 : string;
  prompt_sha256 : string;
  code_sha256 : string;
  pass : bool;
  timestamp : string
}.

(** The object that carries a [TaskAttestation], with its properties in
    the order of the type and of the literal in run.ts. *)
Definition rec_props (rec : TaskAttestation) : props :=
  [ ("run_id", JStr (run_id rec));
    ("task_id", JStr (task_id rec));
    ("model", JStr (model rec));
    ("dataset_sha256", JStr (dataset_sha256 rec));
    ("prompt_sha256", JStr (prompt_sha256 rec));
    ("code_sha256", JStr (code_sha256 rec));
    ("pass", JBool (pass rec));
    ("timestamp", JStr (timestamp rec)) ].

(** A value of type [string | null]. *)
Definition json_of_prev (prevHash : option string) : json :=
  match prevHash with
  | Some h => JStr h
  | None => JNull
  end.

Section WithHash.
Variable sha256 : string → string.

Definition startChain (path : string) (fs : Fs.t) : Fs.t :=
  Fs.writeFileSync path EmptyString fs.

(** [{ ...rec, prevHash }] *)
Definition hashed_view (rec : props) (prevHash : option string) : json :=
  JObj (define_prop "prevHash" (json_of_prev prevHash) (spread rec [])).

(** [{ ...rec, idx, prevHash, hash }] *)
Definition chain_line (rec : props) (idx : Z) (prevHash : option string) (hash : string)
  : json :=
  JObj (define_prop "hash" (JStr hash)
          (define_prop "prevHash" (json_of_prev prevHash)
             (define_prop "idx" (JNum idx) (spread rec [])))).

Definition appendRecord (path : string) (rec : TaskAttestation)
    (prevHash : option string) (idx : Z) (fs : Fs.t) : string * Fs.t :=
  let contentToHash := stable (hashed_view (rec_props rec) prevHash) in
  let hash := sha256 contentToHash in
  let line := chain_line (rec_props rec) idx prevHash hash in
  (hash, Fs.appendFileSync path (stringify line +:+ String newline EmptyString) fs).

(** A sequence of appends, each with the hash that the previous one
    returned; every record comes with the [idx] that the caller passes. *)
Fixpoint appendEach (path : string) (items : list (TaskAttestation * Z))
    (prevHash : option string) (fs : Fs.t) : option string * Fs.t :=
  match items with
  | [] => (prevHash, fs)
  | (rec, idx) :: items' =>
      let (hash, fs') := appendRecord path rec prevHash idx fs in
      appendEach path items' (Some hash) fs'
  end.

(** The caller's numbering, [idx++] from [from]. *)
Fixpoint numbered (recs : list TaskAttestation) (from : Z) : list (TaskAttestation * Z) :=
  match recs with
  | [] => []
  | rec :: recs' => (rec, from) :: numbered recs' (from + 1)
  end.

(** The protocol of run.ts: [startChain], then one [appendRecord] per
    record, the first with [prevHash = null] and [idx = 0]. *)
Definition buildChain (path : string) (recs : list TaskAttestation) (fs : Fs.t) : Fs.t :=
  (appendEach path (numbered recs 0) None (startChain path fs)).2.

(** The entries that such a sequence of appends writes, as objects. *)
Fixpoint chain_entries (items : list (TaskAttestation * Z)) (prevHash : option string)
  : list json :=
  match items with
  | [] => []
  | (rec, idx) :: items' =>
      let hash := sha256 (stable (hashed_view (rec_props rec) prevHash)) in
      chain_line (rec_props rec) idx prevHash hash :: chain_entries items' (Some hash)
  end.

(** The text of a log: one entry per line, each line ended by a line feed. *)
Definition log_text (entries : list json) : string :=
  fold_right (fun e text => stringify e +:+ String newline text) EmptyString entries.

End WithHash.
End Attest.

(** ** verify.ts: the chain verifier *)

Module Verify.
Import Str JSON Attest.

(** How the script ends.  [idx] is the value that the message interpolates:
    the [idx] property of the offending line, [None] when the line has
    none ([undefined]). *)
Inductive outcome :=
| AttestationOK (records : nat)      (* "Attestation OK (n records)", exit code 0 *)
| ChainBreak (idx : option json)     (* "Chain break at idx ..: prevHash mismatch", exit code 1 *)
| HashMismatch (idx : option json)   (* "Hash mismatch at idx ..", exit code 1 *)
| Throws                             (* an exception that nothing catches *)
| Usage                              (* no file argument, exit code 1 *)
| FileNotFound.                      (* exit code 1 *)

(** [declaredPrev !== prevHash] negated: strict equality of a parsed value,
    or [undefined], with a value of type [string | null].  Objects and
    arrays are equal to neither. *)
Definition strict_eq_prev (declared : option json) (prevHash : option string) : bool :=
  match declared, prevHash with
  | Some JNull, None => true
  | Some (JStr d), Some h => String.eqb d h
  | _, _ => false
  end.

(** [recomputed !== hash] negated. *)
Definition strict_eq_str (v : option json) (s : string) : bool :=
  match v with
  | Some (JStr h) => String.eqb h s
  | _ => false
  end.

(** [const { hash, idx, prevHash: declaredPrev, ...rest } = line]: the rest
    is a new object with the other own enumerable properties. *)
Definition rest_props (line : json) : props :=
  spread (filter (fun kv => negb (String.eqb kv.1 "hash" || String.eqb kv.1 "idx"
                                  || String.eqb kv.1 "prevHash"))
                 (own_props line)) [].

(** [line.k] for a [k] that no prototype defines: an own property of an
    object; arrays, strings, numbers and booleans have none of the three
    names. *)
Definition field (k : string) (line : json) : option json :=
  match line with
  | JObj ps => get k ps
  | _ => None
  end.

(** [prevHash] as an entry declares it. *)
Definition declared_prev (line : json) : option string :=
  match field "prevHash" line with
  | Some (JStr h) => Some h
  | _ => None
  end.

(** What the verifier hashes for a line: [stable({ ...rest, prevHash })]. *)
Definition digest_input (prevHash : option string) (line : json) : string :=
  stable (hashed_view (rest_props line) prevHash).

(** The hash function does not send the two texts, when they differ, to the
    same digest. *)
Definition no_collision (sha256 : string → string) (s1 s2 : string) : Prop :=
  s1 ≠ s2 → sha256 s1 ≠ sha256 s2.

Section WithHash.
Variable sha256 : string → string.

(** One turn of the loop, after [JSON.parse]: the script exits with an
    outcome, or goes on with the new [prevHash].  Destructuring [null]
    throws a [TypeError]. *)
Definition check_entry (prevHash : option string) (line : json)
  : outcome + option string :=
  match line with
  | JNull => inl Throws
  | _ =>
      let hash := field "hash" line in
      let idx := field "idx" line in
      let declaredPrev := field "prevHash" line in
      if negb (strict_eq_prev declaredPrev prevHash) then inl (ChainBreak idx)
      else
        let recomputed := sha256 (stable (hashed_view (rest_props line) prevHash)) in
        if negb (strict_eq_str hash recomputed) then inl (HashMismatch idx)
        else inr (Some recomputed)
  end.

(** One turn of the loop on the text of a line. *)
Definition check_line (prevHash : option string) (text : string)
  : outcome + option string :=
  match parse text with
  | None => inl Throws
  | Some line => check_entry prevHash line
  end.

(** [for (let i = 0; i < lines.length; i++) { .. }] on the lines that are
    left: the script exits with an outcome, or the loop ends with the last
    [prevHash]. *)
Fixpoint verify_loop (prevHash : option string) (lines : list string)
  : outcome + option string :=
  match lines with
  | [] => inr prevHash
  | text :: lines' =>
      match check_line prevHash text with
      | inl o => inl o
      | inr prevHash' => verify_loop prevHash' lines'
      end
  end.

(** [fs.readFileSync(file, "utf-8").trim().split("\n").filter(Boolean)] *)
Definition read_lines (content : string) : list string :=
  filter (fun l => truthy l = true) (split_nl (trim content)).

Definition verify_content (content : string) : outcome :=
  let lines := read_lines content in
  match verify_loop None lines with
  | inl o => o
  | inr _ => AttestationOK (length lines)
  end.

(** The script, on its command-line argument and the file system. *)
Definition verify (file : option string) (fs : Fs.t) : outcome :=
  match file with
  | None => Usage
  | Some path =>
      if String.eqb path EmptyString then Usage
      else match fs !! path with
           | None => FileNotFound
           | Some content => verify_content content
           end
  end.

End WithHash.
End Verify.

(** ** run.ts: the attempt loop and the run *)

Module Run.
Import Str JSON Attest.

Record Task := { id : string; prompt : string; tests : list string }.

(** The environment variables that the run reads, as numbers where the
    script applies [Number]; [None] is an unset variable.  [K_ATTEMPTS] is
    an integer. *)
Record Env := {
  MODEL : string;
  K_ATTEMPTS_var : option Z;
  EVAL_TEMPERATURE_var : option Q;
  EVAL_TOP_P_var : option Q;
  SEED_var : option Z
}.

Definition K_ATTEMPTS (e : Env) : Z := default 1%Z (K_ATTEMPTS_var e).
Definition EVAL_TEMPERATURE (e : Env) : Q :=
  if (K_ATTEMPTS e =? 1)%Z then 0%Q else default (7 # 10)%Q (EVAL_TEMPERATURE_var e).
Definition EVAL_TOP_P (e : Env) : Q :=
  if (K_ATTEMPTS e =? 1)%Z then 1%Q else default (95 # 100)%Q (EVAL_TOP_P_var e).

Definition systemPreamble : string :=
  "You are a helpful coding assistant. Return ONLY a JavaScript function that solves the task. "
  +:+ "No explanations. Wrap the solution in a single ```javascript code block.".

(** The body of the request that [chat] posts. *)
Record ChatBody := {
  b_model : string;
  b_temperature : Q;
  b_top_p : Q;
  b_max_tokens : Z;
  b_messages : list (string * string);
  b_seed : option Z
}.

Definition chat_body (e : Env) (userPrompt : string) (seed : option Z) : ChatBody :=
  {| b_model := MODEL e;
     b_temperature := EVAL_TEMPERATURE e;
     b_top_p := EVAL_TOP_P e;
     b_max_tokens := 256;
     b_messages := [("system", systemPreamble); ("user", userPrompt)];
     b_seed := seed |}.

(** The collaborators of the run.  Each interaction with the outside takes
    the number of interactions made before it, so that a collaborator may
    answer the same question differently each time.
    - [fetch]: the content and the latency of a completion, or [None] when
      the request fails and [chat] throws;
    - [vm]: what [runInSandbox(code, testExpr)] does, [Some b] when it
      returns [b], [None] when it throws (a syntax error, a runtime error,
      a timeout);
    - [clock]: [new Date().toISOString()];
    - [encode_length]: [enc.encode(s).length]. *)
Record World := {
  fetch : nat → ChatBody → option (string * Z);
  vm : nat → string → string → option bool;
  clock : nat → string;
  encode_length : string → Z
}.

(** *** [extractCode] *)

(** The first occurrence of [pat] in [s]: the text before it and the text
    after it. *)
Fixpoint find_sub (pat s : string) : option (string * string) :=
  match starts_with pat s with
  | Some after => Some (EmptyString, after)
  | None =>
      match s with
      | EmptyString => None
      | String c s' =>
          match find_sub pat s' with
          | Some (before, after) => Some (String c before, after)
          | None => None
          end
      end
  end.

Definition lower (c : ascii) : ascii :=
  let n := N_of_ascii c in
  if ((65 <=? n) && (n <=? 90))%N then ascii_of_N (n + 32) else c.

Fixpoint starts_with_ci (p s : string) : option string :=
  match p, s with
  | EmptyString, _ => Some s
  | String a p', String b s' =>
      if Ascii.eqb a (lower b) then starts_with_ci p' s' else None
  | _, EmptyString => None
  end.

(** [(?:javascript|js)?] under the flag [i] *)
Definition skip_lang (s : string) : string :=
  match starts_with_ci "javascript" s with
  | Some r => r
  | None => match starts_with_ci "js" s with Some r => r | None => s end
  end.

Definition fence : string := "```".

(** [md.match(/```(?:javascript|js)?\s*([\s\S]*?)```/i)]: the group of the
    leftmost match, which opens at the first fence when a later fence
    closes it. *)
Definition match_fence (md : string) : option string :=
  match find_sub fence md with
  | None => None
  | Some (_, after) =>
      match find_sub fence (trim_start (skip_lang after)) with
      | Some (body, _) => Some body
      | None => None
      end
  end.

Definition extractCode (md : string) : string :=
  trim (match match_fence md with Some m => m | None => md end).

(** *** The loops *)

Record Attempt := {
  a_idx : Z;
  a_seed : option Z;
  a_latency_ms : Z;
  a_tokens_input : Z;
  a_tokens_output : Z;
  a_pass : bool
}.

Record TaskResult := {
  r_id : string;
  r_prompt_sha256 : string;
  r_pass1 : bool;
  r_passk : bool;
  r_attempts : list Attempt
}.

(** The variables of the module that the loops update, the files, the
    number of interactions made so far, and the requests sent so far. *)
Record State := {
  fs : Fs.t;
  prevHash : option string;
  idx : Z;
  pass1 : Z;
  passk : Z;
  totalInputTokens : Z;
  totalOutputTokens : Z;
  totalLatencyMs : Z;
  results : list TaskResult;
  tick : nat;
  sent : list ChatBody
}.

(** The variables of one turn of the loop over the tasks. *)
Record Locals := {
  attempts : list Attempt;
  solved : bool;
  chosenCode : string;
  firstAttemptPass : bool
}.

(** A step that may throw; an exception that nothing catches ends the run
    in the state it has reached. *)
Inductive result (A : Type) : Type :=
| Done (a : A)
| Thrown (st : State).
Global Arguments Done {A} a.
Global Arguments Thrown {A} st.

(** [let ok = false; try { ok = runInSandbox(code, test); } catch { ok = false; }] *)
Definition verdict (outcome : option bool) : bool :=
  match outcome with
  | Some b => b
  | None => false
  end.


(** The sampling parameters of a request. *)
Definition deterministic (b : ChatBody) : Prop :=
  b_temperature b = 0%Q ∧ b_top_p b = 1%Q.

(** A request that carries the sampling parameters that the script
    derives from the environment. *)
Definition from_env (e : Env) (b : ChatBody) : Prop :=
  b_temperature b = EVAL_TEMPERATURE e ∧ b_top_p b = EVAL_TOP_P e.

Section WithWorld.
Variable sha256 : string → string.
Variable w : World.
Variable e : Env.

(** One turn of [for (const test of t.tests)]. *)
Definition test_step (code : string) (acc : bool * list (string * bool) * nat)
    (test : string) : bool * list (string * bool) * nat :=
  let '(allPass, verdicts, n) := acc in
  let ok := verdict (vm w n code test) in
  (if negb ok then false else allPass, verdicts ++ [(test, ok)], S n).

Definition run_tests (code : string) (tests : list string) (n : nat)
  : bool * list (string * bool) * nat :=
  fold_left (test_step code) tests (true, [], n).

(** [for (let a = 0; a < K_ATTEMPTS; a++) { .. }] from [a] on, with [n]
    turns left. *)
Fixpoint attempt_loop (t : Task) (n : nat) (a : Z) (loc : Locals) (st : State)
  : result (Locals * State) :=
  match n with
  | O => Done (loc, st)
  | S n' =>
      let seed := match SEED_var e with Some s => Some (s + a)%Z | None => None end in
      let body := chat_body e (prompt t) seed in
      let sent' := sent st ++ [body] in
      match fetch w (tick st) body with
      | None =>
          Thrown {| fs := fs st; prevHash := prevHash st; idx := idx st;
                    pass1 := pass1 st; passk := passk st;
                    totalInputTokens := totalInputTokens st;
                    totalOutputTokens := totalOutputTokens st;
                    totalLatencyMs := totalLatencyMs st;
                    results := results st; tick := S (tick st); sent := sent' |}
      | Some (content, latency_ms) =>
          let code := extractCode content in
          let inputTokens := encode_length w (prompt t) in
          let outputTokens := encode_length w code in
          let '(allPass, verdicts, n1) := run_tests code (tests t) (S (tick st)) in
          let st' :=
            {| fs := fs st; prevHash := prevHash st; idx := idx st;
               pass1 := pass1 st; passk := passk st;
               totalInputTokens := (totalInputTokens st + inputTokens)%Z;
               totalOutputTokens := (totalOutputTokens st + outputTokens)%Z;
               totalLatencyMs := (totalLatencyMs st + latency_ms)%Z;
               results := results st; tick := n1; sent := sent' |} in
          let attempts' :=
            attempts loc ++ [ {| a_idx := (a + 1)%Z; a_seed := seed;
                                 a_latency_ms := latency_ms;
                                 a_tokens_input := inputTokens;
                                 a_tokens_output := outputTokens;
                                 a_pass := allPass |} ] in
          let first := if (a =? 0)%Z && allPass then true else firstAttemptPass loc in
          if allPass then
            Done ({| attempts := attempts'; solved := true; chosenCode := code;
                     firstAttemptPass := first |}, st')
          else
            attempt_loop t n' (a + 1)%Z
              {| attempts := attempts'; solved := solved loc;
                 chosenCode := chosenCode loc; firstAttemptPass := first |} st'
      end
  end.

(** The record that the run attests for a task. *)
Definition attestation (runId dataset_sha256 : string) (t : Task) (loc : Locals)
    (now : string) : TaskAttestation :=
  {| run_id := runId;
     task_id := id t;
     model := MODEL e;
     Attest.dataset_sha256 := dataset_sha256;
     prompt_sha256 := sha256 (prompt t);
     code_sha256 := if truthy (chosenCode loc) then sha256 (chosenCode loc) else "none";
     pass := solved loc;
     timestamp := now |}.

(** One turn of [for (const t of tasks)].  The script also computes
    [codeHash], the digest of [chosenCode] or of the empty string, under the
    comment "pick code hash: winning attempt's code if solved; otherwise
    last attempt's", and does not use it: the record takes [code_sha256]
    from [chosenCode] as [attestation] does. *)
Definition run_task (runId dataset_sha256 attestPath : string) (st : State) (t : Task)
  : result State :=
  match attempt_loop t (Z.to_nat (K_ATTEMPTS e)) 0
          {| attempts := []; solved := false; chosenCode := EmptyString;
             firstAttemptPass := false |} st with
  | Thrown st' => Thrown st'
  | Done (loc, st1) =>
      let rec := attestation runId dataset_sha256 t loc (clock w (tick st1)) in
      let (hash, fs') := appendRecord sha256 attestPath rec (prevHash st1) (idx st1) (fs st1) in
      Done {| fs := fs'; prevHash := Some hash; idx := (idx st1 + 1)%Z;
              pass1 := if firstAttemptPass loc then (pass1 st1 + 1)%Z else pass1 st1;
              passk := if solved loc then (passk st1 + 1)%Z else passk st1;
              totalInputTokens := totalInputTokens st1;
              totalOutputTokens := totalOutputTokens st1;
              totalLatencyMs := totalLatencyMs st1;
              results := results st1 ++
                [ {| r_id := id t; r_prompt_sha256 := sha256 (prompt t);
                     r_pass1 := firstAttemptPass loc; r_passk := solved loc;
                     r_attempts := attempts loc |} ];
              tick := S (tick st1); sent := sent st1 |}
  end.

Fixpoint run_tasks (runId dataset_sha256 attestPath : string) (tasks : list Task)
    (st : State) : result State :=
  match tasks with
  | [] => Done st
  | t :: tasks' =>
      match run_task runId dataset_sha256 attestPath st t with
      | Thrown st' => Thrown st'
      | Done st' => run_tasks runId dataset_sha256 attestPath tasks' st'
      end
  end.

(** The summary that the run writes when it completes. *)
Record Summary := {
  s_run_id : string;
  s_model : string;
  s_temperature : Q;
  s_top_p : Q;
  s_dataset_sha256 : string;
  s_k : Z;
  s_pass1 : Z;
  s_passk : Z;
  s_total : Z;
  s_latency_ms : Z;
  s_tokens_input : Z;
  s_tokens_output : Z;
  s_results : list TaskResult;
  s_attestation_file : string
}.

Definition attestPath (runId : string) : string :=
  "results/attest-" +:+ runId +:+ ".jsonl".

Definition initial (files : Fs.t) (runId : string) : State :=
  {| fs := startChain (attestPath runId) files; prevHash := None; idx := 0;
     pass1 := 0; passk := 0; totalInputTokens := 0; totalOutputTokens := 0;
     totalLatencyMs := 0; results := []; tick := 0; sent := [] |}.

(** The script, after its guards and after the dataset is read and
    validated: [runId] is [String(Date.now())], [datasetRaw] the text of
    the dataset and [tasks] its content.  The summary is returned; the file
    that the script writes it to is left out. *)
Definition main (runId datasetRaw : string) (tasks : list Task) (files : Fs.t)
  : result (Summary * State) :=
  match run_tasks runId (sha256 datasetRaw) (attestPath runId) tasks
          (initial files runId) with
  | Thrown st => Thrown st
  | Done st =>
      Done ({| s_run_id := runId; s_model := MODEL e;
               s_temperature := EVAL_TEMPERATURE e; s_top_p := EVAL_TOP_P e;
               s_dataset_sha256 := sha256 datasetRaw; s_k := K_ATTEMPTS e;
               s_pass1 := pass1 st; s_passk := passk st;
               s_total := Z.of_nat (length tasks);
               s_latency_ms := totalLatencyMs st;
               s_tokens_input := totalInputTokens st;
               s_tokens_output := totalOutputTokens st;
               s_results := results st;
               s_attestation_file := attestPath runId |}, st)
  end.

(** The state of a run whose log holds the records [items], appended in
    this order: the file has their entries, and [prevHash] is the hash of
    the last one. *)
Definition logged (path : string) (items : list (TaskAttestation * Z)) (st : State) : Prop :=
  fs st !! path = Some (log_text (chain_entries sha256 items None))
  ∧ Verify.verify_loop sha256 None (map stringify (chain_entries sha256 items None))
    = inr (prevHash st).

End WithWorld.
End Run.

(** ** A small run, for examples

    Three tasks.  The model answers the first with a function that passes
    its test.  For the others it answers with a wrong function, except at
    the third attempt when the seed is 7, where it answers with a function
    that passes the test of the second task.  The sandbox throws on the
    test of the third task, [boom()]. *)

Module Demo.
Import Run.

Definition add_code : string := "function add(a,b){return a+b}".
Definition sub_code : string := "function sub(a,b){return a-b}".
Definition wrong_code : string := "function sub(a,b){return a+b}".

Definition fenced (code : string) : string :=
  "```javascript" +:+ String Str.newline (code +:+ String Str.newline "```").

Definition user_prompt (b : ChatBody) : string :=
  match b_messages b with
  | [_; (_, p)] => p
  | _ => EmptyString
  end.

Definition world : World :=
  {| fetch := fun _ b =>
       if String.eqb (user_prompt b) "Write add(a,b)." then Some (fenced add_code, 120%Z)
       else if bool_decide (b_seed b = Some 9%Z) then Some (fenced sub_code, 95%Z)
       else Some ("Here you go: " +:+ wrong_code, 80%Z);
     vm := fun _ code test =>
       if String.eqb test "boom()" then None
       else if String.eqb test "add(1,2)===3" then Some (String.eqb code add_code)
       else if String.eqb test "sub(3,1)===2" then Some (String.eqb code sub_code)
       else Some false;
     clock := fun _ => "2024-01-01T00:00:00.000Z";
     encode_length := fun s => Z.of_nat (String.length s) |}.

Definition tasks : list Task :=
  [ {| id := "add"; prompt := "Write add(a,b)."; tests := ["add(1,2)===3"] |};
    {| id := "sub"; prompt := "Write sub(a,b)."; tests := ["sub(3,1)===2"] |};
    {| id := "boom"; prompt := "Write boom()."; tests := ["sub(3,1)===2"; "boom()"] |} ].

(** [K_ATTEMPTS] unset, and sampling variables that a run with [k = 1]
    must not use. *)
Definition env_k1 : Env :=
  {| MODEL := "gpt-4o-mini"; K_ATTEMPTS_var := None;
     EVAL_TEMPERATURE_var := Some (9 # 10)%Q; EVAL_TOP_P_var := Some (1 # 2)%Q;
     SEED_var := None |}.

Definition env_k3 : Env :=
  {| MODEL := "gpt-4o-mini"; K_ATTEMPTS_var := Some 3%Z;
     EVAL_TEMPERATURE_var := None; EVAL_TOP_P_var := None;
     SEED_var := Some 7%Z |}.

Definition run (e : Env) : result (Summary * State) :=
  main SHA256.sha256 world e "1700000000000" "[dataset]" tasks ∅.

End Demo.

(** ** Values of JavaScript read from parsed JSON *)

Module Access.
Import Str JSON.

(** [v.k] and [v[k]] on a value that is neither [null] nor [undefined];
    [None] is [undefined].  An object answers with its own property, an
    array and a string with their elements and their [length].  The names
    that the scripts read this way ([choices], [delta], [content], [text],
    [results], [attempts], [latency_ms], an index) are defined by no
    prototype. *)
Definition member (v : json) (k : string) : option json :=
  match v with
  | JObj ps => get k ps
  | JArr xs =>
      if String.eqb k "length" then Some (JNum (Z.of_nat (length xs)))
      else match array_index k with
           | Some n => xs !! N.to_nat n
           | None => None
           end
  | JStr s =>
      if String.eqb k "length" then Some (JNum (Z.of_nat (String.length s)))
      else match array_index k with
           | Some n => (fun c => JStr (String c EmptyString)) <$> String.get (N.to_nat n) s
           | None => None
           end
  | _ => None
  end.

(** [v?.k] and [v?.[k]] *)
Definition opt_member (v : option json) (k : string) : option json :=
  match v with
  | None | Some JNull => None
  | Some v' => member v' k
  end.

(** [a ?? b] *)
Definition nullish (a b : option json) : option json :=
  match a with
  | None | Some JNull => b
  | Some _ => a
  end.

(** [Boolean(v)] *)
Definition to_boolean (v : option json) : bool :=
  match v with
  | None | Some JNull => false
  | Some (JBool b) => b
  | Some (JNum n) => negb (n =? 0)%Z
  | Some (JStr s) => Str.truthy s
  | Some (JArr _) | Some (JObj _) => true
  end.

End Access.

(** ** The summarize script: the median of the latencies *)

Module Summarize.
Import Str JSON Access.

(** [Math.round(x / 2)] for an integer [x]: a half is rounded up. *)
Definition round_half (x : Z) : Z := ((x + 1) / 2)%Z.

(** [median(ns)].  The comparison [(x, y) => x - y] sorts numbers in
    ascending order. *)
Definition median (ns : list Z) : Z :=
  if bool_decide (length ns = 0%nat) then 0%Z
  else
    let a := merge_sort Z.le ns in
    let m := (length a / 2)%nat in
    if bool_decide (length a mod 2 ≠ 0)%nat then default 0%Z (a !! m)
    else round_half (default 0%Z (a !! (m - 1)%nat) + default 0%Z (a !! m)).

(** The latency of one result, from either shape: [r.latency_ms] when it
    is a number, else [r.attempts[0].latency_ms] when [r.attempts] is an
    array and that latency is neither [null] nor [undefined], else 0. *)
Definition latency_of (r : json) : json :=
  match opt_member (Some r) "latency_ms" with
  | Some (JNum n) => JNum n
  | _ =>
      match opt_member (Some r) "attempts" with
      | Some (JArr xs) =>
          match opt_member (member (JArr xs) "0") "latency_ms" with
          | None | Some JNull => JNum 0
          | Some v => v
          end
      | _ => JNum 0
      end
  end.

(** [(run.results ?? []).map(..)].  [None] is a [TypeError]: [run] is
    [null], whose properties the script reads before, or [run.results] is
    not an array and has no [map]. *)
Definition latencies (run : json) : option (list json) :=
  match run with
  | JNull => None
  | _ =>
      match nullish (member run "results") (Some (JArr [])) with
      | Some (JArr rs) => Some (map latency_of rs)
      | _ => None
      end
  end.

End Summarize.

(** ** run.ts: the results of the summary *)

Module Report.
Import Str JSON Run.

(** The object that the attempt loop pushes for an attempt. *)
Definition attempt_json (a : Attempt) : json :=
  JObj [ ("idx", JNum (a_idx a));
         ("seed", match a_seed a with Some s => JNum s | None => JNull end);
         ("latency_ms", JNum (a_latency_ms a));
         ("tokens", JObj [ ("input", JNum (a_tokens_input a));
                           ("output", JNum (a_tokens_output a)) ]);
         ("pass", JBool (a_pass a)) ].

(** The object that the loop over the tasks pushes for a task. *)
Definition result_json (r : TaskResult) : json :=
  JObj [ ("id", JStr (r_id r));
         ("prompt_sha256", JStr (r_prompt_sha256 r));
         ("pass1", JBool (r_pass1 r));
         ("passk", JBool (r_passk r));
         ("attempts", JArr (map attempt_json (r_attempts r))) ].

(** The latency that the summarize script takes for a task: that of its
    first attempt. *)
Definition first_latency (r : TaskResult) : Z :=
  match r_attempts r with
  | a :: _ => a_latency_ms a
  | [] => 0%Z
  end.

End Report.

(** ** run.ts: the environment, the guards and the request *)

Module Config.
Import Str JSON.

(** The variables of [process.env] that the script reads; [None] is a
    variable that is not set. *)
Record ProcessEnv := {
  BASE_URL_var : option string;
  API_KEY_var : option string;
  OPENAI_API_KEY_var : option string;
  MODEL_var : option string;
  TOKENIZER_var : option string
}.

(** [v || d] for a variable of the environment. *)
Definition or_default (v : option string) (d : string) : string :=
  match v with
  | Some s => if truthy s then s else d
  | None => d
  end.

Definition BASE_URL (env : ProcessEnv) : string :=
  or_default (BASE_URL_var env) "https://api.openai.com/v1".
Definition API_KEY (env : ProcessEnv) : string :=
  or_default (API_KEY_var env) (or_default (OPENAI_API_KEY_var env) EmptyString).
Definition MODEL (env : ProcessEnv) : string :=
  or_default (MODEL_var env) EmptyString.

(** [/^https?:\/\/localhost/.test(url)] *)
Definition is_localhost (url : string) : bool :=
  match starts_with "http" url with
  | Some r =>
      let r' := match starts_with "s" r with Some r1 => r1 | None => r end in
      match starts_with "://localhost" r' with Some _ => true | None => false end
  | None => false
  end.

(** How the guards at the top of the script end. *)
Inductive guard :=
| Proceed
| ModelRequired      (* throws Error("MODEL required") *)
| ApiKeyRequired.    (* throws Error("API_KEY required for hosted APIs") *)

Definition guards (env : ProcessEnv) : guard :=
  if negb (truthy (MODEL env)) then ModelRequired
  else if negb (truthy (API_KEY env)) && negb (is_localhost (BASE_URL env))
  then ApiKeyRequired
  else Proceed.

(** [s.replace(/\/+$/, ..)] with the empty string: the slashes at the end
    of [s] are removed. *)
Fixpoint trimSlash (s : string) : string :=
  match s with
  | EmptyString => EmptyString
  | String c s' =>
      match trimSlash s' with
      | EmptyString => if Ascii.eqb c "/" then EmptyString else String c EmptyString
      | t => String c t
      end
  end.

(** A text of [n] slashes. *)
Fixpoint slashes (n : nat) : string :=
  match n with
  | O => EmptyString
  | S n' => String "/" (slashes n')
  end.

(** The address that [chat] posts to. *)
Definition chat_url (env : ProcessEnv) : string :=
  trimSlash (BASE_URL env) +:+ "/chat/completions".

(** The headers of the request: the spread adds [Authorization] when
    [API_KEY] is not empty. *)
Definition headers (env : ProcessEnv) : list (string * string) :=
  ("Content-Type", "application/json")
  :: (if truthy (API_KEY env) then [("Authorization", "Bearer " +:+ API_KEY env)] else []).

(** [/pat/i.test(s)] for a pattern of lower-case letters, digits and
    hyphens: [pat] occurs in [s], letters compared without case. *)
Fixpoint contains_ci (pat s : string) : bool :=
  match Run.starts_with_ci pat s with
  | Some _ => true
  | None =>
      match s with
      | EmptyString => false
      | String _ s' => contains_ci pat s'
      end
  end.

Definition chooseEncoding (model : string) : string :=
  if contains_ci "gpt-4o" model || contains_ci "-4o" model then "o200k_base"
  else "cl100k_base".

Definition encName (env : ProcessEnv) : string :=
  or_default (TOKENIZER_var env) (chooseEncoding (MODEL env)).

End Config.

(** ** scripts/stream.ts: the reader of the event stream

    The response is read in chunks; the decoder turns each chunk into a
    piece of text, and the pieces, put end to end, are the text of the
    response.  The events of the stream end with an empty line.  A [data:]
    line of an event carries the text of a JSON value, which holds a piece
    of the answer, or the mark [[DONE]].  A data line whose JSON is outside
    the embedding is read as one that does not parse. *)

Module Stream.
Import Str JSON Access.

(** The separator of events, a line feed after a line feed. *)
Definition blank_line : string := String newline (String newline EmptyString).

(** [s.slice(n)] *)
Fixpoint slice_from (n : nat) (s : string) : string :=
  match n, s with
  | O, _ => s
  | S n', String _ s' => slice_from n' s'
  | S _, EmptyString => EmptyString
  end.

(** [l.startsWith("data: ")] *)
Definition is_data (l : string) : bool :=
  match starts_with "data: " l with Some _ => true | None => false end.

(** [evt.split("\n").filter((l) => l.startsWith("data: "))] *)
Definition data_lines (evt : string) : list string :=
  filter (fun l => is_data l = true) (split_nl evt).

(** [line.slice(6).trim()] *)
Definition data_of (line : string) : string := trim (slice_from 6 line).

(** [json?.choices?.[0]?.delta?.content ?? json?.choices?.[0]?.text ?? ..],
    the last operand being the empty string. *)
Definition delta_of (parsed : json) : option json :=
  let choice := opt_member (opt_member (Some parsed) "choices") "0" in
  nullish (nullish (opt_member (opt_member choice "delta") "content")
                   (opt_member choice "text"))
          (Some (JStr EmptyString)).

(** The variables that the loops update: the text received and not yet
    cut into events, the answer so far, and the time of the first piece. *)
Record Reader := {
  buf : string;
  text : string;
  tFirst : option Z
}.

Definition init : Reader :=
  {| buf := EmptyString; text := EmptyString; tFirst := None |}.

Definition with_buf (b : string) (st : Reader) : Reader :=
  {| buf := b; text := text st; tFirst := tFirst st |}.

Section WithClock.
(** [Date.now()], by the number of calls made before: the script calls it
    once before the request, once when the first piece arrives, and once
    when the stream has ended. *)
Variable now : nat → Z.

(** The body of the [try]: a text that does not parse throws, and so does
    [process.stdout.write] when it is given a value that is not a string;
    the [catch] ignores both. *)
Definition on_data (st : Reader) (data : string) : Reader :=
  match parse data with
  | None => st
  | Some parsed =>
      let delta := delta_of parsed in
      if to_boolean delta then
        let first := match tFirst st with None => Some (now 1%nat) | Some t => Some t end in
        match delta with
        | Some (JStr d) => {| buf := buf st; text := text st +:+ d; tFirst := first |}
        | _ => {| buf := buf st; text := text st; tFirst := first |}
        end
      else st
  end.

(** [for (const line of lines) { .. }]: at the mark [[DONE]] the buffer is
    emptied and the loop over the lines is left. *)
Fixpoint on_lines (st : Reader) (lines : list string) : Reader :=
  match lines with
  | [] => st
  | line :: lines' =>
      if String.eqb (data_of line) "[DONE]" then with_buf EmptyString st
      else on_lines (on_data st (data_of line)) lines'
  end.

(** [while ((idx = buf.indexOf("\n\n")) !== -1) { .. }], with [fuel] turns
    at most. *)
Fixpoint drain (fuel : nat) (st : Reader) : Reader :=
  match fuel with
  | O => st
  | S fuel' =>
      match Run.find_sub blank_line (buf st) with
      | None => st
      | Some (before, after) =>
          drain fuel' (on_lines (with_buf after st) (data_lines (trim before)))
      end
  end.

(** One turn of [for await (const chunk of res.body)]: the piece is added
    to the buffer, and the events that are complete are taken from it.  Each
    turn of the inner loop shortens the buffer, so its length is fuel
    enough. *)
Definition feed (st : Reader) (piece : string) : Reader :=
  drain (String.length (buf st +:+ piece)) (with_buf (buf st +:+ piece) st).

(** The state when the stream has ended. *)
Definition stream (pieces : list string) : Reader := fold_left feed pieces init.

(** The timings of the summary.  The rates, which divide in floating point
    and round with [toFixed], are left out. *)
Record Timings := {
  ttft_ms : Z;
  generation_ms : Z;
  total_ms : Z
}.

Definition timings (st : Reader) : Timings :=
  let t0 := now 0%nat in
  let t1 := now (match tFirst st with Some _ => 2%nat | None => 1%nat end) in
  let first := default t1 (tFirst st) in
  {| ttft_ms := (first - t0)%Z; generation_ms := (t1 - first)%Z; total_ms := (t1 - t0)%Z |}.

(** Until a piece of the answer has come, the answer is empty; the time of
    the first piece is taken once. *)
Definition first_once (st : Reader) : Prop :=
  (tFirst st = None ∧ text st = EmptyString) ∨ tFirst st = Some (now 1%nat).

End WithClock.

(** *** The events of a response *)

(** The text of a response: its pieces, end to end. *)
Definition whole (pieces : list string) : string :=
  fold_right String.append EmptyString pieces.

(** The events that a text holds, each ended by an empty line, and what
    is left after the last of them. *)
Fixpoint events (s : string) : list string * string :=
  match s with
  | EmptyString => ([], EmptyString)
  | String c s' =>
      match (if Ascii.eqb c newline then starts_with (String newline EmptyString) s'
             else None) with
      | Some _ =>
          match s' with
          | String _ s'' => let (evs, rest) := events s'' in (EmptyString :: evs, rest)
          | EmptyString => ([], s)
          end
      | None =>
          match events s' with
          | ([], rest) => ([], String c rest)
          | (e :: evs, rest) => (String c e :: evs, rest)
          end
      end
  end.

(** An event with a data line that carries the mark [[DONE]]. *)
Definition has_done (evt : string) : bool :=
  existsb (fun l => String.eqb (data_of l) "[DONE]") (data_lines (trim evt)).

(** A text none of whose events carries the mark. *)
Definition done_free (s : string) : Prop :=
  Forall (fun e => has_done e = false) (events s).1.

(** A response in which the mark [[DONE]], if it comes, comes with the
    piece that ends the response: with [b] in the buffer, every piece that
    a piece which is not empty follows completes only events without the
    mark. *)
Fixpoint done_last (b : string) (pieces : list string) : Prop :=
  match pieces with
  | [] => True
  | c :: cs =>
      (done_free (b +:+ c) ∧ done_last (events (b +:+ c)).2 cs)
      ∨ whole cs = EmptyString
  end.

(** The event that carries the value [v] on one data line. *)
Definition data_event (v : json) : string :=
  "data: " +:+ stringify v +:+ blank_line.

(** The value that a server sends for a piece [d] of the answer, and the
    event that ends the answer. *)
Definition payload (d : string) : json :=
  JObj [("choices", JArr [JObj [("delta", JObj [("content", JStr d)])]])].

Definition done_event : string := "data: [DONE]" +:+ blank_line.

(** The piece of the answer that a value carries: its delta when that is
    a string. *)
Definition piece_of (v : json) : string :=
  match delta_of v with
  | Some (JStr d) => d
  | _ => EmptyString
  end.

End Stream.

(** ** A small response, for examples *)

Module StreamDemo.
Import Str Stream.

(** The text [s] cut into pieces of the given lengths; the last piece is
    what is left. *)
Fixpoint cut (ns : list nat) (s : string) : list string :=
  match ns with
  | [] => [s]
  | n :: ns' => String.substring 0 n s :: cut ns' (slice_from n s)
  end.

(** Two pieces of an answer, a comment between them, and the end. *)
Definition response : string :=
  data_event (payload "Hello, ") +:+ ": keep-alive" +:+ blank_line
  +:+ data_event (payload "world") +:+ done_event.

Definition answer_only : string :=
  data_event (payload "Hello, ") +:+ data_event (payload "world") +:+ done_event.

Definition clock (n : nat) : Z := (1000 + 250 * Z.of_nat n)%Z.

End StreamDemo.

(** ** The hashes of a chain, and edits of its entries *)

Module Chain.
Import Str JSON Attest.

Section WithHash.
Variable sha256 : string → string.

(** The hashes that a sequence of appends returns, in order. *)
Fixpoint hashes (items : list (TaskAttestation * Z)) (prevHash : option string)
  : list string :=
  match items with
  | [] => []
  | (rec, idx) :: items' =>
      let hash := sha256 (stable (hashed_view (rec_props rec) prevHash)) in
      hash :: hashes items' (Some hash)
  end.

End WithHash.

(** The [prevHash] that the entry at position [k] of a chain declares, and
    that the verifier expects at line [k]: [null] at the first, then the
    hash of the entry before. *)
Definition prev_at (hs : list string) (k : nat) : option string :=
  match k with
  | O => None
  | S k' => hs !! k'
  end.

(** An entry that is given a property [k] with the value [v]: the object
    that [JSON.parse] returns for the text of the entry with the member
    [k: v] added at its end. *)
Definition set_member (k : string) (v : json) (entry : json) : json :=
  match entry with
  | JObj ps => JObj (define_prop k v ps)
  | _ => entry
  end.

(** A value none of whose objects, at any depth, has the key [__proto__]. *)
Fixpoint proto_free (v : json) : bool :=
  match v with
  | JArr xs => forallb proto_free xs
  | JObj ps =>
      forallb (fun kv => negb (String.eqb kv.1 "__proto__") && proto_free kv.2) ps
  | _ => true
  end.

End Chain.

(** ** A run that a failed request aborts, for examples *)

Module Outage.
Import Run.

(** The world of [Demo], except that the request made after [n]
    interactions fails. *)
Definition failing_world (n : nat) : World :=
  {| fetch := fun m b => if (m =? n)%nat then None else fetch Demo.world m b;
     vm := vm Demo.world;
     clock := clock Demo.world;
     encode_length := encode_length Demo.world |}.

Definition failing_run (n : nat) (e : Env) : result (Summary * State) :=
  main SHA256.sha256 (failing_world n) e "1700000000000" "[dataset]" Demo.tasks ∅.

(** An environment with [K_ATTEMPTS=0]. *)
Definition env_k0 : Env :=
  {| MODEL := "gpt-4o-mini"; K_ATTEMPTS_var := Some 0%Z;
     EVAL_TEMPERATURE_var := None; EVAL_TOP_P_var := None;
     SEED_var := None |}.

End Outage.

(** ** The results of a run, as the attempt loop leaves them *)

Module Results.
Import Str JSON Run.

(** The attempts of a task stop at the first that passes: they are
    attempts that failed, followed by one that passed when the task was
    solved; when it was not, there are [k] of them. *)
Definition stops_at_first_pass (k : nat) (r : TaskResult) : Prop :=
  ∃ fails,
    Forall (fun a => a_pass a = false) fails
    ∧ ((r_passk r = true
        ∧ ∃ a, a_pass a = true ∧ r_attempts r = fails ++ [a] ∧ length fails < k)
       ∨ (r_passk r = false ∧ r_attempts r = fails ∧ length fails = k)).

(** [pass1] of a task says whether its first attempt passed. *)
Definition pass1_is_first (r : TaskResult) : Prop :=
  r_pass1 r = match r_attempts r with a :: _ => a_pass a | [] => false end.

(** The attempts are numbered from 1, and attempt [i] is sampled with the
    seed [SEED + i - 1] when [SEED] is set, with none when it is not. *)
Definition numbered_and_seeded (seed : option Z) (r : TaskResult) : Prop :=
  map a_idx (r_attempts r) = map (fun i => Z.of_nat (S i)) (seq 0 (length (r_attempts r)))
  ∧ Forall (fun a => a_seed a = (fun s => s + (a_idx a - 1))%Z <$> seed) (r_attempts r).

(** The number of results for which [p] holds. *)
Definition count (p : TaskResult → bool) (rs : list TaskResult) : Z :=
  Z.of_nat (length (filter (fun r => p r = true) rs)).

(** The sum of [f] over attempts, and over all the attempts of all the
    results. *)
Definition sum (f : Attempt → Z) (l : list Attempt) : Z :=
  foldr (fun a acc => (f a + acc)%Z) 0%Z l.

Definition total (f : Attempt → Z) (rs : list TaskResult) : Z :=
  foldr (fun r acc => (sum f (r_attempts r) + acc)%Z) 0%Z rs.


(** A record of the log that agrees with the result of its task in the
    summary. *)
Definition agrees (model runId dataset_sha256 : string)
    (rec : Attest.TaskAttestation) (r : TaskResult) : Prop :=
  Attest.run_id rec = runId
  ∧ Attest.task_id rec = r_id r
  ∧ Attest.model rec = model
  ∧ Attest.dataset_sha256 rec = dataset_sha256
  ∧ Attest.prompt_sha256 rec = r_prompt_sha256 r
  ∧ Attest.pass rec = r_passk r
  ∧ (r_passk r = false → Attest.code_sha256 rec = "none").

Section WithHash.
Variable sha256 : string → string.

(** The log in order: it holds the records [recs], numbered from 0, the
    next number is in [idx], and each record agrees with the result at its
    position. *)
Definition in_order (e : Env) (runId dataset_sha256 path : string)
    (recs : list Attest.TaskAttestation) (st : State) : Prop :=
  logged sha256 path (Attest.numbered recs 0) st
  ∧ idx st = Z.of_nat (length recs)
  ∧ Forall2 (agrees (MODEL e) runId dataset_sha256) recs (results st).

End WithHash.
End Results.

(** ** Answers of the model, as [extractCode] reads them *)

Module Answer.
Import Str JSON Run.

(** A text in which no backtick occurs. *)
Fixpoint no_tick (s : string) : bool :=
  match s with
  | EmptyString => true
  | String c s' => negb (Ascii.eqb c "`") && no_tick s'
  end.

(** A tag that the pattern of [extractCode] takes for the language of a
    block: none, [js] or [javascript], in capitals or not. *)
Definition lang_tag (tag : string) : bool :=
  match tag with
  | EmptyString => true
  | _ =>
      match starts_with_ci "js" tag, starts_with_ci "javascript" tag with
      | Some EmptyString, _ | _, Some EmptyString => true
      | _, _ => false
      end
  end.

(** An answer in Markdown: prose, a block of code between fences, each on
    a line of its own, and what follows the block. *)
Definition with_block (prose tag code rest : string) : string :=
  prose +:+ fence +:+ tag +:+ String newline (code +:+ String newline (fence +:+ rest)).

End Answer.

(** ** A log with the line ends of Windows *)

Module Crlf.
Import Str JSON.

Definition cr : ascii := ascii_of_nat 13.

(** The text of a log each line of which ends with a carriage return and
    a line feed, as an editor or a checkout that converts line ends leaves
    it. *)
Definition crlf_text (entries : list json) : string :=
  fold_right (fun e text => stringify e +:+ String cr (String newline text))
             EmptyString entries.

(** A line that holds the text of [e], with a carriage return after it or
    without. *)
Definition line_of (l : string) (e : json) : Prop :=
  l = stringify e ∨ l = stringify e +:+ String cr EmptyString.

End Crlf.

(** * Properties *)

Example sha256_empty :
  SHA256.sha256 EmptyString = "e3b0c44298fc1c149afbf4c8996fb92427ae41e4649b934ca495991b7852b855".
Proof. vm_compute. reflexivity. Qed.

Example sha256_two_blocks :
  SHA256.sha256 ("aaaaaaaaaaaaaaaaaaaaaaaaaaaaaaaaaaaaaaaaaaaaaaaaaaaaaaaaaaaaaaaaaaaaaa"
                 +:+ String (ascii_of_nat 233) (String (ascii_of_nat 255) EmptyString))
  = "5ce0aa7e402cd6bc4f5aea802892f3e333890d4199db5b56c2fb6c419d035fc0".
Proof. vm_compute. reflexivity. Qed.

Example sha256_abc :
  SHA256.sha256 "abc" = "ba7816bf8f01cfea414140de5dae2223b00361a396177a9cb410ff61f20015ad".
Proof. vm_compute. reflexivity. Qed.

(** ** Strings *)

Module StrFacts.
Import Str.

Lemma sapp_nil_l (s : string) : EmptyString +:+ s = s.
Proof. reflexivity. Qed.

Lemma sapp_cons (c : ascii) (s t : string) : String c s +:+ t = String c (s +:+ t).
Proof. reflexivity. Qed.

Lemma sapp_nil_r (s : string) : s +:+ EmptyString = s.
Proof. induction s as [|c s IH]; [done|]. by rewrite sapp_cons, IH. Qed.

Lemma sapp_assoc (s t u : string) : (s +:+ t) +:+ u = s +:+ (t +:+ u).
Proof. induction s as [|c s IH]; [done|]. by rewrite !sapp_cons, IH. Qed.

Lemma length_sapp (s t : string) :
  String.length (s +:+ t) = String.length s + String.length t.
Proof. induction s as [|c s IH]; [done|]. rewrite sapp_cons. simpl. by rewrite IH. Qed.

Lemma no_nl_app (s t : string) : no_nl (s +:+ t) = no_nl s && no_nl t.
Proof.
  induction s as [|c s IH]; [done|].
  rewrite sapp_cons. simpl. rewrite IH. by rewrite andb_assoc.
Qed.

End StrFacts.
(** ** JSON: reading back what [JSON.stringify] writes *)

Module JSONFacts.
Import Str JSON StrFacts.

(** Induction on values, with the hypothesis for every element and for the
    value of every member. *)
Lemma json_ind (P : json → Prop) :
  P JNull → (∀ b, P (JBool b)) → (∀ n, P (JNum n)) → (∀ s, P (JStr s)) →
  (∀ xs, Forall P xs → P (JArr xs)) →
  (∀ ps, Forall (fun kv => P kv.2) ps → P (JObj ps)) →
  ∀ v, P v.
Proof.
  intros Hnull Hbool Hnum Hstr Harr Hobj.
  fix IH 1. intros [ | b | n | s | xs | ps ].
  - exact Hnull.
  - apply Hbool.
  - apply Hnum.
  - apply Hstr.
  - apply Harr. induction xs as [|x xs IHxs]; constructor; [apply IH | exact IHxs].
  - apply Hobj. induction ps as [|[k v] ps IHps]; constructor; [apply IH | exact IHps].
Qed.

Lemma ascii_eqb_eq (a b : ascii) : Ascii.eqb a b = true ↔ a = b.
Proof. apply Ascii.eqb_eq. Qed.

(** *** String literals *)

Lemma parse_chars_escape_unit (c : ascii) (t : string) :
  parse_chars (escape_unit c +:+ t) = cons_char c (parse_chars t).
Proof. destruct c as [[] [] [] [] [] [] [] []]; reflexivity. Qed.

Lemma parse_chars_escape (s rest : string) :
  parse_chars (escape s +:+ String dquote rest) = Some (s, rest).
Proof.
  induction s as [|c s IH]; [done|].
  simpl escape. rewrite sapp_assoc, parse_chars_escape_unit, IH. done.
Qed.

Lemma parse_chars_quote (s rest : string) :
  parse_chars (escape s +:+ String dquote EmptyString +:+ rest) = Some (s, rest).
Proof. apply parse_chars_escape. Qed.

End JSONFacts.
Module NumFacts.
Import Str JSON StrFacts.

Lemma parse_number_string_of_Z (n : Z) : parse_number (string_of_Z n) = Some n.
Proof.
  unfold parse_number, string_of_Z.
  rewrite DecimalString.NilEmpty.isi, DecimalZ.of_to.
  by rewrite String.eqb_refl.
Qed.

Lemma span_num_uint (d : Decimal.uint) :
  span_num (DecimalString.NilEmpty.string_of_uint d)
  = (DecimalString.NilEmpty.string_of_uint d, EmptyString).
Proof. induction d; simpl; [done|by rewrite IHd..]. Qed.

Lemma span_num_string_of_Z (n : Z) : span_num (string_of_Z n) = (string_of_Z n, EmptyString).
Proof.
  unfold string_of_Z. destruct (Z.to_int n) as [d|d]; simpl.
  - apply span_num_uint.
  - by rewrite span_num_uint.
Qed.

Lemma span_num_app (tok rest : string) :
  span_num tok = (tok, EmptyString) → number_ends rest = true →
  span_num (tok +:+ rest) = (tok, rest).
Proof.
  induction tok as [|c tok IH]; intros Htok Hrest.
  - rewrite sapp_nil_l. destruct rest as [|c rest]; [done|].
    simpl in *. by destruct (is_num_char c).
  - rewrite sapp_cons. simpl in *. destruct (is_num_char c); [|done].
    destruct (span_num tok) as [tok' r] eqn:E. simplify_eq. by rewrite IH.
Qed.

Lemma string_of_Z_head (n : Z) : head_is is_num_char false (string_of_Z n) = true.
Proof.
  pose proof (span_num_string_of_Z n) as Hs.
  pose proof (parse_number_string_of_Z n) as Hp.
  destruct (string_of_Z n) as [|c t] eqn:E.
  - exfalso. unfold parse_number in Hp. simpl in Hp. discriminate.
  - simpl in *. by destruct (is_num_char c).
Qed.

End NumFacts.
Module ParseFacts.
Import Str JSON StrFacts JSONFacts NumFacts.

Lemma value_start_not_ws (c : ascii) : value_start c = true → is_json_ws c = false.
Proof. destruct c as [[] [] [] [] [] [] [] []]; done. Qed.

Lemma value_start_not_close (c : ascii) :
  value_start c = true → Ascii.eqb "]" c = false ∧ Ascii.eqb "}" c = false.
Proof. destruct c as [[] [] [] [] [] [] [] []]; done. Qed.

Lemma num_char_dispatch (c : ascii) :
  is_num_char c = true →
  is_json_ws c = false ∧ Ascii.eqb c "n" = false ∧ Ascii.eqb c "t" = false
  ∧ Ascii.eqb c "f" = false ∧ Ascii.eqb c dquote = false
  ∧ Ascii.eqb c "[" = false ∧ Ascii.eqb c "{" = false.
Proof. destruct c as [[] [] [] [] [] [] [] []]; done. Qed.

Lemma num_char_value_start (c : ascii) : is_num_char c = true → value_start c = true.
Proof. unfold value_start. by intros ->. Qed.

Lemma skip_ws_value (s : string) : head_is value_start false s = true → skip_ws s = s.
Proof.
  destruct s as [|c s]; [done|]. simpl. intros H.
  by rewrite (value_start_not_ws c H).
Qed.

Lemma not_closed (close : ascii) (s : string) :
  close = "]"%char ∨ close = "}"%char →
  head_is value_start false s = true →
  starts_with (String close EmptyString) (skip_ws s) = None.
Proof.
  intros Hc H. rewrite (skip_ws_value s H).
  destruct s as [|c s]; [done|]. simpl in *.
  destruct (value_start_not_close c H) as [H1 H2].
  destruct Hc as [-> | ->]; by rewrite ?H1, ?H2.
Qed.

Lemma stringify_head (v : json) (rest : string) :
  head_is value_start false (stringify v +:+ rest) = true.
Proof.
  destruct v as [ | [] | n | s | xs | ps ]; try done.
  simpl. pose proof (string_of_Z_head n) as H.
  destruct (string_of_Z n) as [|c t]; [done|].
  rewrite sapp_cons. simpl in *. by apply num_char_value_start.
Qed.

Lemma reads_back_num (n : Z) : reads_back (JNum n).
Proof.
  intros [|fuel] rest Hfuel Hrest; [simpl in Hfuel; lia|].
  simpl stringify.
  pose proof (string_of_Z_head n) as Hh.
  pose proof (span_num_app _ rest (span_num_string_of_Z n) Hrest) as Hspan.
  destruct (string_of_Z n) as [|c t] eqn:E; [done|].
  rewrite sapp_cons in *. simpl in Hh.
  destruct (num_char_dispatch c Hh) as (Hws & Hn & Ht & Hf & Hq & Ha & Ho).
  unfold parse_value; fold parse_value parse_elems parse_members.
  simpl skip_ws. rewrite Hws, Hn, Ht, Hf, Hq, Ha, Ho, Hspan.
  rewrite <- E, parse_number_string_of_Z. done.
Qed.

End ParseFacts.
Module ObjFacts.
Import Str JSON StrFacts JSONFacts.

Lemma keys_app (ps qs : props) : keys (ps ++ qs) = keys ps ++ keys qs.
Proof. apply List.map_app. Qed.

Lemma get_None (k : string) (ps : props) : get k ps = None ↔ k ∉ keys ps.
Proof.
  induction ps as [|[k' v] ps IH]; simpl.
  - split; [intros _; apply not_elem_of_nil | done].
  - destruct (String.eqb_spec k' k) as [->|Hne].
    + split; [done|]. intros []. left.
    + rewrite IH, not_elem_of_cons.
      split; [by intros ?; split; [congruence|] | by intros [_ ?]].
Qed.

Lemma has_key_false (k : string) (ps : props) : has_key k ps = false ↔ k ∉ keys ps.
Proof.
  unfold has_key. rewrite <- get_None. destruct (get k ps); naive_solver.
Qed.

Lemma has_key_true (k : string) (ps : props) : has_key k ps = true ↔ k ∈ keys ps.
Proof.
  destruct (has_key k ps) eqn:E.
  - split; [|done]. intros _. destruct (decide (k ∈ keys ps)) as [|Hn]; [done|].
    apply has_key_false in Hn. congruence.
  - apply has_key_false in E. naive_solver.
Qed.

Lemma insert_index_snoc (n : N) (k : string) (v : json) (ps : props) :
  (∀ k', k' ∈ keys ps → ∃ m, array_index k' = Some m ∧ (m < n)%N) →
  insert_index n k v ps = ps ++ [(k, v)].
Proof.
  induction ps as [|[k' v'] ps IH]; intros H; [done|].
  simpl. destruct (H k') as (m & -> & Hm); [left|].
  apply N.ltb_lt in Hm as ->. f_equal. apply IH.
  intros k'' Hk. apply H. by right.
Qed.

Lemma define_prop_snoc (k : string) (v : json) (ps : props) :
  k ∉ keys ps → (∀ k', k' ∈ keys ps → key_before k' k) →
  define_prop k v ps = ps ++ [(k, v)].
Proof.
  intros Hk Hb. unfold define_prop.
  apply has_key_false in Hk as ->.
  destruct (array_index k) as [n|] eqn:E; [|done].
  apply insert_index_snoc. intros k' Hk'.
  specialize (Hb k' Hk'). unfold key_before in Hb. rewrite E in Hb.
  destruct (array_index k') as [m|]; [eauto|done].
Qed.

Lemma spread_wf_app (ps acc : props) :
  wf_keys (keys (acc ++ ps)) → spread ps acc = acc ++ ps.
Proof.
  revert acc. induction ps as [|[k v] ps IH]; intros acc Hwf.
  - by rewrite List.app_nil_r.
  - unfold spread in *. simpl.
    assert (define_prop k v acc = acc ++ [(k, v)]) as ->.
    { destruct Hwf as [Hnd Hss]. rewrite keys_app in Hnd, Hss. simpl in Hnd, Hss.
      apply define_prop_snoc.
      - apply NoDup_app in Hnd as (_ & Hd & _). intros Hin. apply (Hd k Hin). left.
      - intros k' Hk'. eapply StronglySorted_app_1_elem_of; [exact Hss|done|left]. }
    rewrite IH; [by rewrite <- List.app_assoc|]. by rewrite <- List.app_assoc.
Qed.

Lemma spread_wf (ps : props) : wf_keys (keys ps) → spread ps [] = ps.
Proof. intros H. by rewrite (spread_wf_app ps []). Qed.

End ObjFacts.
Module RoundTrip.
Import Str JSON StrFacts JSONFacts NumFacts ParseFacts ObjFacts.

Lemma parse_value_unfold (fuel : nat) (s : string) :
  parse_value (S fuel) s =
  match skip_ws s with
  | EmptyString => None
  | String c r as s0 =>
      if Ascii.eqb c "n" then
        match starts_with "null" s0 with Some r' => Some (JNull, r') | None => None end
      else if Ascii.eqb c "t" then
        match starts_with "true" s0 with Some r' => Some (JBool true, r') | None => None end
      else if Ascii.eqb c "f" then
        match starts_with "false" s0 with Some r' => Some (JBool false, r') | None => None end
      else if Ascii.eqb c dquote then
        match parse_chars r with Some (str, r') => Some (JStr str, r') | None => None end
      else if Ascii.eqb c "[" then
        match starts_with "]" (skip_ws r) with
        | Some r' => Some (JArr [], r')
        | None =>
            match parse_elems fuel r with
            | Some (xs, r') => Some (JArr xs, r')
            | None => None
            end
        end
      else if Ascii.eqb c "{" then
        match starts_with "}" (skip_ws r) with
        | Some r' => Some (JObj [], r')
        | None =>
            match parse_members fuel [] r with
            | Some (ps, r') => Some (JObj ps, r')
            | None => None
            end
        end
      else
        let (tok, r') := span_num s0 in
        match parse_number tok with Some z => Some (JNum z, r') | None => None end
  end.
Proof. reflexivity. Qed.

Lemma parse_elems_unfold (fuel : nat) (s : string) :
  parse_elems (S fuel) s =
  match parse_value fuel s with
  | None => None
  | Some (v, r) =>
      match skip_ws r with
      | EmptyString => None
      | String c r' =>
          if Ascii.eqb c "," then
            match parse_elems fuel r' with
            | Some (vs, r'') => Some (v :: vs, r'')
            | None => None
            end
          else if Ascii.eqb c "]" then Some ([v], r')
          else None
      end
  end.
Proof. reflexivity. Qed.

Lemma parse_members_unfold (fuel : nat) (acc : props) (s : string) :
  parse_members (S fuel) acc s =
  match starts_with (String dquote EmptyString) (skip_ws s) with
  | None => None
  | Some r =>
      match parse_chars r with
      | None => None
      | Some (k, r1) =>
          match starts_with ":" (skip_ws r1) with
          | None => None
          | Some r2 =>
              match parse_value fuel r2 with
              | None => None
              | Some (v, r3) =>
                  let acc' := define_prop k v acc in
                  match skip_ws r3 with
                  | EmptyString => None
                  | String c r4 =>
                      if Ascii.eqb c "," then parse_members fuel acc' r4
                      else if Ascii.eqb c "}" then Some (acc', r4)
                      else None
                  end
              end
          end
      end
  end.
Proof. reflexivity. Qed.

Lemma concat_cons2 (sep x y : string) (l : list string) :
  String.concat sep (x :: y :: l) = x +:+ sep +:+ String.concat sep (y :: l).
Proof. reflexivity. Qed.

Lemma parse_elems_stringify (xs : list json) :
  Forall reads_back xs → xs ≠ [] →
  ∀ fuel rest, fold_right (fun x n => S (jsize x + n)) 0 xs ≤ fuel →
    parse_elems fuel (String.concat "," (map stringify xs) +:+ "]" +:+ rest)
    = Some (xs, rest).
Proof.
  induction 1 as [|x xs Hx Hxs IH]; [done|]. intros _ fuel rest Hfuel.
  simpl in Hfuel. destruct fuel as [|fuel]; [lia|].
  rewrite parse_elems_unfold. destruct xs as [|y ys].
  - change (String.concat "," (map stringify [x])) with (stringify x).
    rewrite Hx; [done|lia|done].
  - change (map stringify (x :: y :: ys))
      with (stringify x :: stringify y :: map stringify ys).
    rewrite concat_cons2, !sapp_assoc. rewrite Hx; [|lia|done].
    rewrite (sapp_cons "," EmptyString), sapp_nil_l.
    change (skip_ws (String "," ?s)) with (String "," s). cbv iota.
    change (Ascii.eqb "," ",") with true. cbv iota.
    rewrite IH; [done|done|]. simpl in *. lia.
Qed.

Lemma parse_members_stringify (ps : props) :
  Forall (fun kv => reads_back kv.2) ps → ps ≠ [] →
  ∀ fuel acc rest, fold_right (fun kv n => S (jsize kv.2 + n)) 0 ps ≤ fuel →
    parse_members fuel acc (String.concat "," (map member_text ps) +:+ "}" +:+ rest)
    = Some (spread ps acc, rest).
Proof.
  induction 1 as [|[k v] ps Hv Hps IH]; [done|]. intros _ fuel acc rest Hfuel.
  simpl in Hfuel, Hv. destruct fuel as [|fuel]; [lia|].
  rewrite parse_members_unfold.
  assert (∀ t, starts_with (String dquote EmptyString)
                 (skip_ws (member_text (k, v) +:+ t))
               = Some (escape k +:+ String dquote EmptyString +:+ ":" +:+ stringify v +:+ t))
    as Hopen.
  { intros t. unfold member_text, quote. cbn [fst snd].
    rewrite !sapp_cons, !sapp_assoc. reflexivity. }
  destruct ps as [|kv' ps'].
  - change (String.concat "," (map member_text [(k, v)])) with (member_text (k, v)).
    rewrite Hopen. cbv beta iota. rewrite parse_chars_quote. cbv beta iota.
    change (starts_with ":" (skip_ws (":" +:+ ?s))) with (Some s). cbv iota.
    rewrite Hv; [done|lia|done].
  - change (map member_text ((k, v) :: kv' :: ps'))
      with (member_text (k, v) :: member_text kv' :: map member_text ps').
    rewrite concat_cons2, !sapp_assoc.
    rewrite Hopen. cbv beta iota. rewrite parse_chars_quote. cbv beta iota.
    change (starts_with ":" (skip_ws (":" +:+ ?s))) with (Some s). cbv iota.
    rewrite Hv; [|lia|done]. cbv zeta.
    rewrite (sapp_cons "," EmptyString), sapp_nil_l.
    change (skip_ws (String "," ?s)) with (String "," s). cbv iota.
    change (Ascii.eqb "," ",") with true. cbv iota.
    rewrite IH; [done|done|]. simpl in *. lia.
Qed.

Lemma stringify_obj (ps : props) :
  stringify (JObj ps) = "{" +:+ String.concat "," (map member_text ps) +:+ "}".
Proof. reflexivity. Qed.

Lemma stringify_arr (xs : list json) :
  stringify (JArr xs) = "[" +:+ String.concat "," (map stringify xs) +:+ "]".
Proof. reflexivity. Qed.

(** Every value that the language can build is read back from its text. *)
Lemma wf_reads_back (v : json) : wf v → reads_back v.
Proof.
  induction v as [ | b | n | s | xs IH | ps IH ] using json_ind; intros Hwf.
  - intros [|fuel] rest Hfuel _; [simpl in Hfuel; lia|]. reflexivity.
  - intros [|fuel] rest Hfuel _; [simpl in Hfuel; lia|]. by destruct b.
  - apply reads_back_num.
  - intros [|fuel] rest Hfuel _; [simpl in Hfuel; lia|].
    rewrite parse_value_unfold. simpl stringify. unfold quote.
    rewrite sapp_cons, sapp_assoc.
    change (skip_ws (String dquote ?s)) with (String dquote s). cbv iota.
    change (Ascii.eqb dquote "n") with false.
    change (Ascii.eqb dquote "t") with false.
    change (Ascii.eqb dquote "f") with false.
    change (Ascii.eqb dquote dquote) with true. cbv iota.
    by rewrite parse_chars_quote.
  - inversion Hwf as [ | | | | xs' Hxs | ]; subst.
    assert (Forall reads_back xs) as Hrb.
    { rewrite Forall_forall in *. auto. }
    intros [|fuel] rest Hfuel _; [simpl in Hfuel; lia|].
    rewrite parse_value_unfold, stringify_arr, !sapp_assoc.
    rewrite (sapp_cons "[" EmptyString), sapp_nil_l.
    change (skip_ws (String "[" ?s)) with (String "[" s). cbv iota.
    change (Ascii.eqb "[" "n") with false.
    change (Ascii.eqb "[" "t") with false.
    change (Ascii.eqb "[" "f") with false.
    change (Ascii.eqb "[" dquote) with false.
    change (Ascii.eqb "[" "[") with true. cbv iota.
    destruct xs as [|x xs]; [reflexivity|].
    rewrite not_closed; [|by left|].
    + rewrite parse_elems_stringify; [done|done|done|]. simpl in Hfuel. simpl. lia.
    + change (map stringify (x :: xs)) with (stringify x :: map stringify xs).
      destruct (map stringify xs); [apply stringify_head|].
      rewrite concat_cons2, !sapp_assoc. apply stringify_head.
  - inversion Hwf as [ | | | | | ps' Hkeys Hps ]; subst.
    assert (Forall (fun kv => reads_back kv.2) ps) as Hrb.
    { rewrite Forall_forall in *. auto. }
    intros [|fuel] rest Hfuel _; [simpl in Hfuel; lia|].
    rewrite parse_value_unfold, stringify_obj, !sapp_assoc.
    rewrite (sapp_cons "{" EmptyString), sapp_nil_l.
    change (skip_ws (String "{" ?s)) with (String "{" s). cbv iota.
    change (Ascii.eqb "{" "n") with false.
    change (Ascii.eqb "{" "t") with false.
    change (Ascii.eqb "{" "f") with false.
    change (Ascii.eqb "{" dquote) with false.
    change (Ascii.eqb "{" "[") with false.
    change (Ascii.eqb "{" "{") with true. cbv iota.
    destruct ps as [|kv ps]; [reflexivity|].
    replace (starts_with "}" (skip_ws (String.concat "," (map member_text (kv :: ps))
                                       +:+ "}" +:+ rest))) with (@None string).
    + rewrite parse_members_stringify; [|done|done|simpl in Hfuel; simpl; lia].
      by rewrite spread_wf.
    + change (map member_text (kv :: ps)) with (member_text kv :: map member_text ps).
      destruct (map member_text ps); reflexivity.
Qed.

End RoundTrip.
Module ParseTop.
Import Str JSON StrFacts JSONFacts NumFacts ParseFacts ObjFacts RoundTrip.

Lemma concat_length_bound {A} (size : A → nat) (text : A → string) (xs : list A) :
  Forall (fun x => size x + 0 ≤ String.length (text x)) xs →
  fold_right (fun x n => S (size x + n)) 0 xs
  ≤ S (String.length (String.concat "," (map text xs))).
Proof.
  induction 1 as [|x xs Hx Hxs IH]; [simpl; lia|].
  destruct xs as [|y ys].
  - simpl in *. lia.
  - change (map text (x :: y :: ys)) with (text x :: text y :: map text ys).
    rewrite concat_cons2, !length_sapp.
    change (fold_right (fun x n => S (size x + n)) 0 (x :: y :: ys))
      with (S (size x + fold_right (fun x n => S (size x + n)) 0 (y :: ys))).
    change (map text (y :: ys)) with (text y :: map text ys) in IH.
    simpl String.length at 2. lia.
Qed.

Lemma jsize_le_length (v : json) : jsize v ≤ String.length (stringify v).
Proof.
  induction v as [ | b | n | s | xs IH | ps IH ] using json_ind.
  - simpl. lia.
  - destruct b; simpl; lia.
  - simpl. pose proof (string_of_Z_head n) as H.
    destruct (string_of_Z n); [done|]. simpl. lia.
  - simpl. lia.
  - rewrite stringify_arr, !length_sapp.
    pose proof (concat_length_bound jsize stringify xs) as H.
    simpl jsize. simpl String.length at 1 3.
    assert (Forall (fun x => jsize x + 0 ≤ String.length (stringify x)) xs) as Hxs.
    { eapply Forall_impl; [exact IH|]. simpl. intros; lia. }
    specialize (H Hxs). lia.
  - rewrite stringify_obj, !length_sapp.
    pose proof (concat_length_bound (fun kv => jsize kv.2) member_text ps) as H.
    simpl jsize. simpl String.length at 1 3.
    assert (Forall (fun kv => jsize kv.2 + 0 ≤ String.length (member_text kv)) ps) as Hps.
    { eapply Forall_impl; [exact IH|]. simpl. intros [k v] Hv. unfold member_text.
      rewrite !length_sapp. simpl in *. lia. }
    specialize (H Hps). lia.
Qed.

(** [JSON.parse(JSON.stringify(v))] is [v]. *)
Lemma parse_stringify (v : json) : wf v → parse (stringify v) = Some v.
Proof.
  intros Hwf. unfold parse.
  rewrite <- (sapp_nil_r (stringify v)) at 2.
  rewrite (wf_reads_back v Hwf); [done| |done].
  pose proof (jsize_le_length v). lia.
Qed.

Lemma stringify_inj (a b : json) : wf a → wf b → stringify a = stringify b → a = b.
Proof.
  intros Ha Hb Heq. apply parse_stringify in Ha, Hb. congruence.
Qed.

End ParseTop.
Module SortFacts.
Import Str JSON StrFacts JSONFacts ObjFacts.

Lemma array_index_canonical (k : string) (n : N) :
  array_index k = Some n → k = string_of_N n.
Proof.
  unfold array_index. destruct (DecimalString.NilEmpty.uint_of_string k) as [u|]; [|done].
  destruct (String.eqb_spec (string_of_N (N.of_uint u)) k) as [E|]; [|done].
  destruct (N.of_uint u <=? 4294967294)%N; [|done]. simpl. intros [= <-]. done.
Qed.

Global Instance key_before_trans : Transitive key_before.
Proof.
  intros a b c. unfold key_before.
  destruct (array_index a), (array_index b), (array_index c); try done. lia.
Qed.

Lemma key_before_index_fresh (k k' : string) (n m : N) :
  array_index k = Some n → array_index k' = Some m → k ≠ k' → (m <? n)%N = false →
  key_before k k'.
Proof.
  intros Hk Hk' Hne Hlt. unfold key_before. rewrite Hk, Hk'.
  apply N.ltb_ge in Hlt. destruct (decide (m = n)) as [->|]; [|lia].
  apply array_index_canonical in Hk, Hk'. congruence.
Qed.

Lemma keys_replace_prop (k : string) (v : json) (ps : props) :
  keys (replace_prop k v ps) = keys ps.
Proof.
  induction ps as [|[k' v'] ps IH]; [done|]. simpl.
  destruct (String.eqb k' k); simpl; [done|by rewrite IH].
Qed.

Lemma elem_of_keys_insert_index (x : string) (n : N) (k : string) (v : json) (ps : props) :
  x ∈ keys (insert_index n k v ps) ↔ x = k ∨ x ∈ keys ps.
Proof.
  induction ps as [|[k' v'] ps IH]; simpl.
  - rewrite list_elem_of_singleton. split; [by left|]. intros [|H]; [done|]. inversion H.
  - destruct (array_index k') as [m|]; [destruct (m <? n)%N|]; simpl;
      rewrite ?elem_of_cons, ?IH; simpl; rewrite ?elem_of_cons; tauto.
Qed.

Lemma insert_index_wf (n : N) (k : string) (v : json) (ps : props) :
  array_index k = Some n → k ∉ keys ps → wf_keys (keys ps) →
  wf_keys (keys (insert_index n k v ps)).
Proof.
  intros Hk. induction ps as [|[k' v'] ps IH]; intros Hfresh [Hnd Hss].
  - simpl. split; [apply NoDup_singleton | repeat constructor].
  - simpl in Hfresh, Hnd, Hss. apply not_elem_of_cons in Hfresh as [Hne Hfresh].
    apply NoDup_cons in Hnd as [Hk' Hnd].
    apply StronglySorted_inv in Hss as [Hss Hall].
    assert (key_before k k' →
            wf_keys (keys ((k, v) :: (k', v') :: ps))) as Hfront.
    { intros Hb. split; simpl.
      - apply NoDup_cons. split; [by apply not_elem_of_cons|by apply NoDup_cons].
      - constructor; [by constructor|]. constructor; [done|].
        eapply Forall_impl; [exact Hall|]. intros x Hx. by etrans. }
    simpl. destruct (array_index k') as [m|] eqn:Ek'.
    + destruct (m <? n)%N eqn:Hlt.
      * destruct (IH Hfresh (conj Hnd Hss)) as [Hnd' Hss']. split; simpl.
        -- apply NoDup_cons. split; [|done].
           rewrite elem_of_keys_insert_index. intros [->|]; done.
        -- constructor; [done|]. apply Forall_forall. intros x.
           rewrite elem_of_keys_insert_index. intros [->|Hx].
           ++ unfold key_before. rewrite Ek', Hk. by apply N.ltb_lt.
           ++ rewrite Forall_forall in Hall. by apply Hall.
      * apply Hfront. by eapply key_before_index_fresh.
    + apply Hfront. unfold key_before. by rewrite Hk, Ek'.
Qed.

Lemma define_prop_wf (k : string) (v : json) (ps : props) :
  wf_keys (keys ps) → wf_keys (keys (define_prop k v ps)).
Proof.
  intros Hwf. unfold define_prop. destruct (has_key k ps) eqn:Hhas.
  - by rewrite keys_replace_prop.
  - apply has_key_false in Hhas.
    destruct (array_index k) as [n|] eqn:Ek; [by apply insert_index_wf|].
    destruct Hwf as [Hnd Hss]. rewrite keys_app. split; simpl.
    + apply NoDup_app. split_and!; [done| |apply NoDup_singleton].
      intros x Hx ->%list_elem_of_singleton. done.
    + apply StronglySorted_app. split_and!; [|done|repeat constructor].
      intros x1 x2 _ ->%list_elem_of_singleton.
      unfold key_before. rewrite Ek. by destruct (array_index x1).
Qed.

Lemma obj_assign_wf (k : string) (v : json) (ps : props) :
  wf_keys (keys ps) → wf_keys (keys (obj_assign k v ps)).
Proof.
  intros Hwf. unfold obj_assign.
  destruct (String.eqb k "__proto__" && negb (has_key k ps)); [done|].
  by apply define_prop_wf.
Qed.

Lemma Forall_replace_prop (P : json → Prop) (k : string) (v : json) (ps : props) :
  P v → Forall (fun kv => P kv.2) ps → Forall (fun kv => P kv.2) (replace_prop k v ps).
Proof.
  intros Hv. induction 1 as [|[k' v'] ps Hkv Hps IH]; [constructor|].
  simpl. destruct (String.eqb k' k); constructor; done.
Qed.

Lemma Forall_insert_index (P : json → Prop) (n : N) (k : string) (v : json) (ps : props) :
  P v → Forall (fun kv => P kv.2) ps → Forall (fun kv => P kv.2) (insert_index n k v ps).
Proof.
  intros Hv. induction 1 as [|[k' v'] ps Hkv Hps IH]; [by repeat constructor|].
  simpl. destruct (array_index k') as [m|]; [destruct (m <? n)%N|];
    repeat (constructor; try done).
Qed.

Lemma Forall_define_prop (P : json → Prop) (k : string) (v : json) (ps : props) :
  P v → Forall (fun kv => P kv.2) ps → Forall (fun kv => P kv.2) (define_prop k v ps).
Proof.
  intros Hv Hps. unfold define_prop. destruct (has_key k ps).
  - by apply Forall_replace_prop.
  - destruct (array_index k); [by apply Forall_insert_index|].
    apply Forall_app. split; [done|by repeat constructor].
Qed.

Lemma Forall_obj_assign (P : json → Prop) (k : string) (v : json) (ps : props) :
  P v → Forall (fun kv => P kv.2) ps → Forall (fun kv => P kv.2) (obj_assign k v ps).
Proof.
  intros Hv Hps. unfold obj_assign.
  destruct (String.eqb k "__proto__" && negb (has_key k ps)); [done|].
  by apply Forall_define_prop.
Qed.

Lemma sortObj_obj (ps : props) :
  sortObj (JObj ps)
  = JObj (fold_left (assign_sorted (map (fun kv => (kv.1, sortObj kv.2)) ps))
                    (sort (keys ps)) []).
Proof. reflexivity. Qed.

Lemma get_Some_elem (k : string) (v : json) (ps : props) :
  get k ps = Some v → (k, v) ∈ ps.
Proof.
  induction ps as [|[k' v'] ps IH]; [done|]. simpl.
  destruct (String.eqb_spec k' k) as [->|]; [intros [= ->]; left|right; auto].
Qed.

(** [sortObj] returns an object of the language, whatever it is given. *)
Lemma sortObj_wf (v : json) : wf (sortObj v).
Proof.
  induction v as [ | b | n | s | xs IH | ps IH ] using json_ind;
    [constructor..| |].
  - change (sortObj (JArr xs)) with (JArr (map sortObj xs)).
    constructor. induction IH; constructor; done.
  - rewrite sortObj_obj.
    set (vals := map (fun kv => (kv.1, sortObj kv.2)) ps).
    assert (Forall (fun kv => wf kv.2) vals) as Hvals.
    { subst vals. induction IH; constructor; done. }
    assert (∀ ks acc, wf_keys (keys acc) → Forall (fun kv => wf kv.2) acc →
              wf (JObj (fold_left (assign_sorted vals) ks acc))) as Hfold.
    { induction ks as [|k ks IHks]; intros acc Hk Hv; [by constructor|].
      simpl. unfold assign_sorted at 2. destruct (get k vals) as [v|] eqn:E; [|auto].
      apply IHks; [by apply obj_assign_wf|]. apply Forall_obj_assign; [|done].
      apply get_Some_elem in E. rewrite Forall_forall in Hvals. by apply (Hvals _ E). }
    apply Hfold; [|constructor]. split; constructor.
Qed.

End SortFacts.
(** ** Lines of a text *)

Module LineFacts.
Import Str StrFacts.

Lemma join_nl_cons2 (x y : string) (l : list string) :
  join_nl (x :: y :: l) = x +:+ String newline (join_nl (y :: l)).
Proof. reflexivity. Qed.

Lemma truthy_app (s t : string) : truthy (s +:+ t) = truthy s || truthy t.
Proof. by destruct s. Qed.

Lemma split_nl_no_nl (l : string) : no_nl l = true → split_nl l = [l].
Proof.
  induction l as [|c l IH]; [done|]. simpl.
  destruct (Ascii.eqb c newline); [done|]. simpl. intros H. by rewrite IH.
Qed.

Lemma split_nl_line (l rest : string) :
  no_nl l = true → split_nl (l +:+ String newline rest) = l :: split_nl rest.
Proof.
  induction l as [|c l IH]; intros H.
  - reflexivity.
  - rewrite sapp_cons. simpl in *. destruct (Ascii.eqb c newline); [done|].
    simpl in H. by rewrite IH.
Qed.

Lemma split_nl_join (ls : list string) :
  Forall (fun l => no_nl l = true) ls → ls ≠ [] → split_nl (join_nl ls) = ls.
Proof.
  induction 1 as [|l ls Hl Hls IH]; [done|]. intros _.
  destruct ls as [|l' ls].
  - by apply split_nl_no_nl.
  - rewrite join_nl_cons2, split_nl_line; [|done]. by rewrite IH.
Qed.

Lemma join_nl_empty (ls : list string) :
  join_nl ls = EmptyString → filter (fun l => truthy l = true) ls = [].
Proof.
  destruct ls as [|l [|l' ls]]; [done| |].
  - unfold join_nl. simpl. by intros ->.
  - rewrite join_nl_cons2. by destruct l.
Qed.

Lemma trim_start_solid (l s : string) :
  trim_start l = l → truthy l = true → trim_start (l +:+ s) = l +:+ s.
Proof.
  destruct l as [|c l]; [done|]. intros H _. rewrite sapp_cons. simpl in *.
  destruct (is_ws c) eqn:E; [|done]. exfalso.
  assert (∀ t, String.length (trim_start t) ≤ String.length t) as Hlen.
  { induction t as [|c' t IHt]; simpl; [lia|]. destruct (is_ws c'); simpl; lia. }
  specialize (Hlen l). rewrite H in Hlen. simpl in Hlen. lia.
Qed.

Lemma trim_end_app (a b : string) :
  trim_end (a +:+ b) = if truthy (trim_end b) then a +:+ trim_end b else trim_end a.
Proof.
  induction a as [|c a IH].
  - rewrite !sapp_nil_l. by destruct (trim_end b).
  - rewrite !sapp_cons. simpl. rewrite IH.
    destruct (trim_end b) as [|c' t] eqn:E; simpl; [done|].
    destruct a; by rewrite ?sapp_cons, ?sapp_nil_l.
Qed.

Lemma trim_end_newline (s : string) :
  trim_end (String newline s)
  = if truthy (trim_end s) then String newline (trim_end s) else EmptyString.
Proof. simpl. by destruct (trim_end s). Qed.

Lemma filter_truthy_cons (l : string) (ls : list string) :
  filter (fun l => truthy l = true) (l :: ls)
  = if truthy l then l :: filter (fun l => truthy l = true) ls
    else filter (fun l => truthy l = true) ls.
Proof. by destruct l. Qed.

Lemma trim_start_join (ls : list string) :
  Forall line_ok ls →
  ∃ ls', trim_start (join_nl ls) = join_nl ls' ∧ Forall line_ok ls'
         ∧ filter (fun l => truthy l = true) ls' = filter (fun l => truthy l = true) ls.
Proof.
  induction 1 as [|l ls Hl Hls IH]; [by exists []|].
  destruct (truthy l) eqn:El.
  - exists (l :: ls). split_and!; [|by constructor|done].
    destruct Hl as (_ & Hs & _). destruct ls as [|l' ls].
    + exact Hs.
    + rewrite join_nl_cons2. by apply trim_start_solid.
  - destruct l; [|done]. destruct ls as [|l' ls].
    + by exists [].
    + destruct IH as (ls' & H1 & H2 & H3). exists ls'. split_and!; [|done|done].
      rewrite join_nl_cons2. exact H1.
Qed.

Lemma trim_end_join (ls : list string) :
  Forall line_ok ls →
  ∃ ls', trim_end (join_nl ls) = join_nl ls' ∧ Forall line_ok ls'
         ∧ filter (fun l => truthy l = true) ls' = filter (fun l => truthy l = true) ls.
Proof.
  induction 1 as [|l ls Hl Hls IH]; [by exists []|].
  destruct ls as [|l' ls].
  - exists [l]. split_and!; [|by constructor|done]. by destruct Hl as (_ & _ & He).
  - destruct IH as (ls' & H1 & H2 & H3).
    rewrite join_nl_cons2, trim_end_app, trim_end_newline, H1.
    destruct (truthy (join_nl ls')) eqn:E.
    + exists (l :: ls'). split_and!; [|by constructor|].
      * destruct ls' as [|l'' ls']; [done|]. by rewrite join_nl_cons2.
      * by rewrite !(filter_truthy_cons l), H3.
    + exists [l]. split_and!; [by destruct Hl as (_ & _ & He)|by constructor|].
      rewrite !(filter_truthy_cons l), <- H3.
      rewrite (join_nl_empty ls'); [done|]. by destruct (join_nl ls').
Qed.

(** The lines that the verifier reads from a text made of well-formed lines
    are its non-empty lines, in order. *)
Lemma read_lines_join (ls : list string) :
  Forall line_ok ls →
  filter (fun l => truthy l = true) (split_nl (trim (join_nl ls)))
  = filter (fun l => truthy l = true) ls.
Proof.
  intros Hls. unfold trim.
  destruct (trim_start_join ls Hls) as (ls1 & -> & Hls1 & <-).
  destruct (trim_end_join ls1 Hls1) as (ls2 & -> & Hls2 & <-).
  destruct ls2 as [|l ls2]; [done|].
  rewrite split_nl_join; [done| |done].
  eapply Forall_impl; [exact Hls2|]. by intros x (? & _).
Qed.

End LineFacts.
(** ** The text of a log *)

Module LogFacts.
Import Str JSON StrFacts JSONFacts NumFacts LineFacts RoundTrip ParseTop Attest.

Lemma no_nl_escape_unit (c : ascii) : no_nl (escape_unit c) = true.
Proof. destruct c as [[] [] [] [] [] [] [] []]; reflexivity. Qed.

Lemma no_nl_escape (s : string) : no_nl (escape s) = true.
Proof.
  induction s as [|c s IH]; [done|]. simpl.
  by rewrite no_nl_app, no_nl_escape_unit, IH.
Qed.

Lemma no_nl_quote (s : string) : no_nl (quote s) = true.
Proof. unfold quote. simpl. by rewrite no_nl_app, no_nl_escape. Qed.

Lemma no_nl_uint (d : Decimal.uint) :
  no_nl (DecimalString.NilEmpty.string_of_uint d) = true.
Proof. induction d; simpl; done. Qed.

Lemma no_nl_string_of_Z (n : Z) : no_nl (string_of_Z n) = true.
Proof.
  unfold string_of_Z. destruct (Z.to_int n); simpl; apply no_nl_uint.
Qed.

Lemma no_nl_concat (ls : list string) :
  Forall (fun l => no_nl l = true) ls → no_nl (String.concat "," ls) = true.
Proof.
  induction 1 as [|l ls Hl Hls IH]; [done|]. destruct ls as [|l' ls]; [done|].
  rewrite concat_cons2, !no_nl_app, Hl, IH. done.
Qed.

Lemma no_nl_stringify (v : json) : no_nl (stringify v) = true.
Proof.
  induction v as [ | b | n | s | xs IH | ps IH ] using json_ind.
  - done.
  - by destruct b.
  - apply no_nl_string_of_Z.
  - apply no_nl_quote.
  - rewrite stringify_arr, !no_nl_app, no_nl_concat; [done|].
    induction IH; constructor; done.
  - rewrite stringify_obj, !no_nl_app, no_nl_concat; [done|].
    induction IH as [|[k v] ps Hv Hps IHps]; constructor; [|done].
    unfold member_text. by rewrite !no_nl_app, no_nl_quote, Hv.
Qed.

Lemma truthy_stringify_obj (ps : props) : truthy (stringify (JObj ps)) = true.
Proof. done. Qed.

(** The text of an object is a line: it opens with a brace and closes with
    a brace, and holds no line feed. *)
Lemma line_ok_obj (ps : props) : line_ok (stringify (JObj ps)).
Proof.
  split_and!.
  - apply no_nl_stringify.
  - done.
  - rewrite stringify_obj, <- sapp_assoc, trim_end_app. done.
Qed.

Lemma line_ok_empty : line_ok EmptyString.
Proof. done. Qed.

Lemma log_text_join (entries : list json) :
  log_text entries = join_nl (map stringify entries ++ [EmptyString]).
Proof.
  induction entries as [|e es IH]; [done|].
  simpl. rewrite IH. destruct es; reflexivity.
Qed.

Lemma log_text_app (es1 es2 : list json) :
  log_text (es1 ++ es2) = log_text es1 +:+ log_text es2.
Proof.
  induction es1 as [|e es1 IH]; [done|].
  simpl. rewrite IH. by rewrite sapp_assoc.
Qed.

(** The verifier reads from a log the texts of its entries, one per entry. *)
Lemma read_lines_log (entries : list json) :
  Forall is_obj entries →
  Verify.read_lines (log_text entries) = map stringify entries.
Proof.
  intros Hobj. unfold Verify.read_lines. rewrite log_text_join, read_lines_join.
  - rewrite filter_app. simpl. rewrite List.app_nil_r.
    induction Hobj as [|e es He Hes IH]; [done|]. destruct e as [ | | | | |ps]; try done.
    change (map stringify (JObj ps :: es)) with (stringify (JObj ps) :: map stringify es).
    rewrite filter_truthy_cons, truthy_stringify_obj. by rewrite IH.
  - apply Forall_app. split; [|by repeat constructor].
    induction Hobj as [|e es He Hes IH]; [done|]. destruct e as [ | | | | |ps]; try done.
    constructor; [apply line_ok_obj|done].
Qed.

End LogFacts.
(** ** The builder and the verifier *)

Module ChainFacts.
Import Str JSON StrFacts JSONFacts LineFacts ParseTop LogFacts Attest Verify.

Section WithHash.
Variable sha256 : string → string.

Lemma chain_line_props (rec : TaskAttestation) (idx : Z) (prev : option string)
    (hash : string) :
  chain_line (rec_props rec) idx prev hash
  = JObj (rec_props rec ++ [("idx", JNum idx); ("prevHash", json_of_prev prev);
                            ("hash", JStr hash)]).
Proof. reflexivity. Qed.

Lemma wf_json_of_prev (prev : option string) : wf (json_of_prev prev).
Proof. destruct prev; constructor. Qed.

Lemma wf_chain_line (rec : TaskAttestation) (idx : Z) (prev : option string)
    (hash : string) :
  wf (chain_line (rec_props rec) idx prev hash).
Proof.
  rewrite chain_line_props. constructor.
  - by apply (bool_decide_unpack _).
  - repeat constructor. apply wf_json_of_prev.
Qed.

Lemma rest_props_chain_line (rec : TaskAttestation) (idx : Z) (prev : option string)
    (hash : string) :
  rest_props (chain_line (rec_props rec) idx prev hash) = rec_props rec.
Proof. reflexivity. Qed.

Lemma hashed_view_rec_props (rec : TaskAttestation) (prev : option string) :
  hashed_view (rec_props rec) prev
  = JObj (rec_props rec ++ [("prevHash", json_of_prev prev)]).
Proof. reflexivity. Qed.

Lemma strict_eq_prev_refl (prev : option string) :
  strict_eq_prev (Some (json_of_prev prev)) prev = true.
Proof. destruct prev; simpl; [apply String.eqb_refl|done]. Qed.

Lemma check_entry_chain_line (rec : TaskAttestation) (idx : Z) (prev : option string) :
  let hash := sha256 (stable (hashed_view (rec_props rec) prev)) in
  check_entry sha256 prev (chain_line (rec_props rec) idx prev hash) = inr (Some hash).
Proof.
  intros hash. rewrite chain_line_props. unfold check_entry.
  change (field "prevHash" _) with (Some (json_of_prev prev)).
  change (field "hash" _) with (Some (JStr hash)).
  rewrite strict_eq_prev_refl. cbv beta iota zeta. simpl negb. cbv iota.
  rewrite <- chain_line_props, rest_props_chain_line. fold hash.
  simpl. by rewrite String.eqb_refl.
Qed.

Lemma check_line_stringify (prev : option string) (e : json) :
  wf e → check_line sha256 prev (stringify e) = check_entry sha256 prev e.
Proof. intros Hwf. unfold check_line. by rewrite parse_stringify. Qed.

Lemma verify_loop_app (prev : option string) (l1 l2 : list string) :
  verify_loop sha256 prev (l1 ++ l2)
  = match verify_loop sha256 prev l1 with
    | inl o => inl o
    | inr prev' => verify_loop sha256 prev' l2
    end.
Proof.
  revert prev. induction l1 as [|l l1 IH]; intros prev; [done|].
  simpl. destruct (check_line sha256 prev l); [done|apply IH].
Qed.

Lemma appendEach_cons (path : string) (rec : TaskAttestation) (idx : Z)
    (items : list (TaskAttestation * Z)) (prev : option string) (fs : Fs.t) :
  appendEach sha256 path ((rec, idx) :: items) prev fs
  = appendEach sha256 path items
      (Some (sha256 (stable (hashed_view (rec_props rec) prev))))
      (Fs.appendFileSync path
         (stringify (chain_line (rec_props rec) idx prev
                       (sha256 (stable (hashed_view (rec_props rec) prev))))
          +:+ String newline EmptyString) fs).
Proof. reflexivity. Qed.

(** What a sequence of appends returns and writes: the texts of the
    entries go after the content that the file has, and the verifier's loop
    goes through them and ends with the hash that the last append returned. *)
Lemma appendEach_spec (path : string) (items : list (TaskAttestation * Z))
    (prev : option string) (fs : Fs.t) (content : string) :
  fs !! path = Some content →
  ∃ last,
    appendEach sha256 path items prev fs
    = (last, <[path := content +:+ log_text (chain_entries sha256 items prev)]> fs)
    ∧ verify_loop sha256 prev (map stringify (chain_entries sha256 items prev)) = inr last.
Proof.
  revert prev fs content. induction items as [|[rec idx] items IH]; intros prev fs content Hc.
  - exists prev. split; [|done]. simpl. rewrite sapp_nil_r. by rewrite insert_id.
  - rewrite appendEach_cons. unfold Fs.appendFileSync. rewrite Hc.
    change (default EmptyString (Some content)) with content.
    set (hash := sha256 (stable (hashed_view (rec_props rec) prev))).
    set (line := chain_line (rec_props rec) idx prev hash).
    destruct (IH (Some hash)
                 (<[path := content +:+ stringify line +:+ String newline EmptyString]> fs)
                 (content +:+ stringify line +:+ String newline EmptyString))
      as (last & Happ & Hloop); [by rewrite lookup_insert_eq|].
    exists last. split.
    + rewrite Happ. f_equal. rewrite insert_insert_eq. f_equal.
      change (chain_entries sha256 ((rec, idx) :: items) prev)
        with (line :: chain_entries sha256 items (Some hash)).
      change (log_text (line :: ?es)) with (stringify line +:+ String newline (log_text es)).
      by rewrite !sapp_assoc.
    + change (chain_entries sha256 ((rec, idx) :: items) prev)
        with (line :: chain_entries sha256 items (Some hash)).
      change (map stringify (line :: ?es)) with (stringify line :: map stringify es).
      change (verify_loop sha256 prev (?l :: ?ls))
        with (match check_line sha256 prev l with
              | inl o => inl o
              | inr prev' => verify_loop sha256 prev' ls
              end).
      rewrite check_line_stringify; [|apply wf_chain_line].
      subst line hash. rewrite check_entry_chain_line. exact Hloop.
Qed.

Lemma chain_entries_obj (items : list (TaskAttestation * Z)) (prev : option string) :
  Forall is_obj (chain_entries sha256 items prev).
Proof.
  revert prev. induction items as [|[rec idx] items IH]; intros prev; constructor; [done|].
  apply IH.
Qed.

Lemma chain_entries_length (items : list (TaskAttestation * Z)) (prev : option string) :
  length (chain_entries sha256 items prev) = length items.
Proof.
  revert prev. induction items as [|[rec idx] items IH]; intros prev; [done|].
  simpl. by rewrite IH.
Qed.

Lemma numbered_length (recs : list TaskAttestation) (from : Z) :
  length (numbered recs from) = length recs.
Proof. revert from. induction recs as [|r recs IH]; intros from; [done|]. simpl. by rewrite IH. Qed.

(** A log that holds the entries of a sequence of appends, whatever their
    numbering, verifies. *)
Lemma verify_content_chain (items : list (TaskAttestation * Z)) :
  verify_content sha256 (log_text (chain_entries sha256 items None))
  = AttestationOK (length items).
Proof.
  unfold verify_content.
  rewrite read_lines_log; [|apply chain_entries_obj].
  destruct (appendEach_spec "log" items None {["log" := EmptyString]} EmptyString)
    as (last & _ & ->); [apply lookup_singleton_eq|].
  by rewrite length_map, chain_entries_length.
Qed.

Lemma buildChain_content (path : string) (recs : list TaskAttestation) (fs : Fs.t) :
  buildChain sha256 path recs fs !! path
  = Some (log_text (chain_entries sha256 (numbered recs 0) None)).
Proof.
  unfold buildChain, startChain, Fs.writeFileSync.
  destruct (appendEach_spec path (numbered recs 0) None (<[path := EmptyString]> fs) EmptyString)
    as (last & -> & _); [apply lookup_insert_eq|].
  simpl. by rewrite lookup_insert_eq.
Qed.

End WithHash.
End ChainFacts.

(** C1. For every sequence of records appended with [appendRecord] after
    [startChain], the first with [prevHash = null], each next one with the
    hash that the previous append returned, and [idx] counting from 0, the
    verifier run on the resulting file succeeds and reports as many records
    as were appended.  The path is not the empty string, which the verifier
    takes for a missing argument. *)
Theorem C1_builder_verifier_roundtrip (sha256 : string → string) (path : string)
    (recs : list Attest.TaskAttestation) (fs : Fs.t) :
  path ≠ EmptyString →
  Verify.verify sha256 (Some path) (Attest.buildChain sha256 path recs fs)
  = Verify.AttestationOK (length recs).
Proof.
  intros Hpath. unfold Verify.verify.
  destruct (String.eqb_spec path EmptyString) as [|_]; [done|].
  rewrite ChainFacts.buildChain_content, ChainFacts.verify_content_chain.
  by rewrite ChainFacts.numbered_length.
Qed.

Lemma C1_witness :
  Verify.verify SHA256.sha256 (Some "results/attest-1.jsonl")
    (Attest.buildChain SHA256.sha256 "results/attest-1.jsonl"
       [ {| Attest.run_id := "1"; Attest.task_id := "t1"; Attest.model := "m";
            Attest.dataset_sha256 := "d"; Attest.prompt_sha256 := "p";
            Attest.code_sha256 := "c"; Attest.pass := true;
            Attest.timestamp := "2024-01-01T00:00:00.000Z" |};
         {| Attest.run_id := "1"; Attest.task_id := "t2"; Attest.model := "m";
            Attest.dataset_sha256 := "d"; Attest.prompt_sha256 := "q";
            Attest.code_sha256 := "none"; Attest.pass := false;
            Attest.timestamp := "2024-01-01T00:00:01.000Z" |} ] ∅)
  = Verify.AttestationOK 2.
Proof. apply C1_builder_verifier_roundtrip. discriminate. Defined.

(** C9. The hash that [appendRecord] returns is the digest of the record and
    of [prevHash]: two calls with the same record and the same [prevHash]
    return the same hash whatever [idx], the path and the files are.  Hence
    two sequences of appends of the same records, numbered differently, end
    with the same hash and write the same [hash] in every entry. *)
Theorem C9_hash_ignores_idx (sha256 : string → string) :
  (∀ path path' rec prevHash idx idx' fs fs',
     (Attest.appendRecord sha256 path rec prevHash idx fs).1
     = sha256 (JSON.stable (Attest.hashed_view (Attest.rec_props rec) prevHash))
     ∧ (Attest.appendRecord sha256 path rec prevHash idx fs).1
       = (Attest.appendRecord sha256 path' rec prevHash idx' fs').1)
  ∧ (∀ path path' items items' prevHash fs fs',
       map fst items = map fst items' →
       (Attest.appendEach sha256 path items prevHash fs).1
       = (Attest.appendEach sha256 path' items' prevHash fs').1
       ∧ map (Verify.field "hash") (Attest.chain_entries sha256 items prevHash)
         = map (Verify.field "hash") (Attest.chain_entries sha256 items' prevHash)).
Proof.
  split; [done|].
  intros path path' items. induction items as [|[rec idx] items IH];
    intros [|[rec' idx'] items'] prevHash fs fs' Hrecs; try done.
  simpl in Hrecs. injection Hrecs as <- Hrecs.
  rewrite !ChainFacts.appendEach_cons.
  edestruct IH as [H1 H2]; [exact Hrecs|]. split; [exact H1|].
  simpl. f_equal. exact H2.
Qed.

Lemma C9_witness :
  let r := {| Attest.run_id := "1"; Attest.task_id := "t1"; Attest.model := "m";
              Attest.dataset_sha256 := "d"; Attest.prompt_sha256 := "p";
              Attest.code_sha256 := "c"; Attest.pass := true;
              Attest.timestamp := "2024-01-01T00:00:00.000Z" |} in
  (Attest.appendEach SHA256.sha256 "a.jsonl" [(r, 0%Z); (r, 1%Z)] None ∅).1
  = (Attest.appendEach SHA256.sha256 "b.jsonl" [(r, 7%Z); (r, 7%Z)] None ∅).1
  ∧ map (Verify.field "hash") (Attest.chain_entries SHA256.sha256 [(r, 0%Z); (r, 1%Z)] None)
    = map (Verify.field "hash") (Attest.chain_entries SHA256.sha256 [(r, 7%Z); (r, 7%Z)] None).
Proof.
  intros r.
  apply (proj2 (C9_hash_ignores_idx SHA256.sha256) "a.jsonl" "b.jsonl"
           [(r, 0%Z); (r, 1%Z)] [(r, 7%Z); (r, 7%Z)] None ∅ ∅).
  reflexivity.
Defined.

Module BlankFacts.
Import Str StrFacts LineFacts Verify.

Lemma trim_all_ws (s : string) : all_ws s = true → trim s = EmptyString.
Proof.
  unfold trim. induction s as [|c s IH]; [done|]. simpl.
  destruct (is_ws c); [|done]. simpl. exact IH.
Qed.



End BlankFacts.


Module TamperFacts.
Import Str JSON StrFacts JSONFacts LineFacts ParseTop SortFacts LogFacts Attest Verify ChainFacts.

Lemma stable_inj (a b : json) : stable a = stable b → sortObj a = sortObj b.
Proof. apply stringify_inj; apply sortObj_wf. Qed.

Lemma sortObj_prim (v : json) :
  match sortObj v with
  | JArr _ => ∃ xs, v = JArr xs
  | JObj _ => ∃ ps, v = JObj ps
  | p => v = p
  end.
Proof. destruct v; simpl; eauto. Qed.

Lemma sortObj_null (v : json) : sortObj v = JNull → v = JNull.
Proof. intros H. pose proof (sortObj_prim v) as Hp. by rewrite H in Hp. Qed.

Lemma sortObj_str (v : json) (s : string) : sortObj v = JStr s → v = JStr s.
Proof. intros H. pose proof (sortObj_prim v) as Hp. by rewrite H in Hp. Qed.

Lemma sortObj_bool (v : json) (b : bool) : sortObj v = JBool b → v = JBool b.
Proof. intros H. pose proof (sortObj_prim v) as Hp. by rewrite H in Hp. Qed.

Section WithHash.
Variable sha256 : string → string.

Lemma sorted_hashed_view (rec : TaskAttestation) (prev : option string) :
  sortObj (hashed_view (rec_props rec) prev)
  = JObj [ ("code_sha256", JStr (code_sha256 rec));
           ("dataset_sha256", JStr (dataset_sha256 rec));
           ("model", JStr (model rec));
           ("pass", JBool (pass rec));
           ("prevHash", json_of_prev prev);
           ("prompt_sha256", JStr (prompt_sha256 rec));
           ("run_id", JStr (run_id rec));
           ("task_id", JStr (task_id rec));
           ("timestamp", JStr (timestamp rec)) ].
Proof. destruct prev; reflexivity. Qed.

(** The digest inputs of two entries with different [prevHash] differ. *)
Lemma digest_input_prev_ne (rec rec' : TaskAttestation) (prev prev' : option string) :
  prev ≠ prev' →
  stable (hashed_view (rec_props rec) prev) ≠ stable (hashed_view (rec_props rec') prev').
Proof.
  intros Hne Heq. apply stable_inj in Heq. rewrite !sorted_hashed_view in Heq.
  injection Heq as _ _ _ _ Hp _ _ _ _. by destruct prev, prev'; simplify_eq.
Qed.

End WithHash.
End TamperFacts.

(** C4 as it is stated, at three records: with the second entry deleted,
    the verifier reports the chain break with idx 2, the [idx] that the
    offending line declares, and not with idx 1. *)
Lemma C4_reports_declared_idx :
  let r := fun t => {| Attest.run_id := "1"; Attest.task_id := t; Attest.model := "m";
              Attest.dataset_sha256 := "d"; Attest.prompt_sha256 := "p";
              Attest.code_sha256 := "c"; Attest.pass := true;
              Attest.timestamp := "2024-01-01T00:00:00.000Z" |} in
  let entries := Attest.chain_entries SHA256.sha256
                   (Attest.numbered [r "t0"; r "t1"; r "t2"] 0) None in
  Verify.verify_content SHA256.sha256 (Attest.log_text entries) = Verify.AttestationOK 3
  ∧ Verify.verify_content SHA256.sha256 (Attest.log_text (delete 1 entries))
    = Verify.ChainBreak (Some (JSON.JNum 2))
  ∧ Verify.verify_content SHA256.sha256 (Attest.log_text (delete 1 entries))
    ≠ Verify.ChainBreak (Some (JSON.JNum 1)).
Proof.
  intros r entries.
  assert (Verify.verify_content SHA256.sha256 (Attest.log_text (delete 1 entries))
          = Verify.ChainBreak (Some (JSON.JNum 2))) as H by (vm_compute; reflexivity).
  split_and!; [vm_compute; reflexivity|exact H|]. rewrite H. discriminate.
Qed.

(** C4, amended.  In a valid log of three entries from which the entry at
    index 1 is deleted, the first line passes both checks and the verifier
    ends at the second line with a chain break; the idx that it reports is
    the one that this line declares, 2.  The hash function is assumed not to
    collide on the digest inputs of the first two entries. *)
Theorem C4_delete_middle_entry (sha256 : string → string)
    (r0 r1 r2 : Attest.TaskAttestation) :
  let h0 := sha256 (JSON.stable (Attest.hashed_view (Attest.rec_props r0) None)) in
  let entries := Attest.chain_entries sha256 (Attest.numbered [r0; r1; r2] 0) None in
  Verify.no_collision sha256
    (JSON.stable (Attest.hashed_view (Attest.rec_props r0) None))
    (JSON.stable (Attest.hashed_view (Attest.rec_props r1) (Some h0))) →
  Verify.verify_loop sha256 None (take 1 (map JSON.stringify (delete 1 entries)))
  = inr (Some h0)
  ∧ Verify.verify_content sha256 (Attest.log_text (delete 1 entries))
    = Verify.ChainBreak (Some (JSON.JNum 2)).
Proof.
  intros h0 entries Hcol.
  set (h1 := sha256 (JSON.stable (Attest.hashed_view (Attest.rec_props r1) (Some h0)))).
  set (h2 := sha256 (JSON.stable (Attest.hashed_view (Attest.rec_props r2) (Some h1)))).
  assert (h0 ≠ h1) as Hne.
  { apply Hcol. by apply TamperFacts.digest_input_prev_ne. }
  change (delete 1 entries)
    with [Attest.chain_line (Attest.rec_props r0) 0 None h0;
          Attest.chain_line (Attest.rec_props r2) 2 (Some h1) h2].
  assert (Verify.check_line sha256 None
            (JSON.stringify (Attest.chain_line (Attest.rec_props r0) 0 None h0))
          = inr (Some h0)) as Hfirst.
  { rewrite ChainFacts.check_line_stringify; [|apply ChainFacts.wf_chain_line].
    apply ChainFacts.check_entry_chain_line. }
  split.
  - change (take 1 (map JSON.stringify [?a; ?b])) with [JSON.stringify a].
    unfold Verify.verify_loop. by rewrite Hfirst.
  - unfold Verify.verify_content.
    rewrite LogFacts.read_lines_log; [|by repeat constructor].
    change (map JSON.stringify [?a; ?b]) with [JSON.stringify a; JSON.stringify b].
    unfold Verify.verify_loop. rewrite Hfirst.
    rewrite ChainFacts.check_line_stringify; [|apply ChainFacts.wf_chain_line].
    rewrite ChainFacts.chain_line_props. unfold Verify.check_entry.
    change (Verify.field "prevHash" _) with (Some (JSON.JStr h1)).
    change (Verify.field "idx" _) with (Some (JSON.JNum 2)).
    unfold Verify.strict_eq_prev.
    destruct (String.eqb_spec h1 h0) as [Heq|_]; [by symmetry in Heq|]. done.
Qed.

Lemma C4_witness :
  let r := fun t => {| Attest.run_id := "1"; Attest.task_id := t; Attest.model := "m";
              Attest.dataset_sha256 := "d"; Attest.prompt_sha256 := "p";
              Attest.code_sha256 := "c"; Attest.pass := true;
              Attest.timestamp := "2024-01-01T00:00:00.000Z" |} in
  let entries := Attest.chain_entries SHA256.sha256
                   (Attest.numbered [r "t0"; r "t1"; r "t2"] 0) None in
  Verify.verify_loop SHA256.sha256 None (take 1 (map JSON.stringify (delete 1 entries)))
  = inr (Some (SHA256.sha256 (JSON.stable (Attest.hashed_view (Attest.rec_props (r "t0")) None))))
  ∧ Verify.verify_content SHA256.sha256 (Attest.log_text (delete 1 entries))
    = Verify.ChainBreak (Some (JSON.JNum 2)).
Proof.
  intros r entries.
  apply (C4_delete_middle_entry SHA256.sha256 (r "t0") (r "t1") (r "t2")).
  intros _. vm_compute. discriminate.
Defined.
Module MutationFacts.
Import Str JSON StrFacts JSONFacts LineFacts ParseTop SortFacts LogFacts Attest Verify
       ChainFacts TamperFacts.

Lemma wf_mutate (k : string) (v e : json) : wf e → wf v → wf (mutate k v e).
Proof.
  intros He Hv. destruct e as [ | | | | |ps]; try done.
  inversion He as [ | | | | |ps' Hk Hps]; subst. simpl. constructor.
  - by rewrite keys_replace_prop.
  - by apply Forall_replace_prop.
Qed.

Lemma mutate_obj (k : string) (v e : json) : is_obj e → is_obj (mutate k v e).
Proof. by destruct e. Qed.

Section WithHash.
Variable sha256 : string → string.

Lemma declared_prev_chain_line (rec : TaskAttestation) (idx : Z) (prev : option string)
    (hash : string) :
  declared_prev (chain_line (rec_props rec) idx prev hash) = prev.
Proof. by destruct prev. Qed.

Lemma check_entry_obj (prev : option string) (ps : props) :
  check_entry sha256 prev (JObj ps)
  = if negb (strict_eq_prev (get "prevHash" ps) prev) then inl (ChainBreak (get "idx" ps))
    else if negb (strict_eq_str (get "hash" ps) (sha256 (digest_input prev (JObj ps))))
         then inl (HashMismatch (get "idx" ps))
         else inr (Some (sha256 (digest_input prev (JObj ps)))).
Proof. reflexivity. Qed.

Lemma strict_eq_prev_true (v : json) (prev : option string) :
  strict_eq_prev (Some v) prev = true → v = json_of_prev prev.
Proof.
  destruct v, prev; try done. simpl. by intros ->%String.eqb_eq.
Qed.

Lemma strict_eq_str_true (v : json) (s : string) :
  strict_eq_str (Some v) s = true → v = JStr s.
Proof. destruct v; try done. simpl. by intros ->%String.eqb_eq. Qed.

Lemma sortObj_atom (v o : json) :
  match o with JArr _ | JObj _ => False | _ => True end → sortObj v = o → v = o.
Proof. intros Ho H. pose proof (sortObj_prim v) as Hp. rewrite H in Hp. by destruct o. Qed.

(** The edit of a field of the record changes what the verifier hashes. *)
Ltac digest_input_changes F :=
  match goal with
  | Hne : ?v ≠ ?o, Hs : digest_input _ _ = digest_input _ _ |- _ =>
      apply stable_inj in Hs;
      apply Hne, sortObj_atom; [exact I|];
      apply (f_equal (field F)) in Hs;
      match goal with
      | |- sortObj ?x = ?y => change (Some (sortObj x) = Some y) in Hs
      end;
      by injection Hs
  end.

Ltac record_field_case F :=
  let Heq := fresh "Heq" in
  let Hs := fresh "Hs" in
  match goal with
  | Hcol : no_collision _ _ _ |- _ =>
      right; unfold mutate; rewrite check_entry_obj;
      match goal with
      | |- context [strict_eq_prev ?d ?p] =>
          change (strict_eq_prev d p) with (strict_eq_prev (Some (json_of_prev p)) p);
          rewrite strict_eq_prev_refl
      end;
      match goal with
      | |- context [strict_eq_str ?hv ?r] =>
          destruct (strict_eq_str hv r) eqn:Heq; [|reflexivity]
      end;
      exfalso; apply strict_eq_str_true in Heq; injection Heq as Heq;
      apply Hcol; [intros Hs; digest_input_changes F | by symmetry]
  end.

Lemma check_entry_mutated (rec : TaskAttestation) (idx : Z) (prev : option string)
    (f : string) (v' old : json) :
  let h := sha256 (stable (hashed_view (rec_props rec) prev)) in
  let e := chain_line (rec_props rec) idx prev h in
  f ≠ "idx" → field f e = Some old → v' ≠ old →
  no_collision sha256 (digest_input prev (mutate f v' e)) (digest_input prev e) →
  check_entry sha256 prev (mutate f v' e) = inl (ChainBreak (Some (JNum idx)))
  ∨ check_entry sha256 prev (mutate f v' e) = inl (HashMismatch (Some (JNum idx))).
Proof.
  intros h e Hidx Hfield Hne Hcol. subst e.
  rewrite chain_line_props in *. unfold rec_props in *.
  change (get f ([("run_id", JStr (run_id rec)); ("task_id", JStr (task_id rec));
           ("model", JStr (model rec));
           ("dataset_sha256", JStr (dataset_sha256 rec));
           ("prompt_sha256", JStr (prompt_sha256 rec));
           ("code_sha256", JStr (code_sha256 rec));
           ("pass", JBool (pass rec)); ("timestamp", JStr (timestamp rec));
           ("idx", JNum idx); ("prevHash", json_of_prev prev);
           ("hash", JStr h)]) = Some old) in Hfield.
  apply get_Some_elem in Hfield.
  repeat (apply elem_of_cons in Hfield as [[= -> ->]|Hfield]);
    [..|by apply elem_of_nil in Hfield].
  - record_field_case "run_id".
  - record_field_case "task_id".
  - record_field_case "model".
  - record_field_case "dataset_sha256".
  - record_field_case "prompt_sha256".
  - record_field_case "code_sha256".
  - record_field_case "pass".
  - record_field_case "timestamp".
  - done.
  - left. unfold mutate. rewrite check_entry_obj.
    change (get "prevHash" _) with (Some v').
    destruct (strict_eq_prev (Some v') prev) eqn:Heq; [|reflexivity].
    by apply strict_eq_prev_true in Heq.
  - right. unfold mutate. rewrite check_entry_obj.
    change (get "prevHash" _) with (Some (json_of_prev prev)).
    rewrite strict_eq_prev_refl.
    change (get "hash" _) with (Some v').
    change (sha256 (digest_input prev _)) with h.
    destruct (strict_eq_str (Some v') h) eqn:Heq; [|reflexivity].
    by apply strict_eq_str_true in Heq.
Qed.

End WithHash.
End MutationFacts.
Module TamperLoop.
Import Str JSON StrFacts JSONFacts LineFacts ParseTop SortFacts LogFacts Attest Verify
       ChainFacts TamperFacts MutationFacts.

Section WithHash.
Variable sha256 : string → string.

Lemma verify_loop_cons (prev : option string) (l : string) (ls : list string) :
  verify_loop sha256 prev (l :: ls)
  = match check_line sha256 prev l with
    | inl o => inl o
    | inr prev' => verify_loop sha256 prev' ls
    end.
Proof. reflexivity. Qed.

(** In a chain with one entry edited, the loop passes the lines before the
    edited one, and reaches it with the [prevHash] that the entry declares. *)
Lemma edited_chain (g : json → json) (recs : list TaskAttestation) (from : Z)
    (prev : option string) (i : nat) (e : json) :
  chain_entries sha256 (numbered recs from) prev !! i = Some e →
  ∃ rec prev_i,
    e = chain_line (rec_props rec) (from + Z.of_nat i) prev_i
          (sha256 (stable (hashed_view (rec_props rec) prev_i)))
    ∧ verify_loop sha256 prev
        (take i (map stringify (alter g i (chain_entries sha256 (numbered recs from) prev))))
      = inr prev_i
    ∧ ∀ o, check_line sha256 prev_i (stringify (g e)) = inl o →
           verify_loop sha256 prev
             (map stringify (alter g i (chain_entries sha256 (numbered recs from) prev)))
           = inl o.
Proof.
  revert from prev i. induction recs as [|rec recs IH]; intros from prev i He; [done|].
  change (chain_entries sha256 (numbered (rec :: recs) from) prev)
    with (chain_line (rec_props rec) from prev
            (sha256 (stable (hashed_view (rec_props rec) prev)))
          :: chain_entries sha256 (numbered recs (from + 1))
               (Some (sha256 (stable (hashed_view (rec_props rec) prev))))) in *.
  destruct i as [|i].
  - injection He as <-. exists rec, prev. split_and!.
    + f_equal. lia.
    + done.
    + intros o Ho. change (alter g 0 (?x :: ?l)) with (g x :: l).
      change (map stringify (?x :: ?l)) with (stringify x :: map stringify l).
      by rewrite verify_loop_cons, Ho.
  - change ((?x :: ?l) !! S i) with (l !! i) in He.
    destruct (IH _ _ _ He) as (rec' & prev_i & -> & Hpre & Hpost).
    exists rec', prev_i. split_and!.
    + f_equal. lia.
    + change (alter g (S i) (?x :: ?l)) with (x :: alter g i l).
      change (map stringify (?x :: ?l)) with (stringify x :: map stringify l).
      change (take (S i) (?x :: ?l)) with (x :: take i l).
      rewrite verify_loop_cons, check_line_stringify; [|apply wf_chain_line].
      by rewrite check_entry_chain_line.
    + intros o Ho. change (alter g (S i) (?x :: ?l)) with (x :: alter g i l).
      change (map stringify (?x :: ?l)) with (stringify x :: map stringify l).
      rewrite verify_loop_cons, check_line_stringify; [|apply wf_chain_line].
      rewrite check_entry_chain_line. by apply Hpost.
Qed.

Lemma alter_obj (g : json → json) (i : nat) (es : list json) :
  (∀ e, is_obj e → is_obj (g e)) → Forall is_obj es → Forall is_obj (alter g i es).
Proof.
  intros Hg Hes. revert i. induction Hes as [|e es He Hes IH]; intros i; [done|].
  destruct i; constructor; auto.
Qed.

End WithHash.
End TamperLoop.

(** An edit of one field other than [idx] of the entry at index [i] of a
    valid log, to a different value: the lines before the entry pass, and
    the verifier fails at the entry. *)
Lemma field_edit_fails (sha256 : string → string)
    (recs : list Attest.TaskAttestation) (i : nat) (e : JSON.json) (f : string)
    (v' old : JSON.json) :
  let entries := Attest.chain_entries sha256 (Attest.numbered recs 0) None in
  let edited := alter (JSON.mutate f v') i entries in
  entries !! i = Some e →
  f ≠ "idx" →
  Verify.field f e = Some old → v' ≠ old → JSON.wf v' →
  Verify.no_collision sha256
    (Verify.digest_input (Verify.declared_prev e) (JSON.mutate f v' e))
    (Verify.digest_input (Verify.declared_prev e) e) →
  (∃ prev, Verify.verify_loop sha256 None (take i (map JSON.stringify edited)) = inr prev)
  ∧ (Verify.verify_content sha256 (Attest.log_text edited)
     = Verify.ChainBreak (Some (JSON.JNum (Z.of_nat i)))
     ∨ Verify.verify_content sha256 (Attest.log_text edited)
       = Verify.HashMismatch (Some (JSON.JNum (Z.of_nat i)))).
Proof.
  intros entries edited He Hf Hold Hne Hwf Hcol. subst edited entries.
  destruct (TamperLoop.edited_chain sha256 (JSON.mutate f v') recs 0 None i e He)
    as (rec & prev_i & -> & Hpre & Hpost).
  split; [by exists prev_i|].
  rewrite MutationFacts.declared_prev_chain_line in Hcol.
  assert (∀ o, Verify.check_entry sha256 prev_i
                 (JSON.mutate f v' (Attest.chain_line (Attest.rec_props rec) (0 + Z.of_nat i)
                    prev_i (sha256 (JSON.stable
                                      (Attest.hashed_view (Attest.rec_props rec) prev_i)))))
               = inl o →
               Verify.verify_content sha256
                 (Attest.log_text
                    (alter (JSON.mutate f v') i
                       (Attest.chain_entries sha256 (Attest.numbered recs 0) None))) = o)
    as Hout.
  { intros o Ho. unfold Verify.verify_content.
    rewrite LogFacts.read_lines_log.
    - rewrite (Hpost o); [done|].
      rewrite ChainFacts.check_line_stringify; [done|].
      apply MutationFacts.wf_mutate; [apply ChainFacts.wf_chain_line|done].
    - apply TamperLoop.alter_obj; [apply MutationFacts.mutate_obj|].
      apply ChainFacts.chain_entries_obj. }
  destruct (MutationFacts.check_entry_mutated sha256 rec (0 + Z.of_nat i) prev_i f v' old
              Hf Hold Hne Hcol) as [Ho|Ho]; [left|right]; by rewrite (Hout _ Ho).
Qed.


Module IdxFacts.
Import Str JSON StrFacts JSONFacts LineFacts ParseTop SortFacts LogFacts Attest Verify
       ChainFacts TamperFacts MutationFacts TamperLoop.

Section WithHash.
Variable sha256 : string → string.

(** The verifier does not see an edit of [idx]: the field is left out of
    what is hashed, and it is read only for the messages. *)
Lemma check_entry_idx_edit (rec : TaskAttestation) (idx : Z) (prev : option string)
    (v' : json) :
  let h := sha256 (stable (hashed_view (rec_props rec) prev)) in
  check_entry sha256 prev (mutate "idx" v' (chain_line (rec_props rec) idx prev h))
  = inr (Some h).
Proof.
  intros h. rewrite chain_line_props. unfold mutate. rewrite check_entry_obj.
  change (get "prevHash" _) with (Some (json_of_prev prev)).
  rewrite strict_eq_prev_refl.
  change (get "hash" _) with (Some (JStr h)).
  change (sha256 (digest_input prev _)) with h.
  simpl. by rewrite String.eqb_refl.
Qed.

Lemma idx_edit_loop (recs : list TaskAttestation) (from : Z) (prev : option string)
    (i : nat) (v' : json) :
  wf v' →
  verify_loop sha256 prev
    (map stringify (alter (mutate "idx" v') i
                      (chain_entries sha256 (numbered recs from) prev)))
  = verify_loop sha256 prev
      (map stringify (chain_entries sha256 (numbered recs from) prev)).
Proof.
  intros Hwf. revert from prev i. induction recs as [|rec recs IH]; intros from prev i; [done|].
  change (chain_entries sha256 (numbered (rec :: recs) from) prev)
    with (chain_line (rec_props rec) from prev
            (sha256 (stable (hashed_view (rec_props rec) prev)))
          :: chain_entries sha256 (numbered recs (from + 1))
               (Some (sha256 (stable (hashed_view (rec_props rec) prev))))).
  destruct i as [|i].
  - change (alter ?g 0 (?x :: ?l)) with (g x :: l).
    change (map stringify (?x :: ?l)) with (stringify x :: map stringify l).
    rewrite !verify_loop_cons.
    rewrite !check_line_stringify;
      [|apply wf_chain_line|apply wf_mutate; [apply wf_chain_line|done]].
    by rewrite check_entry_idx_edit, check_entry_chain_line.
  - change (alter ?g (S i) (?x :: ?l)) with (x :: alter g i l).
    change (map stringify (?x :: ?l)) with (stringify x :: map stringify l).
    rewrite !verify_loop_cons.
    rewrite !check_line_stringify; [|apply wf_chain_line].
    rewrite check_entry_chain_line. apply IH.
Qed.

Lemma idx_edit_undetected (recs : list TaskAttestation) (i : nat) (v' : json) :
  wf v' →
  verify_content sha256
    (log_text (alter (mutate "idx" v') i
                 (chain_entries sha256 (numbered recs 0) None)))
  = AttestationOK (length recs).
Proof.
  intros Hwf. unfold verify_content.
  rewrite read_lines_log;
    [|apply alter_obj; [apply mutate_obj|apply chain_entries_obj]].
  rewrite idx_edit_loop; [|done].
  destruct (appendEach_spec sha256 "log" (numbered recs 0) None
              {["log" := EmptyString]} EmptyString)
    as (last & _ & ->); [apply lookup_singleton_eq|].
  by rewrite length_map, length_alter, chain_entries_length, numbered_length.
Qed.

End WithHash.
End IdxFacts.

(** C2 as it is stated, at the field [idx]: in the valid log of one record,
    the [idx] of the entry is 0; with that field edited to 7 and nothing
    else changed, the verifier still succeeds. *)
Lemma C2_idx_edit_passes :
  let r := {| Attest.run_id := "1"; Attest.task_id := "t0"; Attest.model := "m";
              Attest.dataset_sha256 := "d"; Attest.prompt_sha256 := "p";
              Attest.code_sha256 := "c"; Attest.pass := true;
              Attest.timestamp := "2024-01-01T00:00:00.000Z" |} in
  let entries := Attest.chain_entries SHA256.sha256 (Attest.numbered [r] 0) None in
  Verify.verify_content SHA256.sha256 (Attest.log_text entries) = Verify.AttestationOK 1
  ∧ (entries !! 0%nat ≫= Verify.field "idx") = Some (JSON.JNum 0)
  ∧ Verify.verify_content SHA256.sha256
      (Attest.log_text (alter (JSON.mutate "idx" (JSON.JNum 7)) 0%nat entries))
    = Verify.AttestationOK 1.
Proof. vm_compute. done. Qed.

(** C2, amended.  In a valid log, an edit of one field other than [idx] of
    the entry at index [i], to a different value, makes the verifier fail
    at that entry: the lines before it pass, and the outcome is a chain
    break or a hash mismatch with idx [i].  The hash function is assumed not
    to collide on what the verifier hashes for the entry before and after
    the edit.  An edit of [idx] is not detected: the field is not part of
    what is hashed, the verifier reads it only for its messages, and the
    log still verifies. *)
Theorem C2_field_edit_detected (sha256 : string → string)
    (recs : list Attest.TaskAttestation) (i : nat) (e : JSON.json) :
  let entries := Attest.chain_entries sha256 (Attest.numbered recs 0) None in
  entries !! i = Some e →
  (∀ f v' old,
     f ≠ "idx" → Verify.field f e = Some old → v' ≠ old → JSON.wf v' →
     Verify.no_collision sha256
       (Verify.digest_input (Verify.declared_prev e) (JSON.mutate f v' e))
       (Verify.digest_input (Verify.declared_prev e) e) →
     (∃ prev, Verify.verify_loop sha256 None
                (take i (map JSON.stringify (alter (JSON.mutate f v') i entries)))
              = inr prev)
     ∧ (Verify.verify_content sha256
          (Attest.log_text (alter (JSON.mutate f v') i entries))
        = Verify.ChainBreak (Some (JSON.JNum (Z.of_nat i)))
        ∨ Verify.verify_content sha256
            (Attest.log_text (alter (JSON.mutate f v') i entries))
          = Verify.HashMismatch (Some (JSON.JNum (Z.of_nat i)))))
  ∧ (∀ v', JSON.wf v' →
       Verify.verify_content sha256
         (Attest.log_text (alter (JSON.mutate "idx" v') i entries))
       = Verify.AttestationOK (length recs)).
Proof.
  intros entries He. split.
  - intros f v' old Hf Hold Hne Hwf Hcol.
    by apply (field_edit_fails sha256 recs i e f v' old).
  - intros v' Hwf. by apply IdxFacts.idx_edit_undetected.
Qed.

Lemma C2_witness :
  let r := fun t => {| Attest.run_id := "1"; Attest.task_id := t; Attest.model := "m";
              Attest.dataset_sha256 := "d"; Attest.prompt_sha256 := "p";
              Attest.code_sha256 := "c"; Attest.pass := true;
              Attest.timestamp := "2024-01-01T00:00:00.000Z" |} in
  let entries := Attest.chain_entries SHA256.sha256
                   (Attest.numbered [r "t0"; r "t1"; r "t2"] 0) None in
  let edited := alter (JSON.mutate "pass" (JSON.JBool false)) 1%nat entries in
  (∃ prev, Verify.verify_loop SHA256.sha256 None (take 1 (map JSON.stringify edited))
           = inr prev)
  ∧ (Verify.verify_content SHA256.sha256 (Attest.log_text edited)
     = Verify.ChainBreak (Some (JSON.JNum 1))
     ∨ Verify.verify_content SHA256.sha256 (Attest.log_text edited)
       = Verify.HashMismatch (Some (JSON.JNum 1))).
Proof.
  intros r entries edited.
  assert (∃ e, entries !! 1%nat = Some e) as [e He] by (eexists; reflexivity).
  apply (proj1 (C2_field_edit_detected SHA256.sha256 [r "t0"; r "t1"; r "t2"] 1 e He)
           "pass" (JSON.JBool false) (JSON.JBool true)).
  - discriminate.
  - injection He as <-. reflexivity.
  - discriminate.
  - constructor.
  - injection He as <-. intros _. vm_compute. discriminate.
Defined.

(** ** The canonical form does not depend on the order of the keys *)

Module KeyOrderFacts.
Import Str JSON StrFacts JSONFacts ObjFacts SortFacts ParseTop TamperFacts.

Lemma get_sorted_vals (k : string) (ps : props) :
  get k (map (fun kv => (kv.1, sortObj kv.2)) ps) = sortObj <$> get k ps.
Proof.
  induction ps as [|[k' v] ps IH]; [done|]. simpl.
  destruct (String.eqb k' k); [done|exact IH].
Qed.

Lemma fold_assign_sorted_ext (vals1 vals2 : props) (ks : list string) (acc : props) :
  (∀ k, get k vals1 = get k vals2) →
  fold_left (assign_sorted vals1) ks acc = fold_left (assign_sorted vals2) ks acc.
Proof.
  intros H. revert acc. induction ks as [|k ks IH]; intros acc; [done|].
  simpl. unfold assign_sorted at 2 4. rewrite H. apply IH.
Qed.

Lemma sort_keys_unique (ks1 ks2 : list string) :
  NoDup ks1 → NoDup ks2 → (∀ k, k ∈ ks1 ↔ k ∈ ks2) → sort ks1 = sort ks2.
Proof.
  intros H1 H2 Hiff. unfold sort.
  apply (Sorted_unique String.le); [apply Sorted_merge_sort, _..|].
  rewrite !merge_sort_Permutation. by apply NoDup_Permutation.
Qed.

Lemma elem_of_keys_get (k : string) (ps : props) : k ∈ keys ps ↔ is_Some (get k ps).
Proof.
  rewrite <- has_key_true. unfold has_key.
  destruct (get k ps) as [v|]; split; intros H; [by exists v|done|done|by destruct H].
Qed.

Lemma same_sortObj (a b : json) : same_up_to_key_order a b → sortObj a = sortObj b.
Proof.
  revert b. induction a as [ | c | n | s | xs IH | ps IH ] using json_ind;
    intros b Hab; inversion Hab as [ | | | | xs' ys Hxs | ps' qs Hps Hqs Hget ]; subst;
    [done..| |].
  - change (JArr (map sortObj xs) = JArr (map sortObj ys)). f_equal.
    clear Hab. revert IH. induction Hxs as [|x y xs ys Hxy Hxs IHxs]; intros IH; [done|].
    inversion IH as [|? ? Hx Hrest]; subst. cbn [map]. f_equal; [by apply Hx|by apply IHxs].
  - rewrite !sortObj_obj. f_equal.
    rewrite (sort_keys_unique (keys ps) (keys qs)); [|done|done|].
    + apply fold_assign_sorted_ext. intros k. rewrite !get_sorted_vals.
      specialize (Hget k).
      destruct (get k ps) as [v|] eqn:Ev; inversion Hget as [? w Hvw|]; subst; [|done].
      simpl. f_equal.
      apply get_Some_elem in Ev. rewrite Forall_forall in IH.
      by apply (IH _ Ev).
    + intros k. rewrite !elem_of_keys_get. specialize (Hget k).
      inversion Hget; split; intros [? ?]; done.
Qed.

Lemma map_stable_sortObj (xs ys : list json) :
  map stable xs = map stable ys ↔ map sortObj xs = map sortObj ys.
Proof.
  revert ys. induction xs as [|x xs IH]; intros [|y ys]; try done. simpl. split.
  - intros [= Hxy Hrest]. f_equal; [by apply stable_inj|by apply IH].
  - intros [= Hxy Hrest]. f_equal; [unfold stable; by rewrite Hxy|by apply IH].
Qed.

(** A way to show that two objects are the same up to the order of their
    keys: as many members, and every member of the first found in the
    second with the same value. *)
Lemma same_obj_members (ps qs : props) :
  NoDup (keys ps) → NoDup (keys qs) → length ps = length qs →
  Forall (fun kv => ∃ v', get kv.1 qs = Some v' ∧ same_up_to_key_order kv.2 v') ps →
  same_up_to_key_order (JObj ps) (JObj qs).
Proof.
  intros Hps Hqs Hlen Hall. constructor; [done..|]. intros k.
  rewrite Forall_forall in Hall.
  destruct (get k ps) as [v|] eqn:Ev.
  - apply get_Some_elem in Ev. destruct (Hall _ Ev) as (v' & Hv' & Hv).
    simpl in Hv', Hv. rewrite Hv'. by constructor.
  - destruct (get k qs) as [w|] eqn:Ew; [exfalso|constructor].
    assert (keys ps ≡ₚ keys qs) as Hperm.
    { apply submseteq_length_Permutation.
      - apply NoDup_submseteq; [done|]. intros x Hx.
        apply elem_of_keys_get in Hx as [v Hv]. apply get_Some_elem in Hv.
        destruct (Hall _ Hv) as (v' & Hv' & _). apply elem_of_keys_get. by eexists.
      - unfold keys. rewrite !length_map. lia. }
    apply get_None in Ev. apply Ev. rewrite Hperm. apply elem_of_keys_get. by eexists.
Qed.

End KeyOrderFacts.

(** C5. Two values that differ only in the insertion order of the keys of
    their objects, at any depth, have the same canonical text, and so the
    same digest.  The elements of an array keep their order: two arrays have
    the same canonical text exactly when their elements have the same
    canonical texts position by position, so a reordering that changes this
    sequence changes what is hashed. *)
Theorem C5_digest_ignores_key_order (sha256 : string → string) :
  (∀ a b, JSON.same_up_to_key_order a b →
     JSON.stable a = JSON.stable b ∧ sha256 (JSON.stable a) = sha256 (JSON.stable b))
  ∧ (∀ xs, JSON.sortObj (JSON.JArr xs) = JSON.JArr (map JSON.sortObj xs))
  ∧ (∀ xs ys, JSON.stable (JSON.JArr xs) = JSON.stable (JSON.JArr ys)
              ↔ map JSON.stable xs = map JSON.stable ys).
Proof.
  split_and!.
  - intros a b Hab. apply KeyOrderFacts.same_sortObj in Hab.
    unfold JSON.stable. by rewrite Hab.
  - done.
  - intros xs ys. rewrite KeyOrderFacts.map_stable_sortObj. split.
    + intros H%TamperFacts.stable_inj. by injection H.
    + intros H. unfold JSON.stable. simpl JSON.sortObj. by rewrite H.
Qed.

Lemma C5_witness :
  let a := JSON.JObj [ ("b", JSON.JNum 1);
                       ("a", JSON.JArr [JSON.JObj [("y", JSON.JNull); ("x", JSON.JBool true)];
                                        JSON.JNum 2]) ] in
  let b := JSON.JObj [ ("a", JSON.JArr [JSON.JObj [("x", JSON.JBool true); ("y", JSON.JNull)];
                                        JSON.JNum 2]);
                       ("b", JSON.JNum 1) ] in
  JSON.stable a = JSON.stable b
  ∧ SHA256.sha256 (JSON.stable a) = SHA256.sha256 (JSON.stable b).
Proof.
  intros a b. apply (proj1 (C5_digest_ignores_key_order SHA256.sha256) a b).
  apply KeyOrderFacts.same_obj_members; [by apply (bool_decide_unpack _)..|done|].
  constructor; [|constructor; [|constructor]].
  - eexists. split; [reflexivity|apply JSON.same_num].
  - eexists. split; [reflexivity|]. apply JSON.same_arr.
    constructor; [|constructor; [apply JSON.same_num|constructor]].
    apply KeyOrderFacts.same_obj_members; [by apply (bool_decide_unpack _)..|done|].
    constructor; [|constructor; [|constructor]].
    + eexists. split; [reflexivity|apply JSON.same_null].
    + eexists. split; [reflexivity|apply JSON.same_bool].
Defined.

Example C5_array_order_matters :
  JSON.stable (JSON.JArr [JSON.JNum 1; JSON.JNum 2])
  ≠ JSON.stable (JSON.JArr [JSON.JNum 2; JSON.JNum 1]).
Proof. vm_compute. discriminate. Qed.

(** ** The run *)

Module RunFacts.
Import Str JSON Attest Run.

Section WithWorld.
Variable sha256 : string → string.
Variable w : World.
Variable e : Env.

Lemma attempt_loop_S (t : Task) (n : nat) (a : Z) (loc : Locals) (st : State) :
  attempt_loop w e t (S n) a loc st
  = let seed := match SEED_var e with Some s => Some (s + a)%Z | None => None end in
    let body := chat_body e (prompt t) seed in
    let sent' := sent st ++ [body] in
    match fetch w (tick st) body with
    | None =>
        Thrown {| fs := fs st; prevHash := prevHash st; idx := idx st;
                  pass1 := pass1 st; passk := passk st;
                  totalInputTokens := totalInputTokens st;
                  totalOutputTokens := totalOutputTokens st;
                  totalLatencyMs := totalLatencyMs st;
                  results := results st; tick := S (tick st); sent := sent' |}
    | Some (content, latency_ms) =>
        let code := extractCode content in
        let inputTokens := encode_length w (prompt t) in
        let outputTokens := encode_length w code in
        let '(allPass, verdicts, n1) := run_tests w code (tests t) (S (tick st)) in
        let st' :=
          {| fs := fs st; prevHash := prevHash st; idx := idx st;
             pass1 := pass1 st; passk := passk st;
             totalInputTokens := (totalInputTokens st + inputTokens)%Z;
             totalOutputTokens := (totalOutputTokens st + outputTokens)%Z;
             totalLatencyMs := (totalLatencyMs st + latency_ms)%Z;
             results := results st; tick := n1; sent := sent' |} in
        let attempts' :=
          attempts loc ++ [ {| a_idx := (a + 1)%Z; a_seed := seed;
                               a_latency_ms := latency_ms;
                               a_tokens_input := inputTokens;
                               a_tokens_output := outputTokens;
                               a_pass := allPass |} ] in
        let first := if (a =? 0)%Z && allPass then true else firstAttemptPass loc in
        if allPass then
          Done ({| attempts := attempts'; solved := true; chosenCode := code;
                   firstAttemptPass := first |}, st')
        else
          attempt_loop w e t n (a + 1)%Z
            {| attempts := attempts'; solved := solved loc;
               chosenCode := chosenCode loc; firstAttemptPass := first |} st'
    end.
Proof. reflexivity. Qed.

(** What the attempt loop keeps: the counters and the files of the run, and
    that a first attempt that passed solved the task. *)
Lemma attempt_loop_keeps (t : Task) (n : nat) (a : Z) (loc loc' : Locals) (st st' : State) :
  attempt_loop w e t n a loc st = Done (loc', st') →
  pass1 st' = pass1 st ∧ passk st' = passk st ∧ fs st' = fs st
  ∧ prevHash st' = prevHash st ∧ idx st' = idx st
  ∧ ((firstAttemptPass loc = true → solved loc = true) →
     firstAttemptPass loc' = true → solved loc' = true).
Proof.
  revert a loc st. induction n as [|n IH]; intros a loc st H.
  - injection H as <- <-. done.
  - rewrite attempt_loop_S in H. cbv zeta in H.
    destruct (fetch w (tick st) _) as [[content latency]|]; [|done].
    destruct (run_tests w (extractCode content) (tests t) (S (tick st)))
      as [[allPass verdicts] n1].
    destruct allPass.
    + injection H as <- <-. done.
    + apply IH in H as (-> & -> & -> & -> & -> & Hinv). split_and!; try done.
      intros Hloc. apply Hinv. simpl. rewrite andb_false_r. exact Hloc.
Qed.

(** With one attempt, the task is solved exactly when that attempt passed. *)
Lemma attempt_loop_once (t : Task) (loc' : Locals) (st st' : State) :
  attempt_loop w e t 1 0
    {| attempts := []; solved := false; chosenCode := EmptyString;
       firstAttemptPass := false |} st = Done (loc', st') →
  firstAttemptPass loc' = solved loc'.
Proof.
  rewrite attempt_loop_S. cbv zeta.
  destruct (fetch w (tick st) _) as [[content latency]|]; [|done].
  destruct (run_tests w (extractCode content) (tests t) (S (tick st)))
    as [[allPass verdicts] n1].
  destruct allPass; simpl; by intros [= <- <-].
Qed.

Lemma run_task_counts (runId dataset attest : string) (st st' : State) (t : Task) :
  run_task sha256 w e runId dataset attest st t = Done st' →
  (pass1 st ≤ passk st → pass1 st' ≤ passk st')%Z
  ∧ (K_ATTEMPTS e = 1%Z → pass1 st = passk st → pass1 st' = passk st').
Proof.
  unfold run_task.
  destruct (attempt_loop w e t _ _ _ st) as [[loc st1]|] eqn:Hloop; [|done].
  destruct (appendRecord _ _ _ _ _ _) as [hash fs']. intros [= <-]. simpl.
  pose proof (attempt_loop_keeps _ _ _ _ _ _ _ Hloop) as (-> & -> & _ & _ & _ & Hinv).
  split.
  - intros Hle. specialize (Hinv ltac:(done)).
    destruct (firstAttemptPass loc), (solved loc); try lia.
    all: by specialize (Hinv eq_refl).
  - intros Hk Heq. rewrite Hk in Hloop. apply attempt_loop_once in Hloop as ->.
    destruct (solved loc); lia.
Qed.

Lemma run_tasks_counts (runId dataset attest : string) (tasks : list Task) (st st' : State) :
  run_tasks sha256 w e runId dataset attest tasks st = Done st' →
  (pass1 st ≤ passk st → pass1 st' ≤ passk st')%Z
  ∧ (K_ATTEMPTS e = 1%Z → pass1 st = passk st → pass1 st' = passk st').
Proof.
  revert st. induction tasks as [|t tasks IH]; intros st H.
  - injection H as <-. done.
  - simpl in H.
    destruct (run_task sha256 w e runId dataset attest st t) as [st1|] eqn:Ht; [|done].
    apply run_task_counts in Ht as [Hle Heq]. apply IH in H as [Hle' Heq']. split; auto.
Qed.

End WithWorld.
End RunFacts.

(** C7. In the summary of every run that completes, the number of tasks
    solved at the first attempt is at most the number of tasks solved within
    the [k] attempts, for every [k] and so for every [k] of at least one;
    with [k = 1] the two numbers are equal. *)
Theorem C7_pass1_le_passk (sha256 : string → string) (w : Run.World) (e : Run.Env)
    (runId datasetRaw : string) (tasks : list Run.Task) (files : Fs.t)
    (summary : Run.Summary) (st : Run.State) :
  Run.main sha256 w e runId datasetRaw tasks files = Run.Done (summary, st) →
  (1 ≤ Run.K_ATTEMPTS e → Run.s_pass1 summary ≤ Run.s_passk summary)%Z
  ∧ (Run.K_ATTEMPTS e = 1%Z → Run.s_pass1 summary = Run.s_passk summary).
Proof.
  unfold Run.main.
  destruct (Run.run_tasks _ _ _ _ _ _ _ _) as [st1|] eqn:H; [|done].
  intros [= <- <-]. simpl.
  apply RunFacts.run_tasks_counts in H as [Hle Heq]. split.
  - intros _. by apply Hle.
  - intros Hk. by apply Heq.
Qed.
Lemma C7_witness :
  (∃ summary st,
     Demo.run Demo.env_k3 = Run.Done (summary, st)
     ∧ (Run.s_pass1 summary ≤ Run.s_passk summary)%Z)
  ∧ (∃ summary st,
       Demo.run Demo.env_k1 = Run.Done (summary, st)
       ∧ Run.s_pass1 summary = Run.s_passk summary).
Proof.
  split.
  - eexists _, _. split; [vm_compute; reflexivity|].
    refine (proj1 (C7_pass1_le_passk SHA256.sha256 Demo.world Demo.env_k3
                     "1700000000000" "[dataset]" Demo.tasks ∅ _ _ _) _).
    + vm_compute. reflexivity.
    + vm_compute. discriminate.
  - eexists _, _. split; [vm_compute; reflexivity|].
    refine (proj2 (C7_pass1_le_passk SHA256.sha256 Demo.world Demo.env_k1
                     "1700000000000" "[dataset]" Demo.tasks ∅ _ _ _) _).
    + vm_compute. reflexivity.
    + reflexivity.
Defined.

Module SamplingFacts.
Import Str JSON Attest Run.

Section WithWorld.
Variable sha256 : string → string.
Variable w : World.
Variable e : Env.

Lemma attempt_loop_sent (t : Task) (n : nat) (a : Z) (loc : Locals) (st : State) :
  Forall (from_env e) (sent st) →
  match attempt_loop w e t n a loc st with
  | Done (_, st') => Forall (from_env e) (sent st')
  | Thrown st' => Forall (from_env e) (sent st')
  end.
Proof.
  revert a loc st. induction n as [|n IH]; intros a loc st Hsent; [done|].
  rewrite RunFacts.attempt_loop_S. cbv zeta.
  assert (Forall (from_env e) (sent st ++ [chat_body e (prompt t)
            match SEED_var e with Some s => Some (s + a)%Z | None => None end])) as Hsent'.
  { apply Forall_app. split; [done|]. by repeat constructor. }
  destruct (fetch w (tick st) _) as [[content latency]|]; [|done].
  destruct (run_tests w (extractCode content) (tests t) (S (tick st)))
    as [[allPass verdicts] n1].
  destruct allPass; [done|]. by apply IH.
Qed.

Lemma run_task_sent (runId dataset attest : string) (st : State) (t : Task) :
  Forall (from_env e) (sent st) →
  match run_task sha256 w e runId dataset attest st t with
  | Done st' => Forall (from_env e) (sent st')
  | Thrown st' => Forall (from_env e) (sent st')
  end.
Proof.
  intros Hsent. unfold run_task.
  pose proof (attempt_loop_sent t (Z.to_nat (K_ATTEMPTS e)) 0
                {| attempts := []; solved := false; chosenCode := EmptyString;
                   firstAttemptPass := false |} st Hsent) as H.
  destruct (attempt_loop w e t _ _ _ st) as [[loc st1]|]; [|done].
  by destruct (appendRecord _ _ _ _ _ _).
Qed.

Lemma run_tasks_sent (runId dataset attest : string) (tasks : list Task) (st : State) :
  Forall (from_env e) (sent st) →
  match run_tasks sha256 w e runId dataset attest tasks st with
  | Done st' => Forall (from_env e) (sent st')
  | Thrown st' => Forall (from_env e) (sent st')
  end.
Proof.
  revert st. induction tasks as [|t tasks IH]; intros st Hsent; [done|].
  simpl. pose proof (run_task_sent runId dataset attest st t Hsent) as H.
  destruct (run_task sha256 w e runId dataset attest st t); [by apply IH|done].
Qed.

End WithWorld.
End SamplingFacts.

(** C8. In a run with [k = 1] every request sent to the model has
    temperature 0 and top_p 1, whether the run completes or a request fails,
    and the summary of a run that completes records temperature 0 and
    top_p 1, whatever [EVAL_TEMPERATURE] and [EVAL_TOP_P] are set to. *)
Theorem C8_k1_sampling_is_deterministic (sha256 : string → string) (w : Run.World)
    (e : Run.Env) (runId datasetRaw : string) (tasks : list Run.Task) (files : Fs.t) :
  Run.K_ATTEMPTS e = 1%Z →
  match Run.main sha256 w e runId datasetRaw tasks files with
  | Run.Done (summary, st) =>
      Run.s_temperature summary = 0%Q ∧ Run.s_top_p summary = 1%Q
      ∧ Forall Run.deterministic (Run.sent st)
  | Run.Thrown st => Forall Run.deterministic (Run.sent st)
  end.
Proof.
  intros Hk.
  assert (Run.EVAL_TEMPERATURE e = 0%Q ∧ Run.EVAL_TOP_P e = 1%Q) as [Ht Hp].
  { unfold Run.EVAL_TEMPERATURE, Run.EVAL_TOP_P. by rewrite Hk. }
  assert (∀ st, Forall (Run.from_env e) (Run.sent st) →
                Forall Run.deterministic (Run.sent st)) as Hdet.
  { intros st H. eapply Forall_impl; [exact H|]. intros b [H1 H2]. split; congruence. }
  unfold Run.main.
  pose proof (SamplingFacts.run_tasks_sent sha256 w e runId (sha256 datasetRaw)
                (Run.attestPath runId) tasks (Run.initial files runId)
                ltac:(constructor)) as H.
  destruct (Run.run_tasks _ _ _ _ _ _ _ _) as [st|st]; simpl; auto.
Qed.

Lemma C8_witness :
  Run.K_ATTEMPTS Demo.env_k1 = 1%Z
  ∧ Run.EVAL_TEMPERATURE_var Demo.env_k1 = Some (9 # 10)%Q
  ∧ match Demo.run Demo.env_k1 with
    | Run.Done (summary, st) =>
        Run.s_temperature summary = 0%Q ∧ Run.s_top_p summary = 1%Q
        ∧ Forall Run.deterministic (Run.sent st)
    | Run.Thrown st => Forall Run.deterministic (Run.sent st)
    end.
Proof.
  split; [reflexivity|]. split; [reflexivity|].
  apply (C8_k1_sampling_is_deterministic SHA256.sha256 Demo.world Demo.env_k1).
  reflexivity.
Defined.
Module SandboxFacts.
Import Str JSON Attest Run.

Section WithWorld.
Variable sha256 : string → string.
Variable w : World.
Variable e : Env.







End WithWorld.
End SandboxFacts.


Module AttestFacts.
Import Str JSON StrFacts Attest Verify Run ChainFacts.

Section WithWorld.
Variable sha256 : string → string.
Variable w : World.
Variable e : Env.

(** The code that the attempt loop keeps: none while no attempt has passed. *)
Lemma attempt_loop_chosen (t : Task) (n : nat) (a : Z) (loc loc' : Locals) (st st' : State) :
  attempt_loop w e t n a loc st = Done (loc', st') →
  (solved loc = false → chosenCode loc = EmptyString) →
  solved loc' = false → chosenCode loc' = EmptyString.
Proof.
  revert a loc st. induction n as [|n IH]; intros a loc st H Hinv.
  - by injection H as <- <-.
  - rewrite RunFacts.attempt_loop_S in H. cbv zeta in H.
    destruct (fetch w (tick st) _) as [[content latency]|]; [|done].
    destruct (run_tests w (extractCode content) (tests t) (S (tick st)))
      as [[allPass verdicts] n1].
    destruct allPass; [by injection H as <- <-|].
    eapply IH; [exact H|]. exact Hinv.
Qed.

(** For a task that no attempt solves, the record carries the string
    ["none"] where the digest of a code is expected. *)
Lemma unsolved_attests_none (t : Task) (k : nat) (loc : Locals) (st st' : State)
    (runId dataset now : string) :
  attempt_loop w e t k 0
    {| attempts := []; solved := false; chosenCode := EmptyString;
       firstAttemptPass := false |} st = Done (loc, st') →
  solved loc = false →
  code_sha256 (attestation sha256 e runId dataset t loc now) = "none"
  ∧ pass (attestation sha256 e runId dataset t loc now) = false.
Proof.
  intros H Hs.
  pose proof (attempt_loop_chosen _ _ _ _ _ _ _ H ltac:(done) Hs) as Hc.
  simpl. by rewrite Hc, Hs.
Qed.

Lemma chain_entries_snoc (items : list (TaskAttestation * Z)) (rec : TaskAttestation)
    (idx : Z) (prev last : option string) :
  verify_loop sha256 prev (map stringify (chain_entries sha256 items prev)) = inr last →
  chain_entries sha256 (items ++ [(rec, idx)]) prev
  = chain_entries sha256 items prev
    ++ [chain_line (rec_props rec) idx last
          (sha256 (stable (hashed_view (rec_props rec) last)))].
Proof.
  revert prev. induction items as [|[r i] items IH]; intros prev H.
  - by injection H as <-.
  - change (chain_entries sha256 ((r, i) :: ?l) prev)
      with (chain_line (rec_props r) i prev (sha256 (stable (hashed_view (rec_props r) prev)))
            :: chain_entries sha256 l
                 (Some (sha256 (stable (hashed_view (rec_props r) prev))))) in *.
    change (map stringify (?x :: ?l)) with (stringify x :: map stringify l) in H.
    simpl app. 
    change (chain_entries sha256 ((r, i) :: ?l) prev)
      with (chain_line (rec_props r) i prev (sha256 (stable (hashed_view (rec_props r) prev)))
            :: chain_entries sha256 l
                 (Some (sha256 (stable (hashed_view (rec_props r) prev))))).
    rewrite TamperLoop.verify_loop_cons in H.
    rewrite check_line_stringify in H; [|apply wf_chain_line].
    rewrite check_entry_chain_line in H.
    by rewrite (IH _ H).
Qed.

Lemma run_task_logged (runId dataset path : string) (items : list (TaskAttestation * Z))
    (st st' : State) (t : Task) :
  logged sha256 path items st →
  run_task sha256 w e runId dataset path st t = Done st' →
  ∃ rec idx, logged sha256 path (items ++ [(rec, idx)]) st'.
Proof.
  intros [Hfs Hloop]. unfold run_task.
  destruct (attempt_loop w e t _ _ _ st) as [[loc st1]|] eqn:Hatt; [|done].
  apply RunFacts.attempt_loop_keeps in Hatt as (_ & _ & Hfs1 & Hprev1 & Hidx1 & _).
  unfold appendRecord. intros [= <-].
  exists (attestation sha256 e runId dataset t loc (clock w (tick st1))), (idx st1).
  unfold logged. cbn [fs prevHash].
  rewrite (chain_entries_snoc _ _ _ _ _ Hloop), Hprev1.
  split.
  - unfold Fs.appendFileSync. rewrite Hfs1, Hfs. cbn [default].
    rewrite lookup_insert_eq. f_equal.
    rewrite LogFacts.log_text_app.
    change (log_text [?x]) with (stringify x +:+ String newline EmptyString).
    reflexivity.
  - rewrite List.map_app, verify_loop_app, Hloop. cbn [map].
    rewrite TamperLoop.verify_loop_cons.
    rewrite check_line_stringify; [|apply wf_chain_line].
    by rewrite check_entry_chain_line.
Qed.

Lemma run_tasks_logged (runId dataset path : string) (tasks : list Task)
    (items : list (TaskAttestation * Z)) (st st' : State) :
  logged sha256 path items st →
  run_tasks sha256 w e runId dataset path tasks st = Done st' →
  ∃ items', logged sha256 path items' st' ∧ length items' = (length items + length tasks)%nat.
Proof.
  revert items st. induction tasks as [|t tasks IH]; intros items st Hlog H.
  - injection H as <-. exists items. split; [done|]. simpl. lia.
  - simpl in H. destruct (run_task sha256 w e runId dataset path st t) as [st1|] eqn:Ht;
      [|done].
    destruct (run_task_logged _ _ _ _ _ _ _ Hlog Ht) as (rec & idx & Hlog1).
    destruct (IH _ _ Hlog1 H) as (items' & Hlog' & Hlen).
    exists items'. split; [done|]. rewrite Hlen, length_app. simpl. lia.
Qed.

End WithWorld.
End AttestFacts.

(** A run that completes leaves a log that verifies, with one record per
    task. *)
Theorem run_log_verifies (sha256 : string → string) (w : Run.World) (e : Run.Env)
    (runId datasetRaw : string) (tasks : list Run.Task) (files : Fs.t)
    (summary : Run.Summary) (st : Run.State) :
  Run.main sha256 w e runId datasetRaw tasks files = Run.Done (summary, st) →
  Verify.verify sha256 (Some (Run.s_attestation_file summary)) (Run.fs st)
  = Verify.AttestationOK (length tasks).
Proof.
  unfold Run.main.
  destruct (Run.run_tasks _ _ _ _ _ _ _ _) as [st1|] eqn:H; [|done].
  intros [= <- <-]. simpl.
  assert (Run.logged sha256 (Run.attestPath runId) [] (Run.initial files runId))
    as Hinit.
  { split; [|done]. unfold Run.initial, Attest.startChain, Fs.writeFileSync.
    cbn [Run.fs]. apply lookup_insert_eq. }
  destruct (AttestFacts.run_tasks_logged sha256 w e _ _ _ _ [] _ _ Hinit H)
    as (items & [Hfs _] & Hlen).
  unfold Verify.verify. change (String.eqb (Run.attestPath runId) EmptyString) with false.
  cbv iota. rewrite Hfs, ChainFacts.verify_content_chain. by rewrite Hlen.
Qed.

(** C3 at a task that no attempt solves.  In the run with one attempt, the
    model answers the second task with a text without a fence, which is then
    the code of the attempt, and this code fails the test.  The record of
    the task carries ["none"] where the claim has the digest of that code,
    sixty-four hexadecimal digits. *)
Lemma C3_unsolved_task_attests_none :
  ∃ summary st content entry,
    Demo.run Demo.env_k1 = Run.Done (summary, st)
    ∧ Run.fs st !! Run.attestPath "1700000000000" = Some content
    ∧ length (Verify.read_lines content) = 3%nat
    ∧ (JSON.parse <$> Verify.read_lines content !! 1%nat) = Some (Some entry)
    ∧ Verify.field "task_id" entry = Some (JSON.JStr "sub")
    ∧ Verify.field "pass" entry = Some (JSON.JBool false)
    ∧ Verify.field "code_sha256" entry = Some (JSON.JStr "none")
    ∧ Run.extractCode ("Here you go: " +:+ Demo.wrong_code)
      = "Here you go: " +:+ Demo.wrong_code
    ∧ String.length (SHA256.sha256 (Run.extractCode ("Here you go: " +:+ Demo.wrong_code)))
      = 64%nat.
Proof.
  eexists _, _, _, _.
  split; [vm_compute; reflexivity|].
  split; [vm_compute; reflexivity|].
  split; [vm_compute; reflexivity|].
  split; [vm_compute; reflexivity|].
  split; [vm_compute; reflexivity|].
  split; [vm_compute; reflexivity|].
  split; [vm_compute; reflexivity|].
  split; vm_compute; reflexivity.
Qed.

Module StreamFacts.
Import Str JSON StrFacts Access Run Stream.

Lemma starts_with_app (p s t r : string) :
  starts_with p s = Some r → starts_with p (s +:+ t) = Some (r +:+ t).
Proof.
  revert s. induction p as [|a p IH]; intros s; simpl.
  - by intros [= ->].
  - destruct s as [|b s]; [done|]. rewrite sapp_cons.
    destruct (Ascii.eqb a b); [apply IH|done].
Qed.

Lemma starts_with_length (p s r : string) :
  starts_with p s = Some r → String.length s = (String.length p + String.length r)%nat.
Proof.
  revert s. induction p as [|a p IH]; intros s; simpl.
  - by intros [= ->].
  - destruct s as [|b s]; [done|]. destruct (Ascii.eqb a b); [|done].
    intros H%IH. simpl. lia.
Qed.

Lemma starts_with_app_None (p s t : string) :
  starts_with p s = None → String.length p ≤ String.length s →
  starts_with p (s +:+ t) = None.
Proof.
  revert s. induction p as [|a p IH]; intros s; simpl; [done|].
  destruct s as [|b s]; simpl; [lia|].
  destruct (Ascii.eqb a b); [|done]. intros H Hlen. apply IH; [done|lia].
Qed.

Lemma find_sub_unfold (pat s : string) :
  find_sub pat s
  = match starts_with pat s with
    | Some after => Some (EmptyString, after)
    | None =>
        match s with
        | EmptyString => None
        | String c s' =>
            match find_sub pat s' with
            | Some (before, after) => Some (String c before, after)
            | None => None
            end
        end
    end.
Proof. by destruct s. Qed.

Lemma find_sub_length (pat s before after : string) :
  find_sub pat s = Some (before, after) →
  String.length s = (String.length before + String.length pat + String.length after)%nat.
Proof.
  revert before. induction s as [|c s IH]; intros before; rewrite find_sub_unfold.
  - destruct (starts_with pat EmptyString) as [r|] eqn:E; [|done].
    intros [= <- <-]. by apply starts_with_length in E.
  - destruct (starts_with pat (String c s)) as [r|] eqn:E.
    + intros [= <- <-]. by apply starts_with_length in E.
    + destruct (find_sub pat s) as [[b a]|]; [|done]. intros [= <- <-].
      simpl. rewrite (IH b eq_refl). lia.
Qed.

(** The first occurrence in a text is the first occurrence in every
    extension of the text. *)
Lemma find_sub_app (pat s t before after : string) :
  find_sub pat s = Some (before, after) →
  find_sub pat (s +:+ t) = Some (before, after +:+ t).
Proof.
  revert before. induction s as [|c s IH]; intros before.
  - rewrite (find_sub_unfold pat EmptyString), (find_sub_unfold pat (EmptyString +:+ t)).
    destruct (starts_with pat EmptyString) as [r|] eqn:E; [|done].
    intros [= <- <-]. by rewrite (starts_with_app _ _ t _ E).
  - rewrite (find_sub_unfold pat (String c s)), (find_sub_unfold pat (String c s +:+ t)).
    destruct (starts_with pat (String c s)) as [r|] eqn:E.
    + intros [= <- <-]. by rewrite (starts_with_app _ _ t _ E).
    + destruct (find_sub pat s) as [[b a]|] eqn:Es; [|done]. intros [= <- <-].
      rewrite sapp_cons, (IH b eq_refl).
      rewrite <- sapp_cons, starts_with_app_None; [done..|].
      apply find_sub_length in Es. simpl. lia.
Qed.

(** What the inner loop sees: the first event of the buffer and what
    follows it. *)
Lemma events_find (s : string) :
  events s
  = match find_sub blank_line s with
    | Some (before, after) => (before :: (events after).1, (events after).2)
    | None => ([], s)
    end.
Proof.
  induction s as [|c s IH]; [done|].
  rewrite find_sub_unfold. cbn [events].
  unfold blank_line at 1. cbn [starts_with].
  rewrite (Ascii.eqb_sym newline c).
  destruct (Ascii.eqb c newline) eqn:Ec.
  - destruct s as [|c' s]; [reflexivity|]. cbn [starts_with].
    destruct (Ascii.eqb newline c') eqn:Ec'.
    + by destruct (events s).
    + rewrite IH. destruct (find_sub blank_line (String c' s)) as [[b a]|]; [|done].
      by destruct (events a).
  - rewrite IH. destruct (find_sub blank_line s) as [[b a]|]; [|done].
    by destruct (events a).
Qed.


Lemma find_blank_length (s before after : string) :
  find_sub blank_line s = Some (before, after) →
  String.length s = (String.length before + 2 + String.length after)%nat.
Proof. intros H%find_sub_length. exact H. Qed.

(** Induction on the length of a text. *)
Lemma length_ind (P : string → Prop) :
  (∀ s, (∀ t, String.length t < String.length s → P t) → P s) → ∀ s, P s.
Proof.
  intros H s. remember (String.length s) as n eqn:E.
  revert s E. induction (lt_wf n) as [n _ IH]. intros s ->.
  apply H. intros t Ht. by apply (IH _ Ht).
Qed.

Lemma events_nil (s : string) : (events s).1 = [] → (events s).2 = s.
Proof.
  rewrite events_find. by destruct (find_sub blank_line s) as [[b a]|].
Qed.

(** What is left after the last event holds no event. *)
Lemma events_rest (s : string) : events (events s).2 = ([], (events s).2).
Proof.
  induction s as [s IH] using length_ind.
  rewrite (events_find s). destruct (find_sub blank_line s) as [[b a]|] eqn:E; simpl.
  - apply IH. apply find_blank_length in E. lia.
  - rewrite events_find, E. done.
Qed.

(** The events of a text that is extended: those of the text, then those
    of what it left, extended. *)
Lemma events_app (s t : string) :
  events (s +:+ t)
  = ((events s).1 ++ (events ((events s).2 +:+ t)).1, (events ((events s).2 +:+ t)).2).
Proof.
  induction s as [s IH] using length_ind.
  rewrite (events_find s). destruct (find_sub blank_line s) as [[b a]|] eqn:E; simpl.
  - rewrite (events_find (s +:+ t)), (find_sub_app _ _ t _ _ E). simpl.
    rewrite IH; [done|]. apply find_blank_length in E. lia.
  - by destruct (events (s +:+ t)).
Qed.

Lemma with_buf_buf (st : Reader) : with_buf (buf st) st = st.
Proof. by destruct st. Qed.

Lemma with_buf_twice (b b' : string) (st : Reader) :
  with_buf b (with_buf b' st) = with_buf b st.
Proof. done. Qed.

Section WithClock.
Variable now : nat → Z.

Lemma on_data_with_buf (b : string) (st : Reader) (d : string) :
  on_data now (with_buf b st) d = with_buf b (on_data now st d).
Proof.
  unfold on_data. destruct (parse d) as [j|]; [|done]. cbv zeta.
  destruct (to_boolean (delta_of j)); [|done].
  by destruct (delta_of j) as [[]|].
Qed.

(** The loop over the lines of an event leaves the buffer as it is, or
    empties it at the mark. *)
Lemma on_lines_with_buf (b : string) (st : Reader) (ls : list string) :
  on_lines now (with_buf b st) ls
  = with_buf (if existsb (fun l => String.eqb (data_of l) "[DONE]") ls
              then EmptyString else b)
             (on_lines now st ls).
Proof.
  revert st. induction ls as [|l ls IH]; intros st; [done|].
  cbn [on_lines existsb]. destruct (String.eqb (data_of l) "[DONE]"); [done|].
  cbn [orb]. by rewrite on_data_with_buf, IH.
Qed.

Lemma drain_nil (fuel : nat) (st : Reader) :
  find_sub blank_line (buf st) = None → drain now fuel st = st.
Proof. intros H. destruct fuel; [done|]. simpl. by rewrite H. Qed.

Lemma drain_step (fuel : nat) (st : Reader) (before after : string) :
  find_sub blank_line (buf st) = Some (before, after) →
  drain now (S fuel) st
  = drain now fuel (on_lines now (with_buf after st) (data_lines (trim before))).
Proof. intros H. simpl. by rewrite H. Qed.

Lemma buf_on_lines_le (b : string) (st : Reader) (ls : list string) :
  String.length (buf (on_lines now (with_buf b st) ls)) ≤ String.length b.
Proof.
  rewrite on_lines_with_buf. simpl. destruct (existsb _ ls); simpl; lia.
Qed.

(** The length of the buffer is fuel enough. *)
Lemma drain_fuel (f1 f2 : nat) (st : Reader) :
  String.length (buf st) ≤ f1 → String.length (buf st) ≤ f2 →
  drain now f1 st = drain now f2 st.
Proof.
  revert f2 st. induction f1 as [|f1 IH]; intros f2 st H1 H2.
  - destruct (buf st) eqn:E; [|simpl in H1; lia].
    cbn [drain]. symmetry. apply drain_nil. by rewrite E.
  - destruct (find_sub blank_line (buf st)) as [[b a]|] eqn:E.
    + pose proof (find_blank_length _ _ _ E) as Hlen.
      destruct f2 as [|f2]; [lia|].
      rewrite !(drain_step _ _ _ _ E).
      pose proof (buf_on_lines_le a st (data_lines (trim b))).
      apply IH; lia.
    + by rewrite !drain_nil.
Qed.

Lemma feed_fuel (fuel : nat) (st : Reader) (piece : string) :
  String.length (buf st +:+ piece) ≤ fuel →
  feed now st piece = drain now fuel (with_buf (buf st +:+ piece) st).
Proof. intros H. unfold feed. by apply drain_fuel. Qed.

(** After a turn of the outer loop, the buffer holds no event. *)
Lemma drain_buf (fuel : nat) (st : Reader) :
  String.length (buf st) ≤ fuel →
  find_sub blank_line (buf (drain now fuel st)) = None.
Proof.
  revert st. induction fuel as [|fuel IH]; intros st H.
  - simpl. by destruct (buf st); [|simpl in H; lia].
  - destruct (find_sub blank_line (buf st)) as [[b a]|] eqn:E.
    + rewrite (drain_step _ _ _ _ E). apply IH.
      pose proof (find_blank_length _ _ _ E) as Hlen.
      pose proof (buf_on_lines_le a st (data_lines (trim b))). lia.
    + by rewrite drain_nil.
Qed.

Lemma feed_buf (st : Reader) (piece : string) :
  find_sub blank_line (buf (feed now st piece)) = None.
Proof. unfold feed. by apply drain_buf. Qed.

Lemma feed_empty (st : Reader) :
  find_sub blank_line (buf st) = None → feed now st EmptyString = st.
Proof.
  intros H. unfold feed. rewrite sapp_nil_r, with_buf_buf. by apply drain_nil.
Qed.

End WithClock.
End StreamFacts.

Module StreamChunks.
Import Str JSON StrFacts Access Run Stream StreamFacts.

Lemma done_free_find (s before after : string) :
  find_sub blank_line s = Some (before, after) →
  done_free s ↔ has_done before = false ∧ done_free after.
Proof.
  intros E. unfold done_free. rewrite (events_find s), E. simpl.
  split; [by inversion 1|intros []; by constructor].
Qed.

Lemma done_free_app (s t : string) :
  done_free (s +:+ t) ↔ done_free s ∧ done_free ((events s).2 +:+ t).
Proof. unfold done_free. rewrite events_app. simpl. apply Forall_app. Qed.

Lemma whole_app (l1 l2 : list string) : whole (l1 ++ l2) = whole l1 +:+ whole l2.
Proof.
  induction l1 as [|c l1 IH]; [done|]. simpl. by rewrite IH, sapp_assoc.
Qed.

Lemma sapp_eq_nil (s t : string) : s +:+ t = EmptyString → s = EmptyString ∧ t = EmptyString.
Proof. by destruct s. Qed.

Section WithClock.
Variable now : nat → Z.

(** A turn of the inner loop on an event without the mark. *)
Lemma on_lines_no_done (after : string) (st : Reader) (evt : string) :
  has_done evt = false →
  on_lines now (with_buf after st) (data_lines (trim evt))
  = with_buf after (on_lines now st (data_lines (trim evt))).
Proof.
  intros H. rewrite on_lines_with_buf. unfold has_done in H. by rewrite H.
Qed.

(** Events taken from the buffer before a piece arrives, or with it: the
    same state, as long as none of them carries the mark. *)
Lemma drain_then_feed (fuel : nat) (st : Reader) (c : string) :
  String.length (buf st) ≤ fuel → done_free (buf st) →
  feed now (drain now fuel st) c = feed now st c.
Proof.
  revert st. induction fuel as [|fuel IH]; intros st Hlen Hfree; [done|].
  destruct (find_sub blank_line (buf st)) as [[b a]|] eqn:E; [|by rewrite drain_nil].
  pose proof (proj1 (done_free_find _ _ _ E) Hfree) as [Hnd Hrest].
  pose proof (find_blank_length _ _ _ E) as Hl.
  rewrite (drain_step _ _ _ _ _ E), (on_lines_no_done _ _ _ Hnd).
  rewrite IH; [|simpl; lia|done].
  rewrite (feed_fuel now (S (String.length (buf st +:+ c))) st c); [|lia].
  rewrite (drain_step _ _ _ b (a +:+ c)); [|by apply find_sub_app].
  rewrite with_buf_twice, (on_lines_no_done _ _ _ Hnd).
  rewrite (feed_fuel now (String.length (buf st +:+ c)) (with_buf a _) c); [done|].
  simpl. rewrite !length_sapp. lia.
Qed.

Lemma drain_buf_events (fuel : nat) (st : Reader) :
  String.length (buf st) ≤ fuel → done_free (buf st) →
  buf (drain now fuel st) = (events (buf st)).2.
Proof.
  revert st. induction fuel as [|fuel IH]; intros st Hlen Hfree.
  - simpl. destruct (buf st); [done|simpl in Hlen; lia].
  - rewrite (events_find (buf st)).
    destruct (find_sub blank_line (buf st)) as [[b a]|] eqn:E; [|by rewrite drain_nil].
    pose proof (proj1 (done_free_find _ _ _ E) Hfree) as [Hnd Hrest].
    pose proof (find_blank_length _ _ _ E) as Hl.
    rewrite (drain_step _ _ _ _ _ E), (on_lines_no_done _ _ _ Hnd).
    rewrite IH; [done|simpl; lia|done].
Qed.

Lemma feed_buf_events (st : Reader) (c : string) :
  done_free (buf st +:+ c) → buf (feed now st c) = (events (buf st +:+ c)).2.
Proof. intros H. unfold feed. by rewrite drain_buf_events. Qed.

(** Two pieces, or the two in one. *)
Lemma feed_app (st : Reader) (b c : string) :
  done_free (buf st +:+ b) → feed now (feed now st b) c = feed now st (b +:+ c).
Proof.
  intros H. unfold feed at 2. rewrite drain_then_feed; [|done..].
  unfold feed. simpl. by rewrite sapp_assoc.
Qed.

Lemma feed_empties (st : Reader) (cs : list string) :
  find_sub blank_line (buf st) = None → whole cs = EmptyString →
  fold_left (feed now) cs st = st.
Proof.
  intros Hst. induction cs as [|c cs IH]; [done|]. simpl.
  intros [-> Hcs]%sapp_eq_nil. rewrite feed_empty; auto.
Qed.

(** The pieces one by one, or the whole response in one piece. *)
Lemma stream_done_last (pieces : list string) (st : Reader) :
  find_sub blank_line (buf st) = None → done_last (buf st) pieces →
  fold_left (feed now) pieces st = feed now st (whole pieces).
Proof.
  revert st. induction pieces as [|c cs IH]; intros st Hst Hlast.
  - simpl. by rewrite feed_empty.
  - simpl in Hlast |- *. destruct Hlast as [[Hfree Hlast]|Hnil].
    + rewrite IH; [by apply feed_app|apply feed_buf|by rewrite feed_buf_events].
    + rewrite feed_empties; [by rewrite Hnil, sapp_nil_r|apply feed_buf|done].
Qed.

End WithClock.

Lemma done_free_last (b : string) (pieces : list string) :
  done_free (b +:+ whole pieces) → done_last b pieces.
Proof.
  revert b. induction pieces as [|c cs IH]; intros b H; [done|].
  simpl in H |- *. rewrite <- sapp_assoc in H. apply done_free_app in H as [H1 H2].
  left. split; [done|by apply IH].
Qed.

(** A response whose last event carries the mark and ends the text. *)
Lemma last_done (b : string) (pieces : list string) (evs : list string) (e : string) :
  events (b +:+ whole pieces) = (evs ++ [e], EmptyString) →
  Forall (fun e => has_done e = false) evs →
  done_last b pieces.
Proof.
  revert b evs. induction pieces as [|c cs IH]; intros b evs H Hevs; [done|].
  simpl in H |- *. rewrite <- sapp_assoc, events_app in H.
  injection H as H1 H2.
  destruct (events ((events (b +:+ c)).2 +:+ whole cs)) as [evs2 r2] eqn:E2. simpl in *.
  destruct evs2 as [|e' evs2 _] using rev_ind.
  - right. pose proof (events_nil ((events (b +:+ c)).2 +:+ whole cs)) as Hn.
    rewrite E2 in Hn. simpl in Hn. specialize (Hn eq_refl). rewrite H2 in Hn.
    symmetry in Hn. by apply sapp_eq_nil in Hn as [_ ?].
  - left. rewrite app_assoc in H1. apply app_inj_tail in H1 as [<- ->].
    apply Forall_app in Hevs as [Hevs1 Hevs2]. split; [done|].
    apply (IH _ evs2); [|done]. by rewrite E2, H2.
Qed.

End StreamChunks.

Module StreamEvents.
Import Str JSON StrFacts JSONFacts LineFacts LogFacts ParseTop Access Run Stream
       StreamFacts StreamChunks.

Lemma find_blank_no_nl (e s : string) :
  no_nl e = true → find_sub blank_line (e +:+ blank_line +:+ s) = Some (e, s).
Proof.
  induction e as [|c e IH]; [done|]. intros H. simpl in H.
  apply andb_prop in H as [Hc He].
  rewrite !sapp_cons, find_sub_unfold, (IH He).
  unfold blank_line at 1. cbn [starts_with].
  rewrite Ascii.eqb_sym. by destruct (Ascii.eqb c newline).
Qed.

Lemma data_line_no_nl (v : json) : no_nl ("data: " +:+ stringify v) = true.
Proof. by rewrite no_nl_app, no_nl_stringify. Qed.

Lemma data_line_trim (ps : props) :
  trim ("data: " +:+ stringify (JObj ps)) = "data: " +:+ stringify (JObj ps).
Proof.
  unfold trim. change (trim_start ("data: " +:+ ?s)) with ("data: " +:+ s).
  rewrite trim_end_app. destruct (line_ok_obj ps) as (_ & _ & ->). done.
Qed.

Lemma data_lines_data_line (ps : props) :
  data_lines (trim ("data: " +:+ stringify (JObj ps))) = ["data: " +:+ stringify (JObj ps)].
Proof.
  rewrite data_line_trim. unfold data_lines.
  rewrite split_nl_no_nl; [done|apply data_line_no_nl].
Qed.

Lemma data_of_data_line (ps : props) :
  data_of ("data: " +:+ stringify (JObj ps)) = stringify (JObj ps).
Proof.
  unfold data_of. change (slice_from 6 ("data: " +:+ ?s)) with s.
  unfold trim. destruct (line_ok_obj ps) as (_ & -> & ->). done.
Qed.

Lemma has_done_data_line (ps : props) :
  has_done ("data: " +:+ stringify (JObj ps)) = false.
Proof.
  unfold has_done. rewrite data_lines_data_line. cbn [existsb].
  by rewrite data_of_data_line.
Qed.

Lemma find_data_event (ps : props) (s : string) :
  find_sub blank_line (data_event (JObj ps) +:+ s)
  = Some ("data: " +:+ stringify (JObj ps), s).
Proof.
  assert (data_event (JObj ps) +:+ s
          = ("data: " +:+ stringify (JObj ps)) +:+ blank_line +:+ s) as ->.
  { unfold data_event. by rewrite !sapp_assoc. }
  apply find_blank_no_nl, data_line_no_nl.
Qed.

Lemma events_data_event (ps : props) (s : string) :
  events (data_event (JObj ps) +:+ s)
  = (("data: " +:+ stringify (JObj ps)) :: (events s).1, (events s).2).
Proof. by rewrite events_find, find_data_event. Qed.


Lemma whole_data_events_cons (j : json) (js : list json) (s : string) :
  whole (map data_event (j :: js)) +:+ s
  = data_event j +:+ (whole (map data_event js) +:+ s).
Proof. simpl. by rewrite sapp_assoc. Qed.

Lemma events_response (js : list json) (s : string) :
  Forall is_obj js →
  events (whole (map data_event js) +:+ s)
  = (map (fun j => "data: " +:+ stringify j) js ++ (events s).1, (events s).2).
Proof.
  induction 1 as [|j js Hj Hjs IH].
  { cbn [map whole fold_right]. rewrite sapp_nil_l. by destruct (events s). }
  rewrite whole_data_events_cons. destruct j as [ | | | | |ps]; try done.
  rewrite events_data_event, IH. done.
Qed.

Lemma events_done_event : events done_event = (["data: [DONE]"], EmptyString).
Proof. reflexivity. Qed.

Lemma done_free_response (js : list json) :
  Forall is_obj js → done_free (whole (map data_event js)).
Proof.
  intros Hjs. unfold done_free.
  rewrite <- (sapp_nil_r (whole _)), events_response; [|done]. simpl.
  rewrite app_nil_r. induction Hjs as [|j js Hj Hjs IH]; constructor; [|done].
  destruct j as [ | | | | |ps]; try done. apply has_done_data_line.
Qed.

(** A response made of data events, with or without the event that ends
    the answer, has the mark last if at all. *)
Lemma done_last_response (js : list json) (tail : string) (pieces : list string) :
  Forall is_obj js → tail = EmptyString ∨ tail = done_event →
  whole pieces = whole (map data_event js) +:+ tail →
  done_last EmptyString pieces.
Proof.
  intros Hjs [->| ->] Hw.
  - apply done_free_last. rewrite sapp_nil_l, Hw, sapp_nil_r. by apply done_free_response.
  - apply (last_done _ _ (map (fun j => "data: " +:+ stringify j) js) "data: [DONE]").
    + rewrite sapp_nil_l, Hw, events_response; [|done]. by rewrite events_done_event.
    + pose proof (done_free_response js Hjs) as H. unfold done_free in H.
      rewrite <- (sapp_nil_r (whole _)), events_response in H; [|done]. simpl in H.
      by rewrite app_nil_r in H.
Qed.

Section WithClock.
Variable now : nat → Z.

(** The events of a response, taken from the buffer one after the other. *)
Lemma drain_response (js : list json) (s : string) (st : Reader) (fuel : nat) :
  Forall is_obj js →
  String.length (whole (map data_event js) +:+ s) ≤ fuel →
  drain now fuel (with_buf (whole (map data_event js) +:+ s) st)
  = drain now fuel
      (with_buf s (fold_left (fun st j => on_data now st (stringify j)) js st)).
Proof.
  intros Hjs. revert st fuel. induction Hjs as [|j js Hj Hjs IH]; intros st fuel Hlen; [done|].
  rewrite whole_data_events_cons in Hlen |- *. destruct j as [ | | | | |ps]; try done.
  pose proof (find_data_event ps (whole (map data_event js) +:+ s)) as E.
  pose proof (find_blank_length _ _ _ E) as Hl.
  destruct fuel as [|fuel]; [lia|].
  rewrite (drain_step now fuel (with_buf _ st) _ _ E), with_buf_twice.
  rewrite on_lines_no_done; [|apply has_done_data_line].
  rewrite data_lines_data_line. cbn [on_lines]. rewrite data_of_data_line.
  change (String.eqb (stringify (JObj ps)) "[DONE]") with false. cbv iota.
  rewrite IH; [|lia].
  cbn [fold_left]. pose proof (length_sapp (whole (map data_event js)) s) as Hs.
  apply drain_fuel; cbn [buf with_buf]; lia.
Qed.

Lemma on_data_stringify (st : Reader) (j : json) :
  wf j → text (on_data now st (stringify j)) = text st +:+ piece_of j.
Proof.
  intros Hj. unfold on_data, piece_of. rewrite parse_stringify; [|done]. cbv zeta.
  destruct (delta_of j) as [[ |b|n|d|xs|ps]|]; simpl; try by rewrite sapp_nil_r.
  - destruct b; simpl; by rewrite sapp_nil_r.
  - destruct (negb (n =? 0)%Z); simpl; by rewrite sapp_nil_r.
  - destruct d; simpl; by rewrite ?sapp_nil_r.
Qed.

Lemma text_fold_on_data (js : list json) (st : Reader) :
  Forall wf js →
  text (fold_left (fun st j => on_data now st (stringify j)) js st)
  = text st +:+ whole (map piece_of js).
Proof.
  intros Hjs. revert st. induction Hjs as [|j js Hj Hjs IH]; intros st.
  - simpl. by rewrite sapp_nil_r.
  - cbn [fold_left map whole fold_right]. rewrite IH, on_data_stringify; [|done].
    by rewrite sapp_assoc.
Qed.

Lemma feed_response (js : list json) (tail : string) :
  Forall is_obj js → tail = EmptyString ∨ tail = done_event →
  feed now init (whole (map data_event js) +:+ tail)
  = with_buf EmptyString (fold_left (fun st j => on_data now st (stringify j)) js init).
Proof.
  intros Hjs Htail. unfold feed. cbn [buf init]. rewrite sapp_nil_l.
  rewrite drain_response; [|done..].
  destruct Htail as [->| ->].
  - by apply drain_nil.
  - destruct (String.length _) as [|fuel] eqn:E.
    { rewrite length_sapp in E. simpl in E. lia. }
    rewrite (drain_step now fuel (with_buf done_event _) "data: [DONE]" EmptyString);
      [|done].
    by apply drain_nil.
Qed.

End WithClock.
End StreamEvents.

(** X1. However the response is cut into pieces, the reader ends in the
    same state: the same answer, the same text left in the buffer, the same
    time of the first piece.  This holds for a response none of whose events
    carries the mark [[DONE]]. *)
Theorem stream_any_chunking (now : nat → Z) (pieces pieces' : list string) :
  Stream.whole pieces = Stream.whole pieces' →
  Stream.done_free (Stream.whole pieces) →
  Stream.stream now pieces = Stream.stream now pieces'.
Proof.
  intros Hw Hfree. unfold Stream.stream.
  rewrite !StreamChunks.stream_done_last; [by rewrite Hw|done| |done|].
  - apply StreamChunks.done_free_last. by rewrite <- Hw.
  - by apply StreamChunks.done_free_last.
Qed.

Lemma stream_any_chunking_witness :
  let body := Stream.data_event (Stream.payload "Hello, ") +:+ ": keep-alive"
              +:+ Stream.blank_line +:+ Stream.data_event (Stream.payload "world") in
  Stream.stream StreamDemo.clock (StreamDemo.cut [3; 40; 1; 1; 20] body)
  = Stream.stream StreamDemo.clock [body]
  ∧ Stream.text (Stream.stream StreamDemo.clock [body]) = "Hello, world".
Proof.
  intros body. split; [|vm_compute; reflexivity].
  apply stream_any_chunking.
  - vm_compute. reflexivity.
  - vm_compute. repeat constructor.
Defined.

(** X2. The answer is the pieces that the events carry, end to end, in the
    order of the events: for a response made of data events, each with the
    text of an object on one line, followed or not by the event [[DONE]],
    and cut into pieces in any way, the reader ends with the deltas of the
    events that are strings, concatenated, and with an empty buffer. *)
Theorem stream_collects_deltas (now : nat → Z) (js : list JSON.json) (tail : string)
    (pieces : list string) :
  Forall JSON.is_obj js → Forall JSON.wf js →
  tail = EmptyString ∨ tail = Stream.done_event →
  Stream.whole pieces = Stream.whole (map Stream.data_event js) +:+ tail →
  Stream.text (Stream.stream now pieces) = Stream.whole (map Stream.piece_of js)
  ∧ Stream.buf (Stream.stream now pieces) = EmptyString.
Proof.
  intros Hobj Hwf Htail Hw. unfold Stream.stream.
  rewrite StreamChunks.stream_done_last;
    [|done|by apply (StreamEvents.done_last_response js tail)].
  rewrite Hw, StreamEvents.feed_response; [|done..]. split; [|done].
  cbn [Stream.text Stream.with_buf].
  by rewrite StreamEvents.text_fold_on_data.
Qed.

Lemma stream_collects_deltas_witness :
  Stream.text (Stream.stream StreamDemo.clock
                 (StreamDemo.cut [10; 33; 1; 5; 60; 1] StreamDemo.answer_only))
  = "Hello, world".
Proof.
  refine (proj1 (stream_collects_deltas StreamDemo.clock
                   [Stream.payload "Hello, "; Stream.payload "world"]
                   Stream.done_event _ _ _ _ _)).
  - repeat constructor.
  - repeat constructor; by apply (bool_decide_unpack _).
  - by right.
  - vm_compute. reflexivity.
Defined.

Module StreamTimes.
Import Str JSON StrFacts Access Run Stream StreamFacts.

Section WithClock.
Variable now : nat → Z.

Lemma first_once_with_buf (b : string) (st : Reader) :
  first_once now st → first_once now (with_buf b st).
Proof. done. Qed.

Lemma first_once_on_data (st : Reader) (d : string) :
  first_once now st → first_once now (on_data now st d).
Proof.
  intros H. unfold on_data. destruct (parse d) as [j|]; [|done]. cbv zeta.
  destruct (to_boolean (delta_of j)); [|done].
  assert (match tFirst st with None => Some (now 1%nat) | Some t => Some t end
          = Some (now 1%nat)) as E.
  { destruct H as [[-> _]| ->]; done. }
  destruct (delta_of j) as [[]|]; right; exact E.
Qed.

Lemma first_once_on_lines (st : Reader) (ls : list string) :
  first_once now st → first_once now (on_lines now st ls).
Proof.
  revert st. induction ls as [|l ls IH]; intros st H; [done|]. cbn [on_lines].
  destruct (String.eqb (data_of l) "[DONE]"); [done|].
  by apply IH, first_once_on_data.
Qed.

Lemma first_once_drain (fuel : nat) (st : Reader) :
  first_once now st → first_once now (drain now fuel st).
Proof.
  revert st. induction fuel as [|fuel IH]; intros st H; [done|]. cbn [drain].
  destruct (find_sub blank_line (buf st)) as [[b a]|]; [|done].
  by apply IH, first_once_on_lines.
Qed.

Lemma first_once_stream (pieces : list string) : first_once now (stream now pieces).
Proof.
  unfold stream.
  assert (first_once now init) as H by (by left).
  revert H. generalize init. induction pieces as [|c cs IH]; intros st H; [done|].
  simpl. apply IH. unfold feed. by apply first_once_drain.
Qed.

End WithClock.
End StreamTimes.

(** X3. The timings that the script reports add up: the time to the first
    piece and the generation time make the total.  A stream that brings no
    piece of an answer reports a generation time of zero and a time to the
    first piece equal to the total; when the answer is not empty, the first
    piece was timed, at the second call of the clock. *)
Theorem stream_timings_add_up (now : nat → Z) (pieces : list string) :
  let st := Stream.stream now pieces in
  let t := Stream.timings now st in
  (Stream.ttft_ms t + Stream.generation_ms t = Stream.total_ms t)%Z
  ∧ (Stream.tFirst st = None →
     Stream.text st = EmptyString ∧ Stream.generation_ms t = 0%Z
     ∧ Stream.ttft_ms t = Stream.total_ms t)
  ∧ (Stream.text st ≠ EmptyString →
     Stream.ttft_ms t = (now 1%nat - now 0%nat)%Z
     ∧ Stream.generation_ms t = (now 2%nat - now 1%nat)%Z).
Proof.
  intros st t. pose proof (StreamTimes.first_once_stream now pieces) as H.
  fold st in H. subst t. unfold Stream.timings. cbn [Stream.ttft_ms Stream.generation_ms Stream.total_ms].
  split_and!.
  - lia.
  - intros E. destruct H as [[_ Ht]|H]; [|congruence]. rewrite E. simpl. split_and!; [done|lia|done].
  - intros Hne. destruct H as [[_ Ht]|H]; [done|]. rewrite H. done.
Qed.

(** X4. The mark [[DONE]] does not end the reading.  With an empty buffer,
    a piece that begins with the event [[DONE]] changes nothing, whatever
    follows the event in the piece: what follows is discarded.  But the same
    text arriving as the next piece is read as if no mark had come. *)
Theorem stream_done_mark (now : nat → Z) (st : Stream.Reader) (rest : string) :
  Stream.buf st = EmptyString →
  Stream.feed now st (Stream.done_event +:+ rest) = st
  ∧ Stream.feed now (Stream.feed now st Stream.done_event) rest = Stream.feed now st rest.
Proof.
  intros Hbuf.
  assert (∀ r, Stream.feed now st (Stream.done_event +:+ r) = st) as Hdone.
  { intros r. unfold Stream.feed. rewrite Hbuf, StrFacts.sapp_nil_l.
    destruct (String.length _) as [|fuel] eqn:E; [done|].
    rewrite (StreamFacts.drain_step now fuel (Stream.with_buf _ st) "data: [DONE]" r); [|done].
    rewrite StreamFacts.drain_nil; [|done].
    change (Stream.data_lines (Str.trim "data: [DONE]")) with ["data: [DONE]"].
    cbn [Stream.on_lines].
    change (String.eqb (Stream.data_of "data: [DONE]") "[DONE]") with true. cbv iota.
    destruct st as [b t f]. simpl in Hbuf. by subst b. }
  split; [apply Hdone|].
  by rewrite <- (StrFacts.sapp_nil_r Stream.done_event), Hdone.
Qed.

Lemma stream_done_mark_witness :
  let ev := Stream.data_event (Stream.payload "more") in
  Stream.text (Stream.stream StreamDemo.clock [Stream.done_event +:+ ev]) = EmptyString
  ∧ Stream.text (Stream.stream StreamDemo.clock [Stream.done_event; ev]) = "more".
Proof.
  intros ev.
  destruct (stream_done_mark StreamDemo.clock Stream.init ev eq_refl) as [H1 H2].
  unfold Stream.stream. cbn [fold_left]. rewrite H1, H2. split; [reflexivity|].
  vm_compute. reflexivity.
Defined.

Module ChainOrder.
Import Str JSON StrFacts JSONFacts LineFacts ParseTop SortFacts LogFacts Attest Verify
       ChainFacts TamperFacts MutationFacts TamperLoop Chain.

Section WithHash.
Variable sha256 : string → string.

Lemma chain_entries_cons (rec : TaskAttestation) (idx : Z)
    (items : list (TaskAttestation * Z)) (prev : option string) :
  chain_entries sha256 ((rec, idx) :: items) prev
  = chain_line (rec_props rec) idx prev (sha256 (stable (hashed_view (rec_props rec) prev)))
    :: chain_entries sha256 items (Some (sha256 (stable (hashed_view (rec_props rec) prev)))).
Proof. reflexivity. Qed.

Lemma hashes_cons (rec : TaskAttestation) (idx : Z)
    (items : list (TaskAttestation * Z)) (prev : option string) :
  hashes sha256 ((rec, idx) :: items) prev
  = sha256 (stable (hashed_view (rec_props rec) prev))
    :: hashes sha256 items (Some (sha256 (stable (hashed_view (rec_props rec) prev)))).
Proof. reflexivity. Qed.

Lemma hashes_length (items : list (TaskAttestation * Z)) (prev : option string) :
  length (hashes sha256 items prev) = length items.
Proof.
  revert prev. induction items as [|[rec idx] items IH]; intros prev; [done|].
  rewrite hashes_cons. simpl. by rewrite IH.
Qed.

Lemma chain_entries_take (n : nat) (items : list (TaskAttestation * Z))
    (prev : option string) :
  take n (chain_entries sha256 items prev) = chain_entries sha256 (take n items) prev.
Proof.
  revert n prev. induction items as [|[rec idx] items IH]; intros n prev; [by destruct n|].
  destruct n as [|n]; [done|].
  rewrite chain_entries_cons. cbn [take]. by rewrite chain_entries_cons, IH.
Qed.

Lemma numbered_take (n : nat) (recs : list TaskAttestation) (from : Z) :
  take n (numbered recs from) = numbered (take n recs) from.
Proof.
  revert n from. induction recs as [|r recs IH]; intros n from; [by destruct n|].
  destruct n as [|n]; [done|]. simpl. by rewrite IH.
Qed.

(** The entry at a position of a chain: the line that the append wrote,
    with the hash of the entry before. *)
Lemma chain_entry_at (recs : list TaskAttestation) (from : Z) (j : nat) (e : json) :
  chain_entries sha256 (numbered recs from) None !! j = Some e →
  ∃ rec h,
    hashes sha256 (numbered recs from) None !! j = Some h
    ∧ e = chain_line (rec_props rec) (from + Z.of_nat j)
            (prev_at (hashes sha256 (numbered recs from) None) j) h.
Proof.
  assert (∀ prev p0 recs from j e,
            chain_entries sha256 (numbered recs from) prev !! j = Some e →
            ∃ rec h,
              hashes sha256 (numbered recs from) prev !! j = Some h
              ∧ e = chain_line (rec_props rec) (from + Z.of_nat j)
                      (match j with
                       | O => prev
                       | S j' => (p0 :: hashes sha256 (numbered recs from) prev) !! j
                       end) h) as Hgen.
  { clear. intros prev p0 recs. revert prev p0.
    induction recs as [|rec recs IH]; intros prev p0 from j e He; [done|].
    change (numbered (rec :: recs) from) with ((rec, from) :: numbered recs (from + 1)) in *.
    rewrite chain_entries_cons in He. rewrite hashes_cons.
    destruct j as [|j].
    - injection He as <-. eexists rec, _. split; [done|]. f_equal. lia.
    - change ((?x :: ?l) !! S j) with (l !! j) in He.
      destruct (IH _ (sha256 (stable (hashed_view (rec_props rec) prev))) _ _ _ He)
        as (rec' & h & Hh & ->).
      exists rec', h. split; [done|]. f_equal; [lia|].
      destruct j as [|j]; [done|]. done. }
  intros He. destruct (Hgen None EmptyString recs from j e He) as (rec & h & Hh & ->).
  exists rec, h. split; [done|]. f_equal. by destruct j.
Qed.

(** The loop passes the first [k] entries of a chain, and ends with the
    hash of the last of them. *)
Lemma verify_loop_take (recs : list TaskAttestation) (from : Z) (k : nat) :
  k ≤ length recs →
  verify_loop sha256 None
    (map stringify (take k (chain_entries sha256 (numbered recs from) None)))
  = inr (prev_at (hashes sha256 (numbered recs from) None) k).
Proof.
  assert (∀ prev p0 recs from k, k ≤ length recs →
            verify_loop sha256 prev
              (map stringify (take k (chain_entries sha256 (numbered recs from) prev)))
            = inr (match k with
                   | O => prev
                   | S k' => (p0 :: hashes sha256 (numbered recs from) prev) !! k
                   end)) as Hgen.
  { clear. intros prev p0 recs. revert prev p0.
    induction recs as [|rec recs IH]; intros prev p0 from k Hk.
    - simpl in Hk. by replace k with 0%nat by lia.
    - change (numbered (rec :: recs) from) with ((rec, from) :: numbered recs (from + 1)).
      rewrite chain_entries_cons, hashes_cons. destruct k as [|k]; [done|].
      cbn [take map]. rewrite verify_loop_cons, check_line_stringify; [|apply wf_chain_line].
      rewrite check_entry_chain_line.
      rewrite (IH _ (sha256 (stable (hashed_view (rec_props rec) prev)))); [|simpl in Hk; lia].
      by destruct k. }
  intros Hk. rewrite (Hgen None EmptyString); [|done]. by destruct k.
Qed.

(** With distinct hashes, the entries of a chain declare distinct
    [prevHash]. *)
Lemma prev_at_inj (hs : list string) (j k : nat) :
  NoDup hs → j ≤ length hs → k ≤ length hs →
  prev_at hs j = prev_at hs k → j = k.
Proof.
  intros Hnd Hj Hk. destruct j as [|j], k as [|k]; simpl; [done| | |].
  - intros H. symmetry in H. apply lookup_ge_None in H. lia.
  - intros H. apply lookup_ge_None in H. lia.
  - intros H. destruct (hs !! j) as [a|] eqn:E.
    + f_equal. symmetry in H. by apply (NoDup_lookup hs j k a).
    + apply lookup_ge_None in E. lia.
Qed.

Lemma strict_eq_prev_ne (p q : option string) :
  p ≠ q → strict_eq_prev (Some (json_of_prev p)) q = false.
Proof.
  destruct p as [a|], q as [b|]; simpl; try done.
  intros H. apply String.eqb_neq. congruence.
Qed.

(** An entry with a [prevHash] that is not the expected one. *)
Lemma check_entry_out_of_place (rec : TaskAttestation) (idx : Z) (p q : option string)
    (h : string) :
  p ≠ q →
  check_entry sha256 q (chain_line (rec_props rec) idx p h)
  = inl (ChainBreak (Some (JNum idx))).
Proof.
  intros H. rewrite chain_line_props, check_entry_obj.
  change (get "prevHash" _) with (Some (json_of_prev p)).
  rewrite strict_eq_prev_ne; [|done]. done.
Qed.

(** After the first [k] entries of a chain, an entry of the chain that is
    not the one at [k]. *)
Lemma out_of_place (recs : list TaskAttestation) (k j : nat) (e : json) (rest : list json) :
  NoDup (hashes sha256 (numbered recs 0) None) →
  k ≤ length recs →
  chain_entries sha256 (numbered recs 0) None !! j = Some e →
  j ≠ k →
  Forall is_obj rest →
  verify_content sha256
    (log_text (take k (chain_entries sha256 (numbered recs 0) None) ++ e :: rest))
  = ChainBreak (Some (JNum (Z.of_nat j))).
Proof.
  intros Hnd Hk He Hjk Hrest.
  destruct (chain_entry_at _ _ _ _ He) as (rec & h & Hh & ->).
  assert (j < length recs) as Hj.
  { apply lookup_lt_Some in Hh. by rewrite hashes_length, numbered_length in Hh. }
  unfold verify_content. rewrite read_lines_log.
  2:{ apply Forall_app. split; [apply Forall_take, chain_entries_obj|by constructor]. }
  rewrite List.map_app, verify_loop_app, verify_loop_take; [|done].
  cbn [map]. rewrite verify_loop_cons, check_line_stringify; [|apply wf_chain_line].
  rewrite check_entry_out_of_place; [done|].
  intros Heq. apply Hjk.
  apply (prev_at_inj (hashes sha256 (numbered recs 0) None)); [done|..|done];
    rewrite hashes_length, numbered_length; lia.
Qed.

End WithHash.
End ChainOrder.

(** X5. The verifier does not detect that the end of a log was cut off:
    the first [n] entries of a valid log are a valid log. *)
Theorem truncated_log_verifies (sha256 : string → string)
    (recs : list Attest.TaskAttestation) (n : nat) :
  Verify.verify_content sha256
    (Attest.log_text (take n (Attest.chain_entries sha256 (Attest.numbered recs 0) None)))
  = Verify.AttestationOK (n `min` length recs).
Proof.
  rewrite ChainOrder.chain_entries_take, ChainFacts.verify_content_chain.
  by rewrite length_take, ChainFacts.numbered_length.
Qed.

(** X6. An entry of a valid log that stands where it does not belong is
    reported: in a log that begins with the first [k] entries of the chain
    and goes on with the entry that the chain has at another position [j],
    the verifier passes the [k] lines and ends at the next with a chain
    break, reporting the idx of the entry, [j].  A deleted entry, a
    repeated entry and entries that changed places are cases of this.  The
    hashes of the entries are assumed to be distinct. *)
Theorem misplaced_entry_breaks_chain (sha256 : string → string)
    (recs : list Attest.TaskAttestation) (k j : nat) (e : JSON.json)
    (rest : list JSON.json) :
  let entries := Attest.chain_entries sha256 (Attest.numbered recs 0) None in
  NoDup (Chain.hashes sha256 (Attest.numbered recs 0) None) →
  k ≤ length recs →
  entries !! j = Some e →
  j ≠ k →
  Forall JSON.is_obj rest →
  Verify.verify_loop sha256 None (map JSON.stringify (take k entries))
  = inr (Chain.prev_at (Chain.hashes sha256 (Attest.numbered recs 0) None) k)
  ∧ Verify.verify_content sha256 (Attest.log_text (take k entries ++ e :: rest))
    = Verify.ChainBreak (Some (JSON.JNum (Z.of_nat j))).
Proof.
  intros entries Hnd Hk He Hjk Hrest. split.
  - by apply ChainOrder.verify_loop_take.
  - by apply ChainOrder.out_of_place.
Qed.

(** X7. A deleted entry is reported, for every log and every entry but
    the last: when the entry at index [i] of a valid log is deleted, the
    verifier ends with a chain break at the line that follows, and reports
    the idx that this line declares, [i + 1].  The hashes of the entries are assumed to be
    distinct. *)
Theorem deleted_entry_breaks_chain (sha256 : string → string)
    (recs : list Attest.TaskAttestation) (i : nat) :
  let entries := Attest.chain_entries sha256 (Attest.numbered recs 0) None in
  NoDup (Chain.hashes sha256 (Attest.numbered recs 0) None) →
  S i < length recs →
  Verify.verify_content sha256 (Attest.log_text (delete i entries))
  = Verify.ChainBreak (Some (JSON.JNum (Z.of_nat i + 1))).
Proof.
  intros entries Hnd Hi.
  assert (length entries = length recs) as Hlen.
  { subst entries. by rewrite ChainFacts.chain_entries_length, ChainFacts.numbered_length. }
  destruct (lookup_lt_is_Some_2 entries (S i)) as [e He]; [lia|].
  rewrite delete_take_drop, (drop_S _ _ _ He).
  replace (Z.of_nat i + 1)%Z with (Z.of_nat (S i)) by lia.
  apply ChainOrder.out_of_place; [done|lia|done|lia|].
  apply Forall_drop, ChainFacts.chain_entries_obj.
Qed.

Lemma misplaced_entry_breaks_chain_witness :
  let r := fun t => {| Attest.run_id := "1"; Attest.task_id := t; Attest.model := "m";
              Attest.dataset_sha256 := "d"; Attest.prompt_sha256 := "p";
              Attest.code_sha256 := "c"; Attest.pass := true;
              Attest.timestamp := "2024-01-01T00:00:00.000Z" |} in
  let entries := Attest.chain_entries SHA256.sha256
                   (Attest.numbered [r "t0"; r "t1"; r "t2"] 0) None in
  ∃ e0 e1 e2,
    entries = [e0; e1; e2]
    ∧ Verify.verify_content SHA256.sha256 (Attest.log_text [e0; e1; e0; e2])
      = Verify.ChainBreak (Some (JSON.JNum 0))
    ∧ Verify.verify_content SHA256.sha256 (Attest.log_text [e1; e0; e2])
      = Verify.ChainBreak (Some (JSON.JNum 1)).
Proof.
  intros r entries. eexists _, _, _. split; [reflexivity|].
  assert (NoDup (Chain.hashes SHA256.sha256 (Attest.numbered [r "t0"; r "t1"; r "t2"] 0) None))
    as Hnd.
  { apply (bool_decide_unpack _). vm_compute. reflexivity. }
  split.
  - refine (proj2 (misplaced_entry_breaks_chain SHA256.sha256 [r "t0"; r "t1"; r "t2"]
                     2 0 _ [_] Hnd _ eq_refl _ _)).
    + simpl. lia.
    + discriminate.
    + by repeat constructor.
  - refine (proj2 (misplaced_entry_breaks_chain SHA256.sha256 [r "t0"; r "t1"; r "t2"]
                     0 1 _ [_; _] Hnd _ eq_refl _ _)).
    + simpl. lia.
    + discriminate.
    + by repeat constructor.
Defined.

Lemma deleted_entry_breaks_chain_witness :
  let r := fun t => {| Attest.run_id := "1"; Attest.task_id := t; Attest.model := "m";
              Attest.dataset_sha256 := "d"; Attest.prompt_sha256 := "p";
              Attest.code_sha256 := "c"; Attest.pass := true;
              Attest.timestamp := "2024-01-01T00:00:00.000Z" |} in
  let entries := Attest.chain_entries SHA256.sha256
                   (Attest.numbered [r "t0"; r "t1"; r "t2"; r "t3"] 0) None in
  Verify.verify_content SHA256.sha256 (Attest.log_text (delete 2 entries))
  = Verify.ChainBreak (Some (JSON.JNum 3)).
Proof.
  intros r entries.
  apply (deleted_entry_breaks_chain SHA256.sha256 [r "t0"; r "t1"; r "t2"; r "t3"] 2).
  - apply (bool_decide_unpack _). vm_compute. reflexivity.
  - simpl. lia.
Defined.

(** ** The properties of an object, by key *)

Module ObjGet.
Import Str JSON StrFacts JSONFacts ObjFacts SortFacts KeyOrderFacts.

Lemma get_app (x : string) (ps qs : props) :
  get x (ps ++ qs) = match get x ps with Some v => Some v | None => get x qs end.
Proof.
  induction ps as [|[k v] ps IH]; [done|]. simpl. by destruct (String.eqb k x).
Qed.

Lemma get_replace_prop (x k : string) (v : json) (ps : props) :
  get x (replace_prop k v ps)
  = if String.eqb k x then (if has_key k ps then Some v else None) else get x ps.
Proof.
  unfold has_key. induction ps as [|[k' v'] ps IH]; simpl.
  - by destruct (String.eqb k x).
  - destruct (String.eqb_spec k' k) as [->|Hne]; simpl.
    + by destruct (String.eqb k x).
    + rewrite IH. destruct (String.eqb_spec k x) as [->|]; [|done].
      by destruct (String.eqb_spec k' x).
Qed.

Lemma get_insert_index (x : string) (n : N) (k : string) (v : json) (ps : props) :
  k ∉ keys ps →
  get x (insert_index n k v ps) = if String.eqb k x then Some v else get x ps.
Proof.
  induction ps as [|[k' v'] ps IH]; intros Hk; simpl.
  - done.
  - apply not_elem_of_cons in Hk as [Hne Hk].
    assert (get x ((k, v) :: (k', v') :: ps)
            = if String.eqb k x then Some v else get x ((k', v') :: ps)) as Hfront by done.
    destruct (array_index k') as [m|]; [destruct (m <? n)%N|]; try exact Hfront.
    simpl. rewrite (IH Hk). destruct (String.eqb_spec k x) as [->|]; [|done].
    by destruct (String.eqb_spec k' x).
Qed.

(** What a property reads after a definition. *)
Lemma get_define_prop (x k : string) (v : json) (ps : props) :
  get x (define_prop k v ps) = if String.eqb k x then Some v else get x ps.
Proof.
  unfold define_prop. destruct (has_key k ps) eqn:Hhas.
  - by rewrite get_replace_prop, Hhas.
  - pose proof (proj1 (has_key_false k ps) Hhas) as Hk.
    destruct (array_index k); [by apply get_insert_index|].
    rewrite get_app. simpl. destruct (String.eqb_spec k x) as [->|].
    + unfold has_key in Hhas. by destruct (get x ps).
    + by destruct (get x ps).
Qed.

Lemma get_obj_assign (x k : string) (v : json) (ps : props) :
  x ≠ "__proto__" →
  get x (obj_assign k v ps) = if String.eqb k x then Some v else get x ps.
Proof.
  intros Hx. unfold obj_assign.
  destruct (String.eqb_spec k "__proto__") as [->|]; cbn [andb].
  - destruct (has_key "__proto__" ps); cbn [negb].
    + apply get_define_prop.
    + destruct (String.eqb_spec "__proto__" x) as [E|]; [by symmetry in E|done].
  - apply get_define_prop.
Qed.

Lemma get_fold_assign (x : string) (vals : props) (ks : list string) (acc : props) :
  x ≠ "__proto__" →
  get x (fold_left (assign_sorted vals) ks acc)
  = if bool_decide (x ∈ ks)
    then match get x vals with Some v => Some v | None => get x acc end
    else get x acc.
Proof.
  intros Hx. revert acc. induction ks as [|k ks IH]; intros acc; [done|].
  cbn [fold_left]. rewrite IH. unfold assign_sorted.
  destruct (decide (x = k)) as [->|Hne].
  - rewrite (bool_decide_eq_true_2 (k ∈ k :: ks)); [|left].
    destruct (get k vals) as [v|] eqn:E.
    + rewrite get_obj_assign, String.eqb_refl; [|done]. by destruct (bool_decide _).
    + by destruct (bool_decide _).
  - assert (bool_decide (x ∈ k :: ks) = bool_decide (x ∈ ks)) as ->.
    { apply bool_decide_ext. rewrite elem_of_cons. tauto. }
    destruct (get k vals) as [v|]; [|done].
    rewrite get_obj_assign; [|done].
    destruct (String.eqb_spec k x) as [->|]; done.
Qed.

(** The canonical form never has an own property [__proto__]. *)
Lemma no_proto_fold_assign (vals : props) (ks : list string) (acc : props) :
  has_key "__proto__" acc = false →
  has_key "__proto__" (fold_left (assign_sorted vals) ks acc) = false.
Proof.
  revert acc. induction ks as [|k ks IH]; intros acc Hacc; [done|].
  cbn [fold_left]. apply IH. unfold assign_sorted.
  destruct (get k vals) as [v|]; [|done]. unfold obj_assign.
  destruct (String.eqb_spec k "__proto__") as [->|Hne]; cbn [andb].
  - by rewrite Hacc.
  - unfold has_key in *. rewrite get_define_prop.
    destruct (String.eqb_spec k "__proto__"); [done|]. done.
Qed.

(** The properties of the canonical form of an object: those of the
    object, in canonical form, [__proto__] apart. *)
Lemma get_sortObj (x : string) (ps : props) :
  get x (match sortObj (JObj ps) with JObj qs => qs | _ => [] end)
  = if String.eqb x "__proto__" then None else sortObj <$> get x ps.
Proof.
  rewrite sortObj_obj. destruct (String.eqb_spec x "__proto__") as [->|Hx].
  - pose proof (no_proto_fold_assign (map (fun kv => (kv.1, sortObj kv.2)) ps)
                  (sort (keys ps)) [] eq_refl) as H.
    unfold has_key in H. by destruct (get "__proto__" _).
  - rewrite get_fold_assign, get_sorted_vals; [|done].
    destruct (bool_decide_reflect (x ∈ sort (keys ps))) as [Hin|Hin].
    + by destruct (get x ps).
    + unfold sort in Hin. rewrite merge_sort_Permutation in Hin.
      apply get_None in Hin. by rewrite Hin.
Qed.

Lemma elem_of_keys_define_prop (x k : string) (v : json) (ps : props) :
  x ∈ keys (define_prop k v ps) ↔ x = k ∨ x ∈ keys ps.
Proof.
  rewrite !elem_of_keys_get, get_define_prop.
  destruct (String.eqb_spec k x) as [->|Hne].
  - split; [by left|by eexists].
  - split; [by right|]. intros [->|]; done.
Qed.

Lemma elem_of_keys_spread (x : string) (ps acc : props) :
  x ∈ keys (spread ps acc) ↔ x ∈ keys ps ∨ x ∈ keys acc.
Proof.
  unfold spread. revert acc. induction ps as [|[k v] ps IH]; intros acc; simpl.
  - split; [by right|]. intros [H|]; [inversion H|done].
  - rewrite IH, elem_of_keys_define_prop, elem_of_cons. tauto.
Qed.

Lemma get_spread (x : string) (ps acc : props) :
  NoDup (keys ps) →
  get x (spread ps acc) = match get x ps with Some v => Some v | None => get x acc end.
Proof.
  unfold spread. revert acc. induction ps as [|[k v] ps IH]; intros acc Hnd; [done|].
  simpl in Hnd. apply NoDup_cons in Hnd as [Hk Hnd].
  cbn [fold_left fst snd get]. rewrite (IH _ Hnd), get_define_prop.
  destruct (String.eqb_spec k x) as [->|]; [|done].
  apply get_None in Hk. by rewrite Hk.
Qed.

End ObjGet.

(** ** What the canonical form keeps *)

Module Canonical.
Import Str JSON StrFacts JSONFacts ObjFacts SortFacts ParseTop TamperFacts KeyOrderFacts
       Chain ObjGet.

Lemma proto_free_get (ps : props) :
  proto_free (JObj ps) = true → get "__proto__" ps = None.
Proof.
  simpl. induction ps as [|[k v] ps IH]; [done|]. simpl.
  intros [[Hk _]%andb_prop Hps]%andb_prop.
  destruct (String.eqb k "__proto__"); [done|]. by apply IH.
Qed.

Lemma proto_free_elem (ps : props) (k : string) (v : json) :
  proto_free (JObj ps) = true → (k, v) ∈ ps → proto_free v = true.
Proof.
  simpl. rewrite forallb_forall. intros H Hin.
  apply list_elem_of_In in Hin. apply H in Hin. by apply andb_prop in Hin as [_ ?].
Qed.

(** Two values with the same canonical form are the same up to the order
    of their keys, when none of their objects has a key [__proto__]. *)
Lemma sortObj_same (a b : json) :
  wf a → wf b → proto_free a = true → proto_free b = true →
  sortObj a = sortObj b → same_up_to_key_order a b.
Proof.
  revert b. induction a as [ | c | n | s | xs IH | ps IH ] using json_ind;
    intros b Ha Hb Hpa Hpb Heq; pose proof (sortObj_prim b) as Hprim;
    rewrite <- Heq in Hprim.
  - simpl in Hprim. subst b. constructor.
  - simpl in Hprim. subst b. constructor.
  - simpl in Hprim. subst b. constructor.
  - simpl in Hprim. subst b. constructor.
  - change (sortObj (JArr xs)) with (JArr (map sortObj xs)) in Hprim, Heq.
    destruct Hprim as [ys ->]. change (sortObj (JArr ys)) with (JArr (map sortObj ys)) in Heq.
    injection Heq as Heq. inversion Ha as [ | | | |? Hxs| ]; subst.
    inversion Hb as [ | | | |? Hys| ]; subst.
    constructor. clear Ha Hb. simpl in Hpa, Hpb.
    revert ys Heq Hys Hpb. induction xs as [|x xs IHxs]; intros [|y ys] Heq Hys Hpb;
      [constructor|done|done|].
    cbn [map] in Heq. injection Heq as Hxy Hrest. cbn [forallb] in Hpa, Hpb.
    apply andb_prop in Hpa as [Hpx Hpxs]. apply andb_prop in Hpb as [Hpy Hpys].
    inversion IH as [|? ? IHx IHrest]; subst.
    inversion Hxs as [|? ? Hx Hxs']; subst. inversion Hys as [|? ? Hy Hys']; subst.
    constructor; [by apply IHx|by apply IHxs].
  - rewrite sortObj_obj in Hprim. destruct Hprim as [qs ->].
    inversion Ha as [ | | | | |? [Hnd _] Hvs]; subst.
    inversion Hb as [ | | | | |? [Hnd' _] Hws]; subst.
    constructor; [done..|]. intros k.
    pose proof (get_sortObj k ps) as H1. pose proof (get_sortObj k qs) as H2.
    rewrite Heq, H2 in H1. clear H2. revert H1.
    destruct (String.eqb_spec k "__proto__") as [E|Hk]; intros H1; [subst k|].
    + rewrite !proto_free_get; [constructor|done..].
    + destruct (get k ps) as [v|] eqn:Ev, (get k qs) as [w|] eqn:Ew; try done; [|constructor].
      constructor. injection H1 as H1.
      apply get_Some_elem in Ev, Ew. rewrite Forall_forall in IH, Hvs, Hws.
      apply (IH _ Ev); [apply (Hvs _ Ev)|apply (Hws _ Ew)| | |done].
      * by apply (proto_free_elem ps k).
      * by apply (proto_free_elem qs k).
Qed.

End Canonical.

(** X8. The canonical text says what a value holds, and no more than the
    order of its keys is lost: two values of the language, none of whose
    objects has a key [__proto__], have the same canonical text exactly when
    they are the same up to the order of their keys. *)
Theorem canonical_text_is_exact (a b : JSON.json) :
  JSON.wf a → JSON.wf b → Chain.proto_free a = true → Chain.proto_free b = true →
  JSON.stable a = JSON.stable b ↔ JSON.same_up_to_key_order a b.
Proof.
  intros Ha Hb Hpa Hpb. split.
  - intros H%TamperFacts.stable_inj. by apply Canonical.sortObj_same.
  - intros H%KeyOrderFacts.same_sortObj. unfold JSON.stable. by rewrite H.
Qed.

Lemma canonical_text_is_exact_witness :
  JSON.same_up_to_key_order
    (JSON.JObj [("b", JSON.JNum 1); ("a", JSON.JArr [JSON.JObj [("y", JSON.JNull); ("x", JSON.JStr "s")]])])
    (JSON.JObj [("a", JSON.JArr [JSON.JObj [("x", JSON.JStr "s"); ("y", JSON.JNull)]]); ("b", JSON.JNum 1)]).
Proof.
  apply canonical_text_is_exact.
  - repeat (constructor; try (by apply (bool_decide_unpack _))).
  - repeat (constructor; try (by apply (bool_decide_unpack _))).
  - reflexivity.
  - reflexivity.
  - vm_compute. reflexivity.
Defined.

(** ** Entries that are given a property *)

Module MemberFacts.
Import Str JSON StrFacts JSONFacts LineFacts ParseTop ObjFacts SortFacts LogFacts Attest Verify
       ChainFacts TamperFacts MutationFacts TamperLoop KeyOrderFacts Chain ObjGet.

Lemma wf_set_member (k : string) (v e : json) : wf e → wf v → wf (set_member k v e).
Proof.
  intros He Hv. destruct e as [ | | | | |ps]; try done.
  inversion He as [ | | | | |? Hk Hvs]; subst. constructor.
  - by apply define_prop_wf.
  - by apply Forall_define_prop.
Qed.

Lemma set_member_obj (k : string) (v e : json) : is_obj e → is_obj (set_member k v e).
Proof. by destruct e. Qed.

Section WithHash.
Variable sha256 : string → string.

(** An edit of the entries that the verifier does not see at any entry
    leaves the loop as it is. *)
Lemma unseen_edit_loop (g : json → json) (recs : list TaskAttestation) (from : Z)
    (prev : option string) (i : nat) :
  (∀ rec idx prev,
     let h := sha256 (stable (hashed_view (rec_props rec) prev)) in
     wf (g (chain_line (rec_props rec) idx prev h))
     ∧ check_entry sha256 prev (g (chain_line (rec_props rec) idx prev h)) = inr (Some h)) →
  verify_loop sha256 prev
    (map stringify (alter g i (chain_entries sha256 (numbered recs from) prev)))
  = verify_loop sha256 prev
      (map stringify (chain_entries sha256 (numbered recs from) prev)).
Proof.
  intros Hg. revert from prev i. induction recs as [|rec recs IH]; intros from prev i; [done|].
  change (chain_entries sha256 (numbered (rec :: recs) from) prev)
    with (chain_line (rec_props rec) from prev
            (sha256 (stable (hashed_view (rec_props rec) prev)))
          :: chain_entries sha256 (numbered recs (from + 1))
               (Some (sha256 (stable (hashed_view (rec_props rec) prev))))).
  destruct i as [|i].
  - change (alter ?g 0 (?x :: ?l)) with (g x :: l).
    change (map stringify (?x :: ?l)) with (stringify x :: map stringify l).
    rewrite !verify_loop_cons. destruct (Hg rec from prev) as [Hwf Hck].
    rewrite !check_line_stringify; [|apply wf_chain_line|exact Hwf].
    by rewrite Hck, check_entry_chain_line.
  - change (alter ?g (S i) (?x :: ?l)) with (x :: alter g i l).
    change (map stringify (?x :: ?l)) with (stringify x :: map stringify l).
    rewrite !verify_loop_cons.
    rewrite !check_line_stringify; [|apply wf_chain_line].
    rewrite check_entry_chain_line. apply IH.
Qed.

(** A property [__proto__] does not reach the digest: the canonical form
    of what the verifier hashes assigns it, and the assignment sets the
    prototype of the new object instead of a property. *)
Lemma digest_input_proto (rec : TaskAttestation) (idx : Z) (prev : option string)
    (h : string) (v : json) :
  digest_input prev (set_member "__proto__" v (chain_line (rec_props rec) idx prev h))
  = stable (hashed_view (rec_props rec) prev).
Proof.
  unfold digest_input, stable. by f_equal.
Qed.

Lemma check_entry_proto (rec : TaskAttestation) (idx : Z) (prev : option string) (v : json) :
  let h := sha256 (stable (hashed_view (rec_props rec) prev)) in
  check_entry sha256 prev (set_member "__proto__" v (chain_line (rec_props rec) idx prev h))
  = inr (Some h).
Proof.
  intros h.
  pose proof (digest_input_proto rec idx prev h v) as Hd.
  rewrite chain_line_props in Hd |- *. unfold set_member in Hd |- *.
  rewrite check_entry_obj, Hd.
  change (get "prevHash" _) with (Some (json_of_prev prev)).
  rewrite strict_eq_prev_refl.
  change (get "hash" _) with (Some (JStr h)).
  simpl. by rewrite String.eqb_refl.
Qed.

Lemma proto_member_unseen (recs : list TaskAttestation) (i : nat) (v : json) :
  wf v →
  verify_content sha256
    (log_text (alter (set_member "__proto__" v) i
                 (chain_entries sha256 (numbered recs 0) None)))
  = AttestationOK (length recs).
Proof.
  intros Hwf. unfold verify_content.
  rewrite read_lines_log;
    [|apply alter_obj; [apply set_member_obj|apply chain_entries_obj]].
  rewrite unseen_edit_loop.
  - destruct (appendEach_spec sha256 "log" (numbered recs 0) None
                {["log" := EmptyString]} EmptyString)
      as (last & _ & ->); [apply lookup_singleton_eq|].
    by rewrite length_map, length_alter, chain_entries_length, numbered_length.
  - intros rec idx prev h. split; [|apply check_entry_proto].
    apply wf_set_member; [apply wf_chain_line|done].
Qed.

(** The text of a log says which entries it holds. *)
Lemma log_text_inj (es es' : list json) :
  Forall is_obj es → Forall is_obj es' → Forall wf es → Forall wf es' →
  log_text es = log_text es' → es = es'.
Proof.
  intros Ho Ho' Hw Hw' Heq.
  assert (map stringify es = map stringify es') as Hmap.
  { by rewrite <- !read_lines_log, Heq. }
  clear Heq Ho Ho'. revert es' Hw' Hmap.
  induction Hw as [|e es He Hes IH]; intros [|e' es'] Hw' Hmap; try done.
  inversion Hw' as [|? ? He' Hes']; subst. cbn [map] in Hmap. injection Hmap as H1 H2.
  f_equal; [by apply stringify_inj|by apply IH].
Qed.

Lemma chain_entries_wf (items : list (TaskAttestation * Z)) (prev : option string) :
  Forall wf (chain_entries sha256 items prev).
Proof.
  revert prev. induction items as [|[rec idx] items IH]; intros prev; constructor.
  - apply wf_chain_line.
  - apply IH.
Qed.

Lemma alter_wf (g : json → json) (i : nat) (es : list json) :
  (∀ e, wf e → wf (g e)) → Forall wf es → Forall wf (alter g i es).
Proof.
  intros Hg Hes. revert i. induction Hes as [|e es He Hes IH]; intros i; [done|].
  destruct i; constructor; auto.
Qed.

End WithHash.
End MemberFacts.

(** X9. A property named [__proto__] that is added to an entry of a valid
    log is not detected: the log still verifies, with all its records,
    whatever the value of the property is, although the text of the log has
    changed.  The canonical form that is hashed is built by assignment, and
    an assignment to [__proto__] creates no property. *)
Theorem proto_member_not_detected (sha256 : string → string)
    (recs : list Attest.TaskAttestation) (i : nat) (v : JSON.json) :
  let entries := Attest.chain_entries sha256 (Attest.numbered recs 0) None in
  JSON.wf v →
  Verify.verify_content sha256
    (Attest.log_text (alter (Chain.set_member "__proto__" v) i entries))
  = Verify.AttestationOK (length recs)
  ∧ (i < length recs →
     Attest.log_text (alter (Chain.set_member "__proto__" v) i entries)
     ≠ Attest.log_text entries).
Proof.
  intros entries Hwf. split; [by apply MemberFacts.proto_member_unseen|].
  intros Hi Heq. apply MemberFacts.log_text_inj in Heq.
  - assert (length entries = length recs) as Hlen.
    { subst entries. by rewrite ChainFacts.chain_entries_length, ChainFacts.numbered_length. }
    destruct (lookup_lt_is_Some_2 entries i) as [e He]; [lia|].
    pose proof (list_lookup_alter_eq (Chain.set_member "__proto__" v) entries i) as Ha.
    rewrite Heq, He in Ha. simpl in Ha. injection Ha as Ha.
    destruct (ChainOrder.chain_entry_at sha256 recs 0 i e He) as (rec & h & _ & ->).
    rewrite ChainFacts.chain_line_props in Ha. unfold Chain.set_member in Ha.
    injection Ha as Ha. apply (f_equal length) in Ha. simpl in Ha. lia.
  - apply TamperLoop.alter_obj; [apply MemberFacts.set_member_obj|].
    apply ChainFacts.chain_entries_obj.
  - apply ChainFacts.chain_entries_obj.
  - apply MemberFacts.alter_wf; [|apply MemberFacts.chain_entries_wf].
    intros e He. by apply MemberFacts.wf_set_member.
  - apply MemberFacts.chain_entries_wf.
Qed.

Lemma proto_member_not_detected_witness :
  let r := fun t => {| Attest.run_id := "1"; Attest.task_id := t; Attest.model := "m";
              Attest.dataset_sha256 := "d"; Attest.prompt_sha256 := "p";
              Attest.code_sha256 := "c"; Attest.pass := true;
              Attest.timestamp := "2024-01-01T00:00:00.000Z" |} in
  let entries := Attest.chain_entries SHA256.sha256
                   (Attest.numbered [r "t0"; r "t1"] 0) None in
  let forged := alter (Chain.set_member "__proto__"
                         (JSON.JObj [("pass", JSON.JBool false)])) 1 entries in
  Verify.verify_content SHA256.sha256 (Attest.log_text forged) = Verify.AttestationOK 2
  ∧ Attest.log_text forged ≠ Attest.log_text entries.
Proof.
  intros r entries forged.
  destruct (proto_member_not_detected SHA256.sha256 [r "t0"; r "t1"] 1
              (JSON.JObj [("pass", JSON.JBool false)])) as [H1 H2].
  - repeat (constructor; try (by apply (bool_decide_unpack _))).
  - split; [exact H1|]. apply H2. simpl. lia.
Defined.

Module NewMember.
Import Str JSON StrFacts JSONFacts LineFacts ParseTop ObjFacts SortFacts LogFacts Attest Verify
       ChainFacts TamperFacts MutationFacts TamperLoop KeyOrderFacts Chain ObjGet MemberFacts.

Lemma elem_of_keys_filter (x : string) (f : string → bool) (ps : props) :
  x ∈ keys (filter (fun kv : string * json => f kv.1 = true) ps) ↔ x ∈ keys ps ∧ f x = true.
Proof.
  unfold keys. rewrite !list_elem_of_fmap. split.
  - intros ([k v] & -> & [Hf Hin]%list_elem_of_filter). split; [|done]. by exists (k, v).
  - intros [([k v] & -> & Hin) Hf]. exists (k, v). split; [done|].
    by apply list_elem_of_filter.
Qed.

Section WithHash.
Variable sha256 : string → string.

Lemma rest_props_filter (line : json) :
  rest_props line
  = spread (filter (fun kv : string * json =>
                      negb (String.eqb kv.1 "hash" || String.eqb kv.1 "idx"
                            || String.eqb kv.1 "prevHash") = true)
                   (own_props line)) [].
Proof.
  unfold rest_props. f_equal. apply list_filter_iff. intros [k v]. simpl.
  by destruct (negb _).
Qed.

(** A property that an entry is given, under a name that is new to it
    and is not [__proto__], is a property of what the verifier hashes. *)
Lemma digest_input_new_member (rec : TaskAttestation) (idx : Z) (prev : option string)
    (h k : string) (v : json) :
  get k (rec_props rec ++ [("idx", JNum idx); ("prevHash", json_of_prev prev);
                           ("hash", JStr h)]) = None →
  k ≠ "__proto__" →
  digest_input prev (set_member k v (chain_line (rec_props rec) idx prev h))
  ≠ stable (hashed_view (rec_props rec) prev).
Proof.
  intros Hk Hproto Heq. unfold digest_input in Heq. apply stable_inj in Heq.
  set (ps := rec_props rec ++ [("idx", JNum idx); ("prevHash", json_of_prev prev);
                               ("hash", JStr h)]) in *.
  assert (k ≠ "hash" ∧ k ≠ "idx" ∧ k ≠ "prevHash") as (Hk1 & Hk2 & Hk3).
  { split_and!; intros ->; subst ps; rewrite get_app in Hk; simpl in Hk; done. }
  assert (get k (rec_props rec) = None) as Hrec.
  { subst ps. rewrite get_app in Hk. by destruct (get k (rec_props rec)). }
  pose proof (f_equal (fun o => get k (match o with JObj qs => qs | _ => [] end)) Heq) as Hget.
  cbv beta in Hget. clear Heq. unfold hashed_view in Hget. rewrite !get_sortObj in Hget.
  rewrite (proj2 (String.eqb_neq k "__proto__") Hproto) in Hget.
  rewrite !get_define_prop in Hget.
  rewrite (proj2 (String.eqb_neq "prevHash" k)) in Hget by congruence.
  assert (spread (rec_props rec) [] = rec_props rec) as Hsp by reflexivity.
  rewrite Hsp, Hrec in Hget.
  assert (is_Some (get k (spread (rest_props
             (set_member k v (chain_line (rec_props rec) idx prev h))) []))) as [w Hw].
  { apply elem_of_keys_get, elem_of_keys_spread. left.
    rewrite rest_props_filter. apply elem_of_keys_spread. left.
    apply (elem_of_keys_filter k (fun x => negb (String.eqb x "hash" || String.eqb x "idx"
                                                   || String.eqb x "prevHash"))). split.
    - rewrite chain_line_props. cbn [set_member own_props].
      apply elem_of_keys_define_prop. by left.
    - by rewrite (proj2 (String.eqb_neq k "hash") Hk1), (proj2 (String.eqb_neq k "idx") Hk2),
        (proj2 (String.eqb_neq k "prevHash") Hk3). }
  rewrite Hw in Hget. done.
Qed.

Lemma check_entry_new_member (rec : TaskAttestation) (idx : Z) (prev : option string)
    (k : string) (v : json) :
  let h := sha256 (stable (hashed_view (rec_props rec) prev)) in
  let e := chain_line (rec_props rec) idx prev h in
  field k e = None → k ≠ "__proto__" →
  no_collision sha256 (digest_input prev (set_member k v e)) (digest_input prev e) →
  check_entry sha256 prev (set_member k v e) = inl (HashMismatch (Some (JNum idx))).
Proof.
  intros h e Hk Hproto Hcol. subst e. rewrite chain_line_props in Hk, Hcol |- *.
  cbn [field] in Hk. cbn [set_member] in Hcol |- *.
  assert (k ≠ "hash" ∧ k ≠ "idx" ∧ k ≠ "prevHash") as (Hk1 & Hk2 & Hk3).
  { split_and!; intros ->; rewrite get_app in Hk; simpl in Hk; done. }
  rewrite check_entry_obj, !get_define_prop.
  rewrite (proj2 (String.eqb_neq k "hash") Hk1), (proj2 (String.eqb_neq k "idx") Hk2),
    (proj2 (String.eqb_neq k "prevHash") Hk3).
  change (get "prevHash" _) with (Some (json_of_prev prev)).
  rewrite strict_eq_prev_refl.
  change (get "hash" _) with (Some (JStr h)).
  change (get "idx" _) with (Some (JNum idx)).
  cbn [negb strict_eq_str].
  destruct (String.eqb_spec h
              (sha256 (digest_input prev
                 (JObj (define_prop k v
                    (rec_props rec ++ [("idx", JNum idx); ("prevHash", json_of_prev prev);
                                       ("hash", JStr h)])))))) as [E|_]; [|done].
  exfalso. eapply Hcol; [|by symmetry].
  pose proof (digest_input_new_member rec idx prev h k v Hk Hproto) as Hne.
  rewrite chain_line_props in Hne. exact Hne.
Qed.

End WithHash.
End NewMember.

(** X10. A property that is added to an entry of a valid log under a name
    that the entry does not have, and that is not [__proto__], is detected
    at that entry: the lines before it pass, and the verifier ends there
    with a hash mismatch, provided the hash function does not collide on
    what is hashed for the entry with and without the property. *)
Theorem new_member_detected (sha256 : string → string)
    (recs : list Attest.TaskAttestation) (i : nat) (e : JSON.json) (k : string)
    (v : JSON.json) :
  let entries := Attest.chain_entries sha256 (Attest.numbered recs 0) None in
  entries !! i = Some e →
  Verify.field k e = None →
  k ≠ "__proto__" →
  JSON.wf v →
  Verify.no_collision sha256
    (Verify.digest_input (Verify.declared_prev e) (Chain.set_member k v e))
    (Verify.digest_input (Verify.declared_prev e) e) →
  (∃ prev, Verify.verify_loop sha256 None
             (take i (map JSON.stringify (alter (Chain.set_member k v) i entries)))
           = inr prev)
  ∧ Verify.verify_content sha256
      (Attest.log_text (alter (Chain.set_member k v) i entries))
    = Verify.HashMismatch (Some (JSON.JNum (Z.of_nat i))).
Proof.
  intros entries He Hk Hproto Hwf Hcol. subst entries.
  destruct (TamperLoop.edited_chain sha256 (Chain.set_member k v) recs 0 None i e He)
    as (rec & prev_i & -> & Hpre & Hpost).
  rewrite MutationFacts.declared_prev_chain_line in Hcol.
  split; [by exists prev_i|].
  unfold Verify.verify_content. rewrite LogFacts.read_lines_log.
  2:{ apply TamperLoop.alter_obj; [apply MemberFacts.set_member_obj|].
      apply ChainFacts.chain_entries_obj. }
  rewrite (Hpost (Verify.HashMismatch (Some (JSON.JNum (Z.of_nat i))))); [done|].
  rewrite ChainFacts.check_line_stringify.
  2:{ apply MemberFacts.wf_set_member; [apply ChainFacts.wf_chain_line|done]. }
  by apply NewMember.check_entry_new_member.
Qed.

Lemma new_member_detected_witness :
  let r := fun t => {| Attest.run_id := "1"; Attest.task_id := t; Attest.model := "m";
              Attest.dataset_sha256 := "d"; Attest.prompt_sha256 := "p";
              Attest.code_sha256 := "c"; Attest.pass := true;
              Attest.timestamp := "2024-01-01T00:00:00.000Z" |} in
  let entries := Attest.chain_entries SHA256.sha256
                   (Attest.numbered [r "t0"; r "t1"; r "t2"] 0) None in
  Verify.verify_content SHA256.sha256
    (Attest.log_text (alter (Chain.set_member "note" (JSON.JStr "reviewed")) 1 entries))
  = Verify.HashMismatch (Some (JSON.JNum 1)).
Proof.
  intros r entries.
  refine (proj2 (new_member_detected SHA256.sha256 [r "t0"; r "t1"; r "t2"] 1 _
                   "note" (JSON.JStr "reviewed") eq_refl _ _ _ _)).
  - reflexivity.
  - discriminate.
  - constructor.
  - intros _. vm_compute. discriminate.
Defined.

(** ** The results and the totals of a run *)

Module ResultFacts.
Import Str JSON Attest Run Results RunFacts.

Lemma sum_app (f : Attempt → Z) (l1 l2 : list Attempt) :
  sum f (l1 ++ l2) = (sum f l1 + sum f l2)%Z.
Proof. induction l1 as [|a l1 IH]; simpl; [done|]. rewrite IH. lia. Qed.

Lemma total_snoc (f : Attempt → Z) (rs : list TaskResult) (r : TaskResult) :
  total f (rs ++ [r]) = (total f rs + sum f (r_attempts r))%Z.
Proof. induction rs as [|r' rs IH]; simpl; [lia|]. rewrite IH. lia. Qed.

Lemma count_snoc (p : TaskResult → bool) (rs : list TaskResult) (r : TaskResult) :
  count p (rs ++ [r]) = (count p rs + if p r then 1 else 0)%Z.
Proof.
  unfold count. rewrite filter_app, length_app.
  destruct (p r) eqn:E.
  - rewrite (filter_cons_True _ r []); [|done]. rewrite filter_nil. simpl. lia.
  - rewrite (filter_cons_False _ r []); [|by rewrite E]. rewrite filter_nil. simpl. lia.
Qed.

Section WithWorld.
Variable sha256 : string → string.
Variable w : World.
Variable e : Env.

(** What the attempt loop adds when it ends: the new attempts, numbered
    from [a + 1] and seeded; the first that passes is the last; the
    totals grow by what the new attempts took. *)
Lemma attempt_loop_adds (t : Task) (n : nat) (a : Z) (loc loc' : Locals) (st st' : State) :
  attempt_loop w e t n a loc st = Done (loc', st') →
  (0 ≤ a)%Z →
  ∃ new,
    attempts loc' = attempts loc ++ new
    ∧ map a_idx new = map (fun i => (a + Z.of_nat (S i))%Z) (seq 0 (length new))
    ∧ Forall (fun x => a_seed x = (fun s => s + (a_idx x - 1))%Z <$> SEED_var e) new
    ∧ (∃ fails, Forall (fun x => a_pass x = false) fails
         ∧ ((solved loc' = true
             ∧ ∃ x, a_pass x = true ∧ new = fails ++ [x] ∧ length fails < n)
            ∨ (solved loc' = solved loc ∧ new = fails ∧ length fails = n)))
    ∧ firstAttemptPass loc'
      = (if (a =? 0)%Z then match new with x :: _ => a_pass x || firstAttemptPass loc
                                    | [] => firstAttemptPass loc end
         else firstAttemptPass loc)
    ∧ results st' = results st
    ∧ totalLatencyMs st' = (totalLatencyMs st + sum a_latency_ms new)%Z
    ∧ totalInputTokens st' = (totalInputTokens st + sum a_tokens_input new)%Z
    ∧ totalOutputTokens st' = (totalOutputTokens st + sum a_tokens_output new)%Z.
Proof.
  revert a loc st. induction n as [|n IH]; intros a loc st H Ha.
  - injection H as <- <-. exists []. rewrite app_nil_r. split_and!; try done; try lia.
    + exists []. split; [done|]. by right.
    + by destruct (a =? 0)%Z.
    + simpl. lia.
    + simpl. lia.
    + simpl. lia.
  - rewrite attempt_loop_S in H. cbv zeta in H.
    destruct (fetch w (tick st) _) as [[content latency]|]; [|done].
    destruct (run_tests w (extractCode content) (tests t) (S (tick st)))
      as [[allPass verdicts] n1].
    set (x := {| a_idx := (a + 1)%Z;
                 a_seed := match SEED_var e with Some s => Some (s + a)%Z | None => None end;
                 a_latency_ms := latency;
                 a_tokens_input := encode_length w (prompt t);
                 a_tokens_output := encode_length w (extractCode content);
                 a_pass := allPass |}) in *.
    assert (a_seed x = (fun s => s + (a_idx x - 1))%Z <$> SEED_var e) as Hseed.
    { subst x. cbn [a_seed a_idx]. destruct (SEED_var e); [|done]. simpl. f_equal. lia. }
    destruct allPass.
    + injection H as <- <-. exists [x]. cbn [attempts solved firstAttemptPass results
        totalLatencyMs totalInputTokens totalOutputTokens].
      split_and!.
      * done.
      * cbn [map seq length]. by f_equal.
      * by constructor.
      * exists []. split; [done|]. left. split; [done|]. eexists. split_and!; [|done|simpl; lia].
        done.
      * destruct (a =? 0)%Z; done.
      * done.
      * simpl. lia.
      * simpl. lia.
      * simpl. lia.
    + apply IH in H as (new & Hatt & Hidx & Hseeds & (fails & Hfails & Hcase) & Hfirst
                         & Hres & Hlat & Hin & Hout); [|lia].
      cbn [attempts solved firstAttemptPass results totalLatencyMs totalInputTokens
           totalOutputTokens] in *.
      exists (x :: new). split_and!.
      * by rewrite Hatt, <- app_assoc.
      * cbn [length seq map]. f_equal; try (cbn [a_idx]; lia).
        rewrite Hidx, <- (fmap_S_seq 0), <- list_fmap_compose.
        apply list_fmap_ext. intros i j _. simpl. lia.
      * by constructor.
      * exists (x :: fails). split; [by constructor|].
        destruct Hcase as [(Hs & y & Hy & -> & Hlen)|(Hs & -> & Hlen)].
        -- left. split; [done|]. exists y. split_and!; [done..|simpl; lia].
        -- right. split_and!; [done..|simpl; lia].
      * rewrite Hfirst. rewrite andb_false_r.
        destruct (a =? 0)%Z eqn:Ea.
        -- by rewrite (proj2 (Z.eqb_neq (a + 1) 0)) by lia.
        -- by rewrite (proj2 (Z.eqb_neq (a + 1) 0)) by lia.
      * done.
      * rewrite Hlat. simpl. lia.
      * rewrite Hin. simpl. lia.
      * rewrite Hout. simpl. lia.
Qed.


(** What a turn of the loop over the tasks adds: one result, and its
    share of the totals. *)
Lemma run_task_adds (runId dataset path : string) (st st' : State) (t : Task) :
  run_task sha256 w e runId dataset path st t = Done st' →
  ∃ r,
    results st' = results st ++ [r]
    ∧ r_id r = id t
    ∧ stops_at_first_pass (Z.to_nat (K_ATTEMPTS e)) r
    ∧ pass1_is_first r
    ∧ numbered_and_seeded (SEED_var e) r
    ∧ pass1 st' = (pass1 st + if r_pass1 r then 1 else 0)%Z
    ∧ passk st' = (passk st + if r_passk r then 1 else 0)%Z
    ∧ totalLatencyMs st' = (totalLatencyMs st + sum a_latency_ms (r_attempts r))%Z
    ∧ totalInputTokens st' = (totalInputTokens st + sum a_tokens_input (r_attempts r))%Z
    ∧ totalOutputTokens st' = (totalOutputTokens st + sum a_tokens_output (r_attempts r))%Z.
Proof.
  unfold run_task.
  destruct (attempt_loop w e t _ _ _ st) as [[loc st1]|] eqn:Hloop; [|done].
  destruct (appendRecord _ _ _ _ _ _) as [hash fs']. intros [= <-].
  pose proof (attempt_loop_keeps w e _ _ _ _ _ _ _ Hloop) as (Hp1 & Hpk & _).
  apply attempt_loop_adds in Hloop
    as (new & Hatt & Hidx & Hseeds & (fails & Hfails & Hcase) & Hfirst & Hres
        & Hlat & Hin & Hout); [|done].
  cbn [attempts solved firstAttemptPass app] in Hatt, Hcase, Hfirst.
  change (0 =? 0)%Z with true in Hfirst. cbv iota in Hfirst.
  eexists. cbn [results pass1 passk totalLatencyMs totalInputTokens totalOutputTokens].
  split_and!.
  - by rewrite Hres.
  - done.
  - exists fails. split; [done|]. cbn [r_passk r_attempts]. rewrite Hatt.
    destruct Hcase as [(Hs & x & Hx & -> & Hlen)|(Hs & -> & Hlen)]; [left|right].
    + split; [done|]. by exists x.
    + done.
  - unfold pass1_is_first. cbn [r_pass1 r_attempts]. rewrite Hfirst, Hatt.
    destruct new as [|x new]; [done|]. apply orb_false_r.
  - unfold numbered_and_seeded. cbn [r_attempts]. rewrite Hatt. split; [|done].
    rewrite Hidx. apply list_fmap_ext. intros i j _. done.
  - cbn [r_pass1]. rewrite Hp1. destruct (firstAttemptPass loc); lia.
  - cbn [r_passk]. rewrite Hpk. destruct (solved loc); lia.
  - cbn [r_attempts]. by rewrite Hatt.
  - cbn [r_attempts]. by rewrite Hatt.
  - cbn [r_attempts]. by rewrite Hatt.
Qed.

(** The results of the tasks of a run, in order, and the totals as sums
    over them. *)
Lemma run_tasks_adds (runId dataset path : string) (tasks : list Task) (st st' : State) :
  run_tasks sha256 w e runId dataset path tasks st = Done st' →
  ∃ rs,
    results st' = results st ++ rs
    ∧ map r_id rs = map id tasks
    ∧ Forall (stops_at_first_pass (Z.to_nat (K_ATTEMPTS e))) rs
    ∧ Forall pass1_is_first rs
    ∧ Forall (numbered_and_seeded (SEED_var e)) rs
    ∧ pass1 st' = (pass1 st + count r_pass1 rs)%Z
    ∧ passk st' = (passk st + count r_passk rs)%Z
    ∧ totalLatencyMs st' = (totalLatencyMs st + total a_latency_ms rs)%Z
    ∧ totalInputTokens st' = (totalInputTokens st + total a_tokens_input rs)%Z
    ∧ totalOutputTokens st' = (totalOutputTokens st + total a_tokens_output rs)%Z.
Proof.
  revert st. induction tasks as [|t tasks IH]; intros st H.
  - injection H as <-. exists []. rewrite app_nil_r. unfold count. simpl.
    split_and!; try done; lia.
  - simpl in H.
    destruct (run_task sha256 w e runId dataset path st t) as [st1|] eqn:Ht; [|done].
    apply run_task_adds in Ht
      as (r & Hres & Hid & Hstop & Hfirst & Hnum & Hp1 & Hpk & Hlat & Hin & Hout).
    apply IH in H
      as (rs & Hres' & Hids & Hstops & Hfirsts & Hnums & Hp1' & Hpk' & Hlat' & Hin' & Hout').
    exists (r :: rs). split_and!.
    + by rewrite Hres', Hres, <- app_assoc.
    + cbn [map]. by rewrite Hid, Hids.
    + by constructor.
    + by constructor.
    + by constructor.
    + rewrite Hp1', Hp1. unfold count. destruct (r_pass1 r) eqn:E.
      * rewrite filter_cons_True; [|done]. simpl length. lia.
      * rewrite filter_cons_False; [|by rewrite E]. lia.
    + rewrite Hpk', Hpk. unfold count. destruct (r_passk r) eqn:E.
      * rewrite filter_cons_True; [|done]. simpl length. lia.
      * rewrite filter_cons_False; [|by rewrite E]. lia.
    + rewrite Hlat', Hlat. simpl. lia.
    + rewrite Hin', Hin. simpl. lia.
    + rewrite Hout', Hout. simpl. lia.
Qed.

End WithWorld.
End ResultFacts.


(** X12. The totals of the summary of a completed run are what its results
    say: [pass1] and [passk] are the numbers of results with [pass1] and
    with [passk], [total] is the number of results, and the latency and
    the token counts are the sums over all the attempts recorded.  Hence
    the totals are in order: [0 <= pass1] and [passk <= total]. *)
Theorem totals_agree_with_results (sha256 : string → string) (w : Run.World)
    (e : Run.Env) (runId datasetRaw : string) (tasks : list Run.Task) (files : Fs.t)
    (summary : Run.Summary) (st : Run.State) :
  Run.main sha256 w e runId datasetRaw tasks files = Run.Done (summary, st) →
  Run.s_pass1 summary = Results.count Run.r_pass1 (Run.s_results summary)
  ∧ Run.s_passk summary = Results.count Run.r_passk (Run.s_results summary)
  ∧ Run.s_total summary = Z.of_nat (length (Run.s_results summary))
  ∧ (0 ≤ Run.s_pass1 summary ∧ Run.s_passk summary ≤ Run.s_total summary)%Z
  ∧ Run.s_latency_ms summary = Results.total Run.a_latency_ms (Run.s_results summary)
  ∧ Run.s_tokens_input summary = Results.total Run.a_tokens_input (Run.s_results summary)
  ∧ Run.s_tokens_output summary = Results.total Run.a_tokens_output (Run.s_results summary).
Proof.
  unfold Run.main.
  destruct (Run.run_tasks _ _ _ _ _ _ _ _) as [st1|] eqn:H; [|done].
  intros [= <- <-].
  cbn [Run.s_results Run.s_pass1 Run.s_passk Run.s_total Run.s_latency_ms
       Run.s_tokens_input Run.s_tokens_output].
  apply ResultFacts.run_tasks_adds in H
    as (rs & Hres & Hids & _ & _ & _ & Hp1 & Hpk & Hlat & Hin & Hout).
  cbn [Run.results Run.initial Run.pass1 Run.passk Run.totalLatencyMs
       Run.totalInputTokens Run.totalOutputTokens app] in *.
  rewrite Hres, Hp1, Hpk, Hlat, Hin, Hout.
  assert (length rs = length tasks) as Hlen.
  { by rewrite <- (length_map Run.r_id), Hids, length_map. }
  split_and!; try done; try lia.
  - unfold Results.count. lia.
  - unfold Results.count. rewrite <- Hlen.
    pose proof (length_filter (fun r => Run.r_passk r = true) rs). lia.
Qed.

(** ** The log of a run, record by record *)

Module RunLog.
Import Str JSON StrFacts Attest Verify Run ChainFacts RunFacts AttestFacts Results ResultFacts.

Lemma numbered_snoc (recs : list TaskAttestation) (rec : TaskAttestation) (from : Z) :
  numbered (recs ++ [rec]) from
  = numbered recs from ++ [(rec, (from + Z.of_nat (length recs))%Z)].
Proof.
  revert from. induction recs as [|r recs IH]; intros from.
  - simpl. do 2 f_equal. lia.
  - cbn [app numbered length]. rewrite IH. cbn [app].
    by replace (from + 1 + Z.of_nat (length recs))%Z
      with (from + Z.of_nat (S (length recs)))%Z by lia.
Qed.

Section WithWorld.
Variable sha256 : string → string.
Variable w : World.
Variable e : Env.

(** A request that fails leaves the files and the results as they are. *)
Lemma attempt_loop_thrown (t : Task) (n : nat) (a : Z) (loc : Locals) (st st' : State) :
  attempt_loop w e t n a loc st = Thrown st' →
  fs st' = fs st ∧ prevHash st' = prevHash st ∧ idx st' = idx st
  ∧ results st' = results st.
Proof.
  revert a loc st. induction n as [|n IH]; intros a loc st H; [done|].
  rewrite attempt_loop_S in H. cbv zeta in H.
  destruct (fetch w (tick st) _) as [[content latency]|].
  - destruct (run_tests w (extractCode content) (tests t) (S (tick st)))
      as [[allPass verdicts] n1].
    destruct allPass; [done|]. by apply IH in H.
  - by injection H as <-.
Qed.

Lemma in_order_thrown (runId ds path : string) (recs : list TaskAttestation)
    (st st' : State) :
  fs st' = fs st → prevHash st' = prevHash st → idx st' = idx st →
  results st' = results st →
  in_order sha256 e runId ds path recs st → in_order sha256 e runId ds path recs st'.
Proof.
  intros Hfs Hprev Hidx Hres ([H1 H2] & H3 & H4). unfold in_order, logged.
  by rewrite Hfs, Hprev, Hidx, Hres.
Qed.

(** A turn of the loop over the tasks appends the record of the task. *)
Lemma run_task_in_order (runId ds path : string) (recs : list TaskAttestation)
    (st : State) (t : Task) :
  in_order sha256 e runId ds path recs st →
  match run_task sha256 w e runId ds path st t with
  | Done st' => ∃ rec, in_order sha256 e runId ds path (recs ++ [rec]) st'
  | Thrown st' => in_order sha256 e runId ds path recs st'
  end.
Proof.
  intros Hin. unfold run_task.
  destruct (attempt_loop w e t _ _ _ st) as [[loc st1]|st1] eqn:Hatt.
  2:{ apply attempt_loop_thrown in Hatt as (? & ? & ? & ?). by eapply in_order_thrown. }
  destruct Hin as ([Hfs Hloop] & Hidx & Hagree).
  pose proof (attempt_loop_keeps w e _ _ _ _ _ _ _ Hatt) as (_ & _ & Hfs1 & Hprev1 & Hidx1 & _).
  pose proof (attempt_loop_chosen w e _ _ _ _ _ _ _ Hatt) as Hchosen.
  pose proof (attempt_loop_adds w e _ _ _ _ _ _ _ Hatt) as (_ & _ & _ & _ & _ & _ & Hres & _);
    [done|].
  unfold appendRecord.
  exists (attestation sha256 e runId ds t loc (clock w (tick st1))).
  unfold in_order, logged. cbn [fs prevHash idx results].
  rewrite numbered_snoc, (chain_entries_snoc sha256 _ _ _ _ _ Hloop), Hprev1.
  replace (0 + Z.of_nat (length recs))%Z with (idx st1) by lia.
  split_and!.
  - unfold Fs.appendFileSync. rewrite Hfs1, Hfs. cbn [default].
    rewrite lookup_insert_eq. f_equal.
    rewrite LogFacts.log_text_app.
    change (log_text [?x]) with (stringify x +:+ String newline EmptyString).
    reflexivity.
  - rewrite List.map_app, verify_loop_app, Hloop. cbn [map].
    rewrite TamperLoop.verify_loop_cons.
    rewrite check_line_stringify; [|apply wf_chain_line].
    by rewrite check_entry_chain_line.
  - rewrite Hidx1, Hidx, length_app. simpl. lia.
  - rewrite Hres. apply Forall2_app; [done|]. constructor; [|constructor].
    unfold agrees. cbn [run_id task_id model Attest.dataset_sha256 prompt_sha256 pass
                        code_sha256 attestation r_id r_prompt_sha256 r_passk].
    split_and!; try done. intros Hs. by rewrite (Hchosen ltac:(done) Hs).
Qed.

Lemma run_tasks_in_order (runId ds path : string) (tasks : list Task)
    (recs : list TaskAttestation) (st : State) :
  in_order sha256 e runId ds path recs st →
  match run_tasks sha256 w e runId ds path tasks st with
  | Done st' =>
      ∃ recs', in_order sha256 e runId ds path recs' st'
               ∧ length recs' = (length recs + length tasks)%nat
  | Thrown st' =>
      ∃ recs', in_order sha256 e runId ds path recs' st'
               ∧ length recs' < (length recs + length tasks)%nat
  end.
Proof.
  revert recs st. induction tasks as [|t tasks IH]; intros recs st Hin.
  - exists recs. split; [done|]. simpl. lia.
  - cbn [run_tasks]. pose proof (run_task_in_order runId ds path recs st t Hin) as Ht.
    destruct (run_task sha256 w e runId ds path st t) as [st1|st1].
    + destruct Ht as [rec Ht]. specialize (IH _ _ Ht).
      destruct (run_tasks sha256 w e runId ds path tasks st1) as [st2|st2];
        destruct IH as (recs' & Hin' & Hlen); exists recs'; (split; [done|]);
        rewrite length_app in Hlen; simpl in *; lia.
    + exists recs. split; [done|]. simpl. lia.
Qed.

Lemma in_order_initial (files : Fs.t) (runId ds : string) :
  in_order sha256 e runId ds (attestPath runId) [] (initial files runId).
Proof.
  split_and!; [split|done|constructor]; [|done].
  unfold initial, startChain, Fs.writeFileSync. cbn [fs]. apply lookup_insert_eq.
Qed.

Lemma in_order_verifies (runId ds : string) (recs : list TaskAttestation) (st : State) :
  in_order sha256 e runId ds (attestPath runId) recs st →
  verify sha256 (Some (attestPath runId)) (fs st) = AttestationOK (length recs)
  ∧ length (results st) = length recs.
Proof.
  intros ([Hfs _] & _ & Hagree). split.
  - unfold verify. change (String.eqb (attestPath runId) EmptyString) with false.
    cbv iota. rewrite Hfs, verify_content_chain. by rewrite numbered_length.
  - symmetry. by eapply Forall2_length.
Qed.

End WithWorld.
End RunLog.

(** X13. The log is valid whenever the run stops.  When the run completes,
    the log verifies with one record per task; when a request to the model
    fails and the run is aborted, the log that is left verifies with one
    record for each task that was completed before, fewer than there are
    tasks. *)
Theorem run_log_always_verifies (sha256 : string → string) (w : Run.World) (e : Run.Env)
    (runId datasetRaw : string) (tasks : list Run.Task) (files : Fs.t) :
  match Run.main sha256 w e runId datasetRaw tasks files with
  | Run.Done (summary, st) =>
      Verify.verify sha256 (Some (Run.s_attestation_file summary)) (Run.fs st)
      = Verify.AttestationOK (length tasks)
  | Run.Thrown st =>
      Verify.verify sha256 (Some (Run.attestPath runId)) (Run.fs st)
      = Verify.AttestationOK (length (Run.results st))
      ∧ length (Run.results st) < length tasks
  end.
Proof.
  unfold Run.main.
  pose proof (RunLog.run_tasks_in_order sha256 w e runId (sha256 datasetRaw)
                (Run.attestPath runId) tasks [] _
                (RunLog.in_order_initial sha256 e files runId (sha256 datasetRaw))) as H.
  destruct (Run.run_tasks _ _ _ _ _ _ _ _) as [st|st];
    destruct H as (recs & Hin & Hlen);
    destruct (RunLog.in_order_verifies sha256 e _ _ _ _ Hin) as [Hv Hr].
  - cbn [Run.s_attestation_file]. rewrite Hv. f_equal. simpl in Hlen. lia.
  - rewrite Hv, Hr. split; [done|]. simpl in Hlen. lia.
Qed.

(** X14. The log and the summary of a completed run tell the same story:
    the log holds one record per result of the summary, in the same
    order, numbered from 0, and each record carries the id of the task, the
    digest of its prompt, the run, the model and the dataset of the
    summary, and as [pass] the [passk] of the result; a record of a task
    that was not solved has ["none"] for [code_sha256]. *)
Theorem run_log_matches_results (sha256 : string → string) (w : Run.World) (e : Run.Env)
    (runId datasetRaw : string) (tasks : list Run.Task) (files : Fs.t)
    (summary : Run.Summary) (st : Run.State) :
  Run.main sha256 w e runId datasetRaw tasks files = Run.Done (summary, st) →
  ∃ recs,
    Run.fs st !! Run.s_attestation_file summary
    = Some (Attest.log_text (Attest.chain_entries sha256 (Attest.numbered recs 0) None))
    ∧ Forall2 (Results.agrees (Run.s_model summary) (Run.s_run_id summary)
                 (Run.s_dataset_sha256 summary))
              recs (Run.s_results summary).
Proof.
  unfold Run.main.
  pose proof (RunLog.run_tasks_in_order sha256 w e runId (sha256 datasetRaw)
                (Run.attestPath runId) tasks [] _
                (RunLog.in_order_initial sha256 e files runId (sha256 datasetRaw))) as H.
  destruct (Run.run_tasks _ _ _ _ _ _ _ _) as [st1|]; [|done].
  destruct H as (recs & ([Hfs _] & _ & Hagree) & _). intros [= <- <-].
  exists recs. split; [exact Hfs|exact Hagree].
Qed.


Lemma totals_agree_with_results_witness :
  ∃ summary st,
    Demo.run Demo.env_k3 = Run.Done (summary, st)
    ∧ Run.s_pass1 summary = Results.count Run.r_pass1 (Run.s_results summary)
    ∧ Run.s_passk summary = Results.count Run.r_passk (Run.s_results summary)
    ∧ Run.s_total summary = Z.of_nat (length (Run.s_results summary))
    ∧ (0 ≤ Run.s_pass1 summary ∧ Run.s_passk summary ≤ Run.s_total summary)%Z
    ∧ Run.s_latency_ms summary = Results.total Run.a_latency_ms (Run.s_results summary)
    ∧ Run.s_tokens_input summary = Results.total Run.a_tokens_input (Run.s_results summary)
    ∧ Run.s_tokens_output summary
      = Results.total Run.a_tokens_output (Run.s_results summary).
Proof.
  eexists _, _. split; [vm_compute; reflexivity|].
  refine (totals_agree_with_results SHA256.sha256 Demo.world Demo.env_k3
            "1700000000000" "[dataset]" Demo.tasks ∅ _ _ _).
  vm_compute. reflexivity.
Defined.

Lemma run_log_matches_results_witness :
  ∃ summary st,
    Demo.run Demo.env_k3 = Run.Done (summary, st)
    ∧ ∃ recs,
        Run.fs st !! Run.s_attestation_file summary
        = Some (Attest.log_text
                  (Attest.chain_entries SHA256.sha256 (Attest.numbered recs 0) None))
        ∧ Forall2 (Results.agrees (Run.s_model summary) (Run.s_run_id summary)
                     (Run.s_dataset_sha256 summary))
                  recs (Run.s_results summary).
Proof.
  eexists _, _. split; [vm_compute; reflexivity|].
  refine (run_log_matches_results SHA256.sha256 Demo.world Demo.env_k3
            "1700000000000" "[dataset]" Demo.tasks ∅ _ _ _).
  vm_compute. reflexivity.
Defined.

Module NoAttempts.
Import Str JSON Attest Run.

Lemma run_tasks_none (sha256 : string → string) (w : World) (e : Env)
    (runId ds path : string) (tasks : list Task) (st : State) :
  Z.to_nat (K_ATTEMPTS e) = 0%nat →
  ∃ st',
    run_tasks sha256 w e runId ds path tasks st = Done st'
    ∧ sent st' = sent st ∧ pass1 st' = pass1 st ∧ passk st' = passk st
    ∧ totalLatencyMs st' = totalLatencyMs st
    ∧ ∃ rs, results st' = results st ++ rs
            ∧ Forall2 (fun t r => r_id r = id t ∧ r_attempts r = []
                                  ∧ r_pass1 r = false ∧ r_passk r = false) tasks rs.
Proof.
  intros Hk. revert st. induction tasks as [|t tasks IH]; intros st.
  - exists st. split_and!; try done. exists []. by rewrite app_nil_r.
  - cbn [run_tasks]. unfold run_task. rewrite Hk. cbn [attempt_loop].
    unfold appendRecord. cbv iota beta zeta.
    match goal with |- ∃ st', run_tasks _ _ _ _ _ _ _ ?s = _ ∧ _ =>
      destruct (IH s) as (st' & Hrun & Hsent & Hp1 & Hpk & Hlat & rs & Hres & Hall)
    end.
    exists st'. cbn [sent pass1 passk totalLatencyMs results solved firstAttemptPass
                     attempts] in *.
    split_and!; try done.
    eexists (_ :: rs). split; [by rewrite Hres, <- app_assoc|].
    by constructor.
Qed.

End NoAttempts.

(** X15. With [K_ATTEMPTS] zero or negative the run asks the model nothing
    and still completes: no request is sent, every task gets a result
    without attempts that counts as failed, [pass1] and [passk] are 0, and
    no latency is added. *)
Theorem no_attempts_when_k_not_positive (sha256 : string → string) (w : Run.World)
    (e : Run.Env) (runId datasetRaw : string) (tasks : list Run.Task) (files : Fs.t) :
  (Run.K_ATTEMPTS e ≤ 0)%Z →
  ∃ summary st,
    Run.main sha256 w e runId datasetRaw tasks files = Run.Done (summary, st)
    ∧ Run.sent st = []
    ∧ Forall2 (fun t r => Run.r_id r = Run.id t ∧ Run.r_attempts r = []
                          ∧ Run.r_pass1 r = false ∧ Run.r_passk r = false)
              tasks (Run.s_results summary)
    ∧ Run.s_pass1 summary = 0%Z ∧ Run.s_passk summary = 0%Z
    ∧ Run.s_latency_ms summary = 0%Z.
Proof.
  intros Hk. unfold Run.main.
  destruct (NoAttempts.run_tasks_none sha256 w e runId (sha256 datasetRaw)
              (Run.attestPath runId) tasks (Run.initial files runId) ltac:(lia))
    as (st' & -> & Hsent & Hp1 & Hpk & Hlat & rs & Hres & Hall).
  eexists _, _. split; [reflexivity|].
  cbn [Run.s_results Run.s_pass1 Run.s_passk Run.s_latency_ms].
  rewrite Hres. by split_and!.
Qed.
Lemma no_attempts_when_k_not_positive_witness :
  (Run.K_ATTEMPTS Outage.env_k0 ≤ 0)%Z
  ∧ ∃ summary st,
      Outage.failing_run 0 Outage.env_k0 = Run.Done (summary, st)
      ∧ Run.sent st = []
      ∧ Forall2 (fun t r => Run.r_id r = Run.id t ∧ Run.r_attempts r = []
                            ∧ Run.r_pass1 r = false ∧ Run.r_passk r = false)
                Demo.tasks (Run.s_results summary)
      ∧ Run.s_pass1 summary = 0%Z ∧ Run.s_passk summary = 0%Z
      ∧ Run.s_latency_ms summary = 0%Z.
Proof.
  split; [vm_compute; discriminate|].
  apply (no_attempts_when_k_not_positive SHA256.sha256 (Outage.failing_world 0) Outage.env_k0
           "1700000000000" "[dataset]" Demo.tasks ∅).
  vm_compute. discriminate.
Defined.

(** ** The code of an answer *)

Module AnswerFacts.
Import Str JSON StrFacts Run StreamFacts Answer.

Lemma find_sub_none_app (pat a b : string) :
  find_sub pat (a +:+ b) = None → find_sub pat b = None.
Proof.
  induction a as [|c a IH]; [done|]. rewrite sapp_cons, find_sub_unfold.
  destruct (starts_with pat _); [done|].
  destruct (find_sub pat (a +:+ b)) as [[x y]|]; [done|]. intros _. by apply IH.
Qed.

Lemma trim_start_suffix (s : string) : ∃ a, s = a +:+ trim_start s.
Proof.
  induction s as [|c s [a IH]]; [by exists EmptyString|]. simpl.
  destruct (is_ws c); [|by exists EmptyString].
  exists (String c a). by rewrite sapp_cons, <- IH.
Qed.

Lemma starts_with_ci_suffix (p s r : string) :
  starts_with_ci p s = Some r → ∃ a, s = a +:+ r.
Proof.
  revert s. induction p as [|x p IH]; intros s; simpl.
  - intros [= ->]. by exists EmptyString.
  - destruct s as [|y s]; [done|]. destruct (Ascii.eqb x (lower y)); [|done].
    intros [a ->]%IH. by exists (String y a).
Qed.

Lemma skip_lang_suffix (s : string) : ∃ a, s = a +:+ skip_lang s.
Proof.
  unfold skip_lang.
  destruct (starts_with_ci "javascript" s) as [r|] eqn:E1;
    [by eapply starts_with_ci_suffix|].
  destruct (starts_with_ci "js" s) as [r|] eqn:E2;
    [by eapply starts_with_ci_suffix|].
  by exists EmptyString.
Qed.

(** A fence that nothing closes opens no block. *)
Lemma match_fence_unclosed (md : string) :
  (∀ before after, find_sub fence md = Some (before, after) → find_sub fence after = None) →
  match_fence md = None.
Proof.
  intros H. unfold match_fence.
  destruct (find_sub fence md) as [[before after]|]; [|done].
  specialize (H _ _ eq_refl).
  destruct (skip_lang_suffix after) as [a Ha].
  destruct (trim_start_suffix (skip_lang after)) as [b Hb].
  rewrite Ha, Hb in H. apply find_sub_none_app, find_sub_none_app in H.
  by rewrite H.
Qed.

Lemma find_sub_no_tick (prose s : string) :
  no_tick prose = true → find_sub fence (prose +:+ fence +:+ s) = Some (prose, s).
Proof.
  intros H. induction prose as [|c prose IH]; [done|].
  simpl in H. apply andb_prop in H as [Hc H].
  rewrite sapp_cons, find_sub_unfold.
  unfold fence at 1. cbn [starts_with].
  rewrite Ascii.eqb_sym. apply negb_true_iff in Hc. rewrite Hc.
  by rewrite (IH H).
Qed.

Lemma skip_lang_tag (tag s : string) :
  lang_tag tag = true → skip_lang (tag +:+ String newline s) = String newline s.
Proof.
  unfold lang_tag, skip_lang. destruct tag as [|a tag]; [done|].
  destruct tag as [|b tag]; [simpl; by repeat case_match|].
  rewrite !sapp_cons. cbn [starts_with_ci].
  destruct (Ascii.eqb "j" (lower a)); [|done].
  destruct (Ascii.eqb "s" (lower b)) eqn:Es;
    destruct (Ascii.eqb "a" (lower b)) eqn:Ea; [| |
      repeat (destruct tag as [|? tag]; [done|];
              rewrite sapp_cons; cbn [starts_with_ci];
              match goal with |- context [Ascii.eqb ?x (lower ?y)] =>
                destruct (Ascii.eqb x (lower y)); [|done] end);
      by destruct tag|done].
  - apply Ascii.eqb_eq in Es, Ea. congruence.
  - by destruct tag.
Qed.

Lemma trim_start_app_ws (a b : string) :
  all_ws a = true → trim_start (a +:+ b) = trim_start b.
Proof.
  induction a as [|c a IH]; [done|]. simpl. destruct (is_ws c); [exact IH|done].
Qed.

Lemma trim_start_app (a b : string) :
  all_ws a = false → trim_start (a +:+ b) = trim_start a +:+ b.
Proof.
  induction a as [|c a IH]; [done|]. simpl. destruct (is_ws c); [exact IH|done].
Qed.

Lemma trim_start_idem (s : string) : trim_start (trim_start s) = trim_start s.
Proof.
  induction s as [|c s IH]; [done|]. simpl. destruct (is_ws c) eqn:E; [done|].
  simpl. by rewrite E.
Qed.

Lemma trim_end_snoc_newline (s : string) :
  trim_end (s +:+ String newline EmptyString) = trim_end s.
Proof.
  induction s as [|c s IH]; [done|]. rewrite sapp_cons. simpl. by rewrite IH.
Qed.

(** A text without a fence, a line feed and a fence: the fence found is
    the one after the line feed. *)
Lemma find_sub_closing (a rest : string) :
  find_sub fence a = None →
  find_sub fence (a +:+ String newline (fence +:+ rest))
  = Some (a +:+ String newline EmptyString, rest).
Proof.
  induction a as [|c a IH]; [done|].
  rewrite (find_sub_unfold fence (String c a)).
  destruct (starts_with fence (String c a)) eqn:Es; [done|].
  destruct (find_sub fence a) as [[x y]|] eqn:Ef; [done|]. intros _.
  rewrite sapp_cons, find_sub_unfold, (IH eq_refl).
  assert (starts_with fence (String c (a +:+ String newline (fence +:+ rest))) = None)
    as ->; [|done].
  revert Es. unfold fence. cbn [starts_with].
  destruct (Ascii.eqb "`" c); [|done].
  destruct a as [|c1 a]; [done|]. rewrite sapp_cons. cbn [starts_with].
  destruct (Ascii.eqb "`" c1); [|done].
  destruct a as [|c2 a]; [done|]. rewrite sapp_cons. cbn [starts_with].
  by destruct (Ascii.eqb "`" c2).
Qed.

End AnswerFacts.

(** X16. The code of a well-formed answer is what stands between its
    fences.  For an answer made of prose without a backtick, an opening
    fence with no tag or with [js] or [javascript] in either case, the
    code on lines of its own, a closing fence and anything after it,
    [extractCode] returns the code, trimmed, when no fence occurs in the
    code. *)
Theorem extractCode_fenced (prose tag code rest : string) :
  Answer.no_tick prose = true →
  Answer.lang_tag tag = true →
  Run.find_sub Run.fence code = None →
  Run.extractCode (Answer.with_block prose tag code rest) = Str.trim code.
Proof.
  intros Hprose Htag Hcode. unfold Run.extractCode, Run.match_fence, Answer.with_block.
  rewrite <- StrFacts.sapp_assoc, StrFacts.sapp_assoc.
  rewrite (AnswerFacts.find_sub_no_tick prose _ Hprose).
  rewrite (AnswerFacts.skip_lang_tag tag _ Htag).
  change (Str.trim_start (String Str.newline ?s)) with (Str.trim_start s).
  destruct (Str.all_ws code) eqn:Hws.
  - rewrite (AnswerFacts.trim_start_app_ws code _ Hws).
    change (Run.find_sub Run.fence _) with (Some (EmptyString, rest)).
    by rewrite (BlankFacts.trim_all_ws code Hws).
  - rewrite (AnswerFacts.trim_start_app code _ Hws).
    destruct (AnswerFacts.trim_start_suffix code) as [a Ha].
    rewrite AnswerFacts.find_sub_closing.
    2:{ rewrite Ha in Hcode. by apply AnswerFacts.find_sub_none_app in Hcode. }
    unfold Str.trim.
    rewrite <- (AnswerFacts.trim_start_app code _ Hws).
    assert (Str.trim_start (code +:+ String Str.newline EmptyString)
            = Str.trim_start code +:+ String Str.newline EmptyString) as E.
    { by apply AnswerFacts.trim_start_app. }
    rewrite AnswerFacts.trim_start_idem, E. apply AnswerFacts.trim_end_snoc_newline.
Qed.
Lemma extractCode_fenced_witness :
  Run.extractCode
    (Answer.with_block "Here is the function you asked for: " "JavaScript"
       "function add(a, b) { return a + b; }" "Call it with two numbers.")
  = "function add(a, b) { return a + b; }".
Proof.
  apply (extractCode_fenced "Here is the function you asked for: " "JavaScript"
           "function add(a, b) { return a + b; }" "Call it with two numbers.");
    vm_compute; reflexivity.
Defined.

(** X17. An answer without a block is taken whole.  When no fence occurs in
    the answer, or when no fence occurs after its first fence,
    [extractCode] returns the whole answer, trimmed, the fence included. *)
Theorem extractCode_unfenced (md : string) :
  (∀ before after,
     Run.find_sub Run.fence md = Some (before, after) →
     Run.find_sub Run.fence after = None) →
  Run.extractCode md = Str.trim md.
Proof.
  intros H. unfold Run.extractCode. by rewrite AnswerFacts.match_fence_unclosed.
Qed.
Lemma extractCode_unfenced_witness :
  Run.extractCode ("```js" +:+ String Str.newline "const add = (a, b) => a + b;")
  = "```js" +:+ String Str.newline "const add = (a, b) => a + b;".
Proof.
  apply (extractCode_unfenced
           ("```js" +:+ String Str.newline "const add = (a, b) => a + b;")).
  intros before after H. vm_compute in H. injection H as <- <-.
  vm_compute. reflexivity.
Defined.

(** ** Line ends *)

Module CrlfFacts.
Import Str JSON StrFacts JSONFacts LineFacts RoundTrip ParseTop LogFacts Attest Verify Crlf.

(** The reader of JSON ignores a carriage return after a value. *)
Lemma parse_cr (e : json) :
  wf e → parse (stringify e +:+ String cr EmptyString) = Some e.
Proof.
  intros Hwf. unfold parse.
  rewrite (wf_reads_back e Hwf); [done| |done].
  pose proof (jsize_le_length e). rewrite length_sapp. lia.
Qed.

Lemma trim_end_cons (c : ascii) (s : string) :
  trim_end (String c s)
  = match trim_end s with
    | EmptyString => if is_ws c then EmptyString else String c EmptyString
    | t => String c t
    end.
Proof. reflexivity. Qed.

Lemma trim_end_crlf_text (e : json) (es : list json) :
  Forall is_obj (e :: es) →
  ∃ ls, split_nl (trim_end (crlf_text (e :: es))) = ls
        ∧ truthy (trim_end (crlf_text (e :: es))) = true
        ∧ Forall2 line_of ls (e :: es)
        ∧ Forall (fun l => truthy l = true) ls.
Proof.
  revert e. induction es as [|e' es IH]; intros e He.
  - apply Forall_cons in He as [He _]. destruct e as [ | | | | |ps]; try done.
    exists [stringify (JObj ps)].
    cbn [crlf_text fold_right].
    rewrite trim_end_app. change (truthy (trim_end _)) with false. cbv iota.
    destruct (line_ok_obj ps) as (Hnl & _ & ->).
    split_and!; [by apply split_nl_no_nl|done| |by repeat constructor].
    constructor; [by left|constructor].
  - apply Forall_cons in He as [He Hes]. destruct e as [ | | | | |ps]; try done.
    destruct (IH e' Hes) as (ls & Hls & Ht & Hall & Htr).
    exists ((stringify (JObj ps) +:+ String cr EmptyString) :: ls).
    change (crlf_text (JObj ps :: e' :: es))
      with (stringify (JObj ps) +:+ String cr (String newline (crlf_text (e' :: es)))).
    rewrite trim_end_app.
    assert (trim_end (String cr (String newline (crlf_text (e' :: es))))
            = String cr (String newline (trim_end (crlf_text (e' :: es))))) as ->.
    { rewrite (trim_end_cons cr), (trim_end_cons newline).
      by destruct (trim_end (crlf_text (e' :: es))). }
    change (truthy (String cr _)) with true. cbv iota.
    split_and!.
    + change (String cr (String newline ?t))
        with (String cr EmptyString +:+ String newline t).
      rewrite <- sapp_assoc, split_nl_line, Hls; [done|].
      by rewrite no_nl_app, no_nl_stringify.
    + done.
    + constructor; [by right|done].
    + constructor; [done|done].
Qed.

Lemma read_lines_crlf (es : list json) :
  Forall is_obj es →
  ∃ ls, read_lines (crlf_text es) = ls ∧ Forall2 line_of ls es.
Proof.
  intros Hobj. destruct es as [|e es]; [by exists []|].
  destruct (trim_end_crlf_text e es Hobj) as (ls & Hls & _ & Hall & Htr).
  exists ls. split; [|done]. unfold read_lines, trim.
  assert (trim_start (crlf_text (e :: es)) = crlf_text (e :: es)) as ->.
  { apply Forall_cons in Hobj as [He _]. by destruct e. }
  rewrite Hls. clear Hls Hall. induction Htr as [|l ls Hl Hls IH]; [done|].
  by rewrite filter_truthy_cons, Hl, IH.
Qed.

Lemma verify_loop_lines (sha256 : string → string) (ls : list string) (es : list json)
    (prev : option string) :
  Forall wf es → Forall2 line_of ls es →
  verify_loop sha256 prev ls = verify_loop sha256 prev (map stringify es).
Proof.
  intros Hwf Hall. revert prev. induction Hall as [|l e ls es Hl Hall IH]; intros prev; [done|].
  apply Forall_cons in Hwf as [He Hes]. cbn [map verify_loop].
  assert (check_line sha256 prev l = check_line sha256 prev (stringify e)) as ->.
  { unfold check_line. destruct Hl as [->| ->]; [done|].
    by rewrite parse_cr, parse_stringify. }
  destruct (check_line sha256 prev (stringify e)); [done|]. by apply IH.
Qed.

End CrlfFacts.

(** X18. Line ends do not matter to the verifier.  A log whose lines end
    with a carriage return and a line feed gets the outcome of the log with
    the same entries whose lines end with a line feed: the same count when
    it verifies, the same error at the same entry when it does not. *)
Theorem crlf_log_verifies_alike (sha256 : string → string) (entries : list JSON.json) :
  Forall JSON.is_obj entries → Forall JSON.wf entries →
  Verify.verify_content sha256 (Crlf.crlf_text entries)
  = Verify.verify_content sha256 (Attest.log_text entries).
Proof.
  intros Hobj Hwf. unfold Verify.verify_content.
  destruct (CrlfFacts.read_lines_crlf entries Hobj) as (ls & -> & Hall).
  rewrite (LogFacts.read_lines_log entries Hobj).
  rewrite (CrlfFacts.verify_loop_lines sha256 ls entries None Hwf Hall).
  by rewrite (Forall2_length _ _ _ Hall), length_map.
Qed.
Lemma crlf_log_verifies_alike_witness :
  let r := fun t => {| Attest.run_id := "1"; Attest.task_id := t; Attest.model := "m";
              Attest.dataset_sha256 := "d"; Attest.prompt_sha256 := "p";
              Attest.code_sha256 := "c"; Attest.pass := true;
              Attest.timestamp := "2024-01-01T00:00:00.000Z" |} in
  let entries := Attest.chain_entries SHA256.sha256
                   (Attest.numbered [r "t0"; r "t1"] 0) None in
  Verify.verify_content SHA256.sha256 (Crlf.crlf_text entries) = Verify.AttestationOK 2.
Proof.
  intros r entries.
  etrans; [apply (crlf_log_verifies_alike SHA256.sha256 entries)|].
  - apply ChainFacts.chain_entries_obj.
  - apply MemberFacts.chain_entries_wf.
  - vm_compute. reflexivity.
Defined.

(** ** The median *)

Module MedianFacts.
Import Summarize.

#[local] Instance Zle_total : Total Z.le.
Proof. intros x y. lia. Qed.

#[local] Instance Zle_antisymm : AntiSymm (=) Z.le.
Proof. intros x y. lia. Qed.

Lemma sorted_merge_sort (ns : list Z) : StronglySorted Z.le (merge_sort Z.le ns).
Proof. apply StronglySorted_merge_sort; apply _. Qed.

Lemma merge_sort_perm (ns ns' : list Z) :
  ns ≡ₚ ns' → merge_sort Z.le ns = merge_sort Z.le ns'.
Proof.
  intros H. apply (StronglySorted_unique Z.le); [apply sorted_merge_sort..|].
  by rewrite !merge_sort_Permutation.
Qed.

Lemma length_merge_sort (ns : list Z) : length (merge_sort Z.le ns) = length ns.
Proof. apply Permutation_length, merge_sort_Permutation. Qed.

Lemma sorted_lookup_le (a : list Z) (i j : nat) (x y : Z) :
  StronglySorted Z.le a → a !! i = Some x → a !! j = Some y → i ≤ j → (x ≤ y)%Z.
Proof.
  intros Hs. revert i j. induction Hs as [|z a Hs IH Hz]; intros i j Hi Hj Hle; [done|].
  destruct i as [|i], j as [|j]; simpl in *; try lia.
  - injection Hi as <-. injection Hj as <-. lia.
  - injection Hi as <-. rewrite Forall_forall in Hz. apply Hz.
    by eapply list_elem_of_lookup_2.
  - eapply IH; [done..|lia].
Qed.

Lemma filter_all (P : Z → Prop) `{∀ x, Decision (P x)} (l : list Z) :
  (∀ x, x ∈ l → P x) → filter P l = l.
Proof.
  induction l as [|x l IH]; intros Hall; [done|].
  rewrite filter_cons_True; [|apply Hall; left].
  f_equal. apply IH. intros y Hy. apply Hall. by right.
Qed.

(** In a sorted list the elements up to place [j] are at most the element
    there, and the elements from place [j] on are at least that. *)
Lemma count_le (a : list Z) (j : nat) (y v : Z) :
  StronglySorted Z.le a → a !! j = Some y → (y ≤ v)%Z →
  S j ≤ length (filter (fun x => (x ≤ v)%Z) a).
Proof.
  intros Hs Hj Hv. rewrite <- (take_drop (S j) a), filter_app, length_app.
  rewrite (filter_all _ (take (S j) a)).
  - rewrite length_take. apply lookup_lt_Some in Hj. lia.
  - intros x [i Hi]%list_elem_of_lookup_1.
    apply lookup_take_Some in Hi as [Hi Hlt].
    pose proof (sorted_lookup_le a i j x y Hs Hi Hj ltac:(lia)). lia.
Qed.

Lemma count_ge (a : list Z) (j : nat) (y v : Z) :
  StronglySorted Z.le a → a !! j = Some y → (v ≤ y)%Z →
  length a - j ≤ length (filter (fun x => (v ≤ x)%Z) a).
Proof.
  intros Hs Hj Hv. rewrite <- (take_drop j a) at 2. rewrite filter_app, length_app.
  rewrite (filter_all _ (drop j a)).
  - rewrite length_drop. lia.
  - intros x [i Hi]%list_elem_of_lookup_1. rewrite lookup_drop in Hi.
    pose proof (sorted_lookup_le a j (j + i) y x Hs Hj Hi ltac:(lia)). lia.
Qed.

Lemma round_half_between (p q : Z) :
  (p ≤ q)%Z → (p ≤ round_half (p + q) ≤ q)%Z.
Proof.
  intros H. unfold round_half.
  pose proof (Z.div_mod (p + q + 1) 2 ltac:(lia)).
  pose proof (Z.mod_pos_bound (p + q + 1) 2 ltac:(lia)). lia.
Qed.

(** The median lies between two elements of the sorted list, one in the
    lower half and one in the upper half. *)
Lemma median_between (ns : list Z) :
  ns ≠ [] →
  ∃ i j lo hi,
    merge_sort Z.le ns !! i = Some lo ∧ merge_sort Z.le ns !! j = Some hi
    ∧ (lo ≤ median ns ≤ hi)%Z
    ∧ length ns ≤ 2 * S i ∧ 2 * j ≤ length ns.
Proof.
  intros Hne. unfold median.
  assert (0 < length ns) as Hlen by (destruct ns; [done|simpl; lia]).
  rewrite bool_decide_eq_false_2; [|lia].
  cbv zeta. rewrite length_merge_sort.
  pose proof (Nat.div_mod_eq (length ns) 2) as Hdiv.
  pose proof (Nat.mod_upper_bound (length ns) 2 ltac:(lia)) as Hmod.
  set (a := merge_sort Z.le ns). set (m := length ns / 2) in *.
  assert (length a = length ns) as Ha by apply length_merge_sort.
  destruct (lookup_lt_is_Some_2 a m ltac:(lia)) as [q Hq].
  case_bool_decide as Hodd.
  - exists m, m, q, q. rewrite Hq. simpl. split_and!; try done; lia.
  - assert (0 < m) as Hm by lia.
    destruct (lookup_lt_is_Some_2 a (m - 1) ltac:(lia)) as [p Hp].
    exists (m - 1), m, p, q. rewrite Hp, Hq. simpl.
    pose proof (sorted_lookup_le a (m - 1) m p q (sorted_merge_sort ns) Hp Hq ltac:(lia)).
    split_and!; try done; try lia; by apply round_half_between.
Qed.

End MedianFacts.

(** X19. The median does not depend on the order of the numbers. *)
Theorem median_any_order (ns ns' : list Z) :
  ns ≡ₚ ns' → Summarize.median ns = Summarize.median ns'.
Proof.
  intros H. unfold Summarize.median.
  by rewrite (MedianFacts.merge_sort_perm ns ns' H), (Permutation_length H).
Qed.
Lemma median_any_order_witness :
  Summarize.median [420; 95; 1300; 210]%Z = Summarize.median [95; 210; 420; 1300]%Z.
Proof.
  apply (median_any_order [420; 95; 1300; 210]%Z [95; 210; 420; 1300]%Z).
  apply (bool_decide_unpack _). vm_compute. reflexivity.
Defined.

(** X20. The median splits the numbers in halves: when there is a number at
    all, at least half of the numbers are at most the median and at least
    half of them are at least the median.  So the median lies between the
    least and the greatest of the numbers. *)
Theorem median_splits_in_halves (ns : list Z) :
  ns ≠ [] →
  length ns ≤ 2 * length (filter (fun x => (x ≤ Summarize.median ns)%Z) ns)
  ∧ length ns ≤ 2 * length (filter (fun x => (Summarize.median ns ≤ x)%Z) ns).
Proof.
  intros Hne.
  destruct (MedianFacts.median_between ns Hne) as (i & j & lo & hi & Hi & Hj & [Hlo Hhi] & H1 & H2).
  pose proof (MedianFacts.sorted_merge_sort ns) as Hs.
  pose proof (MedianFacts.count_le _ i lo _ Hs Hi Hlo) as Hle.
  pose proof (MedianFacts.count_ge _ j hi _ Hs Hj Hhi) as Hge.
  rewrite MedianFacts.length_merge_sort in Hge.
  rewrite (merge_sort_Permutation Z.le ns) in Hle, Hge. lia.
Qed.
Lemma median_splits_in_halves_witness :
  Summarize.median [420; 95; 1300; 210]%Z = 315%Z
  ∧ 4 ≤ 2 * length (filter (fun x => (x ≤ 315)%Z) [420; 95; 1300; 210]%Z)
  ∧ 4 ≤ 2 * length (filter (fun x => (315 ≤ x)%Z) [420; 95; 1300; 210]%Z).
Proof.
  split; [vm_compute; reflexivity|].
  apply (median_splits_in_halves [420; 95; 1300; 210]%Z). discriminate.
Defined.

(** ** The summary of a run, as the summarize script reads it *)

Module ReportFacts.
Import Str JSON Access Summarize Report Run.

Lemma latency_of_result (r : TaskResult) :
  latency_of (result_json r) = JNum (first_latency r).
Proof.
  unfold latency_of, result_json, first_latency.
  destruct (r_attempts r) as [|a l]; reflexivity.
Qed.

End ReportFacts.

(** X21. The summarize script reads the latency of the first attempt of each
    task from a summary that the run wrote: for a summary whose [results]
    are results of the run, the latencies are those of the first attempts,
    in the order of the results, and 0 for a task without attempts. *)
Theorem summarize_reads_first_attempts (run : JSON.json) (rs : list Run.TaskResult) :
  Access.member run "results" = Some (JSON.JArr (map Report.result_json rs)) →
  Summarize.latencies run
  = Some (map (fun r => JSON.JNum (Report.first_latency r)) rs).
Proof.
  intros H. unfold Summarize.latencies. rewrite H.
  destruct run; try done. cbn [Access.nullish]. f_equal.
  rewrite map_map. apply map_ext. intros r. apply ReportFacts.latency_of_result.
Qed.
Lemma summarize_reads_first_attempts_witness :
  ∃ summary st,
    Demo.run Demo.env_k3 = Run.Done (summary, st)
    ∧ Summarize.latencies
        (JSON.JObj [("model", JSON.JStr (Run.s_model summary));
                    ("results", JSON.JArr (map Report.result_json (Run.s_results summary)))])
      = Some (map (fun r => JSON.JNum (Report.first_latency r)) (Run.s_results summary)).
Proof.
  eexists _, _. split; [vm_compute; reflexivity|].
  apply (summarize_reads_first_attempts _ _). reflexivity.
Defined.

(** ** The environment and the request *)

Module ConfigFacts.
Import Str JSON StrFacts Run Config.

Lemma trimSlash_cons (c : ascii) (s : string) :
  trimSlash (String c s)
  = match trimSlash s with
    | EmptyString => if Ascii.eqb c "/" then EmptyString else String c EmptyString
    | t => String c t
    end.
Proof. reflexivity. Qed.

Lemma trimSlash_slashes (n : nat) : trimSlash (slashes n) = EmptyString.
Proof. induction n as [|n IH]; [done|]. cbn [slashes]. by rewrite trimSlash_cons, IH. Qed.

Lemma trimSlash_app_slashes (s : string) (n : nat) :
  trimSlash (s +:+ slashes n) = trimSlash s.
Proof.
  induction s as [|c s IH]; [apply trimSlash_slashes|].
  by rewrite sapp_cons, !trimSlash_cons, IH.
Qed.

Lemma trimSlash_split (s : string) : ∃ n, s = trimSlash s +:+ slashes n.
Proof.
  induction s as [|c s [n IH]]; [by exists 0|]. rewrite trimSlash_cons.
  destruct (trimSlash s) as [|c' t].
  - destruct (Ascii.eqb_spec c "/") as [->|].
    + exists (S n). by rewrite IH at 1.
    + exists n. by rewrite IH at 1.
  - exists n. by rewrite IH at 1.
Qed.

Lemma trimSlash_no_slash (s t : string) : trimSlash s ≠ t +:+ "/".
Proof.
  revert t. induction s as [|c s IH]; intros t; [by destruct t|].
  rewrite trimSlash_cons. destruct (trimSlash s) as [|c' u] eqn:E.
  - destruct (Ascii.eqb_spec c "/") as [->|Hc]; [by destruct t|].
    destruct t as [|x t]; [intros [= ->]; done|]. by destruct t.
  - destruct t as [|x t]; [done|]. rewrite sapp_cons. intros [= -> H].
    by apply (IH t).
Qed.

Lemma contains_ci_unfold (pat s : string) :
  contains_ci pat s
  = match starts_with_ci pat s with
    | Some _ => true
    | None => match s with
              | EmptyString => false
              | String _ s' => contains_ci pat s'
              end
    end.
Proof. by destruct s. Qed.

Lemma contains_ci_cons (pat : string) (c : ascii) (s : string) :
  contains_ci pat s = true → contains_ci pat (String c s) = true.
Proof.
  intros H. rewrite contains_ci_unfold. by destruct (starts_with_ci pat (String c s)).
Qed.

(** A name in which [gpt-4o] occurs is one in which [-4o] occurs. *)
Lemma contains_gpt_4o (s : string) :
  contains_ci "gpt-4o" s = true → contains_ci "-4o" s = true.
Proof.
  induction s as [|c s IH]; [done|]. rewrite (contains_ci_unfold "gpt-4o").
  destruct (starts_with_ci "gpt-4o" (String c s)) as [r|] eqn:E.
  - intros _. clear IH.
    destruct s as [|c2 [|c3 [|c4 [|c5 [|c6 s]]]]];
      cbn [starts_with_ci] in E; repeat case_match; try done.
    do 3 apply contains_ci_cons. rewrite contains_ci_unfold. cbn [starts_with_ci].
    by repeat match goal with H : Ascii.eqb _ _ = true |- _ => rewrite H; clear H end.
  - intros H. by apply contains_ci_cons, IH.
Qed.

End ConfigFacts.

(** X22. [trimSlash] removes the slashes at the end of a text and nothing
    else: the text is the result followed by slashes only, the result does
    not end with a slash, and slashes added at the end of the text do not
    change the result.  So the address of a request has one slash before
    [chat/completions], however many end [BASE_URL]. *)
Theorem trimSlash_removes_trailing_slashes (s : string) :
  (∃ n, s = Config.trimSlash s +:+ Config.slashes n)
  ∧ (∀ t, Config.trimSlash s ≠ t +:+ "/")
  ∧ (∀ n, Config.trimSlash (s +:+ Config.slashes n) = Config.trimSlash s).
Proof.
  split_and!.
  - apply ConfigFacts.trimSlash_split.
  - apply ConfigFacts.trimSlash_no_slash.
  - apply ConfigFacts.trimSlash_app_slashes.
Qed.

(** X23. No request goes to a hosted API without a key.  When the guards
    let the run proceed, [MODEL] is not empty; and unless [BASE_URL] is on
    [localhost], [API_KEY] is not empty and the request carries it in its
    [Authorization] header. *)
Theorem hosted_requests_carry_key (env : Config.ProcessEnv) :
  Config.guards env = Config.Proceed →
  Config.MODEL env ≠ EmptyString
  ∧ (Config.is_localhost (Config.BASE_URL env) = false →
     Config.API_KEY env ≠ EmptyString
     ∧ Config.headers env
       = [("Content-Type", "application/json");
          ("Authorization", "Bearer " +:+ Config.API_KEY env)]).
Proof.
  unfold Config.guards, Config.headers.
  destruct (Config.MODEL env) as [|c m]; [done|]. cbn [Str.truthy negb].
  destruct (Config.API_KEY env) as [|k key]; cbn [Str.truthy negb andb].
  - destruct (Config.is_localhost (Config.BASE_URL env)); [|done].
    intros _. split; [done|]. done.
  - intros _. split; [done|]. intros _. split; done.
Qed.
Lemma hosted_requests_carry_key_witness :
  let env := {| Config.BASE_URL_var := None; Config.API_KEY_var := Some EmptyString;
                Config.OPENAI_API_KEY_var := Some "sk-test";
                Config.MODEL_var := Some "gpt-4o-mini";
                Config.TOKENIZER_var := None |} in
  Config.MODEL env ≠ EmptyString
  ∧ (Config.is_localhost (Config.BASE_URL env) = false →
     Config.API_KEY env ≠ EmptyString
     ∧ Config.headers env
       = [("Content-Type", "application/json");
          ("Authorization", "Bearer " +:+ Config.API_KEY env)]).
Proof.
  intros env. apply (hosted_requests_carry_key env). reflexivity.
Defined.

(** X24. The tokenizer is chosen by [-4o] alone: [chooseEncoding] returns
    [o200k_base] when [-4o] occurs in the name of the model, in capitals or
    not, and [cl100k_base] when it does not; the test for [gpt-4o] adds
    nothing. *)
Theorem chooseEncoding_by_4o (model : string) :
  Config.chooseEncoding model
  = if Config.contains_ci "-4o" model then "o200k_base" else "cl100k_base".
Proof.
  unfold Config.chooseEncoding.
  destruct (Config.contains_ci "gpt-4o" model) eqn:E; [|done].
  by rewrite (ConfigFacts.contains_gpt_4o model E).
Qed.
